(** * Crosswalk: a discrete-event simulation of a signalised crosswalk

    A shallow embedding of [simutils.py] (trace reader, Welford accumulator,
    random variates) and of [sim.py] (light controller, pedestrian and car
    managers, scheduler), with the properties proved about them.

    Conventions of the embedding.
    - A Python [float] is read as a real number: the arithmetic is exact, and
      [math.log] is the natural logarithm on the positive reals.  A quotient
      is [Rdiv]; Python raises [ZeroDivisionError] on a zero divisor, and the
      statements that go through a quotient assume the divisor is not zero,
      except where the source can reach a zero divisor with ordinary
      arguments ([geometric]), where the error is modelled.
    - A Python [int] is a [Z]; counters and lengths that are never negative
      are [nat].
    - Mutable objects are fields of one state record that the methods pass
      along; an exception leaves the state as it was when raised.
    - Every text line appended to the log is a constructor that carries the
      values the line prints. *)

From Stdlib Require Import String Ascii.
From Stdlib Require Import Reals Lra Lia ZArith List Bool.
From Stdlib Require Import Permutation Sorted.
Import ListNotations.
Local Open Scope R_scope.

(* ====================================================================== *)
(** * Python values *)
(* ====================================================================== *)

(** The exceptions the two files can raise or meet. *)
Inductive exn : Type :=
| StopIteration
| IndexError
| ValueError
| ZeroDivisionError
| NotImplementedError
| RuntimeError
| NameError
| TypeError
| AttributeError.

Inductive result (A : Type) : Type :=
| Ok (a : A)
| Raise (e : exn).

Arguments Ok {A} a.
Arguments Raise {A} e.

Definition exn_eqb (a b : exn) : bool :=
  match a, b with
  | StopIteration, StopIteration
  | IndexError, IndexError
  | ValueError, ValueError
  | ZeroDivisionError, ZeroDivisionError
  | NotImplementedError, NotImplementedError
  | RuntimeError, RuntimeError
  | NameError, NameError
  | TypeError, TypeError
  | AttributeError, AttributeError => true
  | _, _ => false
  end.

(** Comparisons of floats, as booleans. *)
Definition fle (x y : R) : bool := if Rle_dec x y then true else false.
Definition flt (x y : R) : bool := if Rlt_dec x y then true else false.
Definition feq (x y : R) : bool := if Req_dec_T x y then true else false.

(** [int(x)] on a float: truncation toward zero. *)
Definition py_int (x : R) : Z :=
  if Rle_dec 0 x then Int_part x else (- Int_part (- x))%Z.

(** [math.log(x)]: a [ValueError] (math domain error) unless [x > 0]. *)
Definition math_log (x : R) : result R :=
  if Rlt_dec 0 x then Ok (ln x) else Raise ValueError.

(** [l[k]] for a list: a negative index counts from the end, an index out of
    range raises [IndexError]. *)
Definition py_getitem {A : Type} (l : list A) (k : Z) : result A :=
  let n := Z.of_nat (length l) in
  let k' := if (k <? 0)%Z then (n + k)%Z else k in
  if ((0 <=? k')%Z && (k' <? n)%Z)%bool
  then match nth_error l (Z.to_nat k') with
       | Some a => Ok a
       | None => Raise IndexError
       end
  else Raise IndexError.

(** [l.pop(i)] for an index that [enumerate] produced. *)
Fixpoint remove_at {A : Type} (i : nat) (l : list A) : list A :=
  match l, i with
  | [], _ => []
  | _ :: t, O => t
  | h :: t, S j => h :: remove_at j t
  end.

(* ====================================================================== *)
(** * simutils.py: the source of uniform draws *)
(* ====================================================================== *)

(** Every variate starts with
    [u = (token.next() if type(token) is Token else random())].
    Either way the caller sees the next value of a sequence: the next number
    of the trace file, or the next pseudorandom number that [random()] keeps
    (it resamples while the value is [0.0]).  A source is that sequence and
    the position reached in it. *)
Record Source : Type := mkSource {
  src_draws : nat -> R;
  src_pos : nat
}.

Definition next_draw (tok : Source) : R * Source :=
  (src_draws tok (src_pos tok), mkSource (src_draws tok) (S (src_pos tok))).

(** The value the next call will see. *)
Definition peek (tok : Source) : R := src_draws tok (src_pos tok).

(* ====================================================================== *)
(** * simutils.py: random variates *)
(* ====================================================================== *)

(** [bernouli(p, token)]: [u >= 1.0 - p]. *)
Definition bernouli (p : R) (tok : Source) : bool * Source :=
  let (u, tok') := next_draw tok in
  (fle (1 - p) u, tok').

(** [pascal(n, p)]. *)
Definition pascal (n p : R) : result R := Raise NotImplementedError.

(** [binomial(n, p)]. *)
Definition binomial (n p : R) : result R := Raise NotImplementedError.

(** [equilikely(a, b, token)]: [a + int((b - a + 1) * u)]. *)
Definition equilikely (a b : Z) (tok : Source) : Z * Source :=
  let (u, tok') := next_draw tok in
  ((a + py_int (IZR (b - a + 1) * u))%Z, tok').

(** [geometric(l, token)]: the guard comes before the draw;
    [int(math.log(1.0 - u) / math.log(l))]. *)
Definition geometric (l : R) (tok : Source) : result Z * Source :=
  if fle l 0 then (Raise ValueError, tok)
  else
    let (u, tok') := next_draw tok in
    match math_log (1 - u) with
    | Raise e => (Raise e, tok')
    | Ok num =>
        match math_log l with
        | Raise e => (Raise e, tok')
        | Ok den =>
            if feq den 0 then (Raise ZeroDivisionError, tok')
            else (Ok (py_int (num / den)), tok')
        end
    end.

(** [uniform(a, b, token)]: [a + ((b - a) * u)]. *)
Definition uniform (a b : R) (tok : Source) : R * Source :=
  let (u, tok') := next_draw tok in
  (a + ((b - a) * u), tok').

(** [normal(mean, stddev)]. *)
Definition normal (mean stddev : R) : result R := Raise NotImplementedError.

(** [exponential(l, token)]: the guard comes before the draw;
    [-l * math.log(1.0 - u)]. *)
Definition exponential (l : R) (tok : Source) : result R * Source :=
  if fle l 0 then (Raise ValueError, tok)
  else
    let (u, tok') := next_draw tok in
    match math_log (1 - u) with
    | Raise e => (Raise e, tok')
    | Ok x => (Ok (- l * x), tok')
    end.

(* ====================================================================== *)
(** * simutils.py: class Welford *)
(* ====================================================================== *)

Record Welford : Type := mkWelford {
  w_name : string;
  w_avg : R;      (* self.avg *)
  w_var : R;      (* self.var: progressive, needs to be divided by n *)
  w_i : nat       (* self.i *)
}.

(** [Welford.__init__(name)]. *)
Definition Welford_init (name : string) : Welford := mkWelford name 0 0 0.

(** [Welford.insert(x)] for a numeric [x] ([float(x)] is then [x]). *)
Definition Welford_insert (w : Welford) (x : R) : Welford :=
  let i := S (w_i w) in
  let avg := w_avg w + ((x - w_avg w) / INR i) in
  let var := w_var w + (INR (i - 1) * ((x - w_avg w) ^ 2) / INR i) in
  mkWelford (w_name w) avg var i.

(** [Welford.mean()]. *)
Definition Welford_mean (w : Welford) : R := w_avg w.

(** [Welford.variance()]. *)
Definition Welford_variance (w : Welford) : R :=
  if (0 <? w_i w)%nat then w_var w / INR (w_i w) else 0.

(** The accumulator after a sequence of samples, first sample first. *)
Definition Welford_inserts (w : Welford) (xs : list R) : Welford :=
  fold_left Welford_insert xs w.

(** The closed forms over the whole history of samples. *)
Definition Rsum (xs : list R) : R := fold_right Rplus 0 xs.

Definition arithmetic_mean (xs : list R) : R := Rsum xs / INR (length xs).

Definition population_variance (xs : list R) : R :=
  Rsum (map (fun x => (x - arithmetic_mean xs) ^ 2) xs) / INR (length xs).

(* ====================================================================== *)
(** * simutils.py: class Token *)
(* ====================================================================== *)

(** What a generator body does when it is resumed: it yields a value,
    returns, or raises. *)
Inductive gen_outcome : Type :=
| GenYield (v : R)
| GenReturn
| GenRaise (e : exn).

(** The line printed by [Token.next] when the stream is exhausted:
    [ERROR: Reached end of tracefile! Read {count} values]. *)
Inductive TokenMsg : Type :=
| ReachedEnd (count : nat).

Record Token : Type := mkToken {
  tok_trace : list string;    (* self.trace: the lines not read yet *)
  tok_curval : R;             (* self.curval *)
  tok_count : nat;            (* self.count *)
  tok_iter_done : bool;       (* the generator self.iter has finished *)
  tok_stdout : list TokenMsg  (* what the token has printed, oldest first *)
}.

(** [Token.__init__(tf)] when the file opens; [lines] is its content. *)
Definition Token_init (lines : list string) : Token :=
  mkToken lines (-1) 0 false [].

Section TokenReader.

(** [float(line.strip())], a builtin: [None] is its [ValueError]. *)
Variable float_of_str : string -> option R.

(** Whether a [StopIteration] raised inside a generator body is turned into
    [RuntimeError] (PEP 479: always from Python 3.7 on; before that only
    under [from __future__ import generator_stop]). *)
Variable generator_stop : bool.

(** [Token.iterate], resumed once: the [for] loop takes the next line of the
    file; the body yields its value, or raises [StopIteration] from the
    [except ValueError] clause; at the end of the file the generator
    returns. *)
Definition Token_iterate (lines : list string) : gen_outcome * list string :=
  match lines with
  | [] => (GenReturn, [])
  | line :: rest =>
      match float_of_str line with
      | Some v => (GenYield v, rest)
      | None => (GenRaise StopIteration, rest)
      end
  end.

(** [next(self.iter)]: the builtin on the generator object. *)
Definition next_iter (t : Token) : result R * Token :=
  if tok_iter_done t then (Raise StopIteration, t)
  else
    let (o, rest) := Token_iterate (tok_trace t) in
    match o with
    | GenYield v =>
        (Ok v, mkToken rest (tok_curval t) (tok_count t) false (tok_stdout t))
    | GenReturn =>
        (Raise StopIteration,
         mkToken rest (tok_curval t) (tok_count t) true (tok_stdout t))
    | GenRaise e =>
        let e' := if (exn_eqb e StopIteration && generator_stop)%bool
                  then RuntimeError else e in
        (Raise e', mkToken rest (tok_curval t) (tok_count t) true (tok_stdout t))
    end.

(** [Token.next()]. *)
Definition Token_next (t : Token) : result R * Token :=
  match next_iter t with
  | (Ok v, t1) =>
      (Ok v, mkToken (tok_trace t1) v (S (tok_count t1)) (tok_iter_done t1)
                     (tok_stdout t1))
  | (Raise StopIteration, t1) =>
      (Ok 0, mkToken (tok_trace t1) (tok_curval t1) (tok_count t1)
                     (tok_iter_done t1)
                     (tok_stdout t1 ++ [ReachedEnd (tok_count t1)]))
  | (Raise e, t1) => (Raise e, t1)
  end.

End TokenReader.

(** A reader for the plain decimal numerals [d...d], enough to write trace
    files down; every other line is refused, as [float] refuses a line that
    holds no number. *)
Definition digit_of (c : ascii) : option nat :=
  let n := nat_of_ascii c in
  if ((48 <=? n) && (n <=? 57))%nat then Some (n - 48)%nat else None.

Fixpoint digits_value (acc : nat) (s : string) : option nat :=
  match s with
  | EmptyString => Some acc
  | String c rest =>
      match digit_of c with
      | Some d => digits_value (10 * acc + d) rest
      | None => None
      end
  end.

Definition decimal_of_str (s : string) : option R :=
  match s with
  | EmptyString => None
  | _ => match digits_value 0 s with
         | Some n => Some (INR n)
         | None => None
         end
  end.

(* ====================================================================== *)
(** * sim.py: simulation constants *)
(* ====================================================================== *)

Definition BLOCKWIDTH : R := 330.
Definition STREETWIDTH : R := 46.
Definition CROSSWIDTH : R := 24.
Definition REDTIMEOUT : R := 18.
Definition YELLOWTIMEOUT : R := 8.
Definition GREENTIMEOUT : R := 35.
Definition LENGTH : R := 9.
Definition VJA : R := 100 / 3.
Definition VJB : R := 154 / 3.
Definition CARACC : R := 10.
Definition VKA : R := 26 / 10.
Definition VKB : R := 41 / 10.
Definition MAXPEDS : nat := 20.

(* ====================================================================== *)
(** * sim.py: enum types and data structures *)
(* ====================================================================== *)

Inductive EventType : Type :=
| TimerExpire
| PedSpawn
| PedArrive
| PedImpatient
| CarSpawn
| CarArrive
| CarExit.

Inductive LightState : Type :=
| GREEN
| YELLOW
| RED
| GREENWAIT
| GREENWAITPRESSED.

Definition EventType_eqb (a b : EventType) : bool :=
  match a, b with
  | TimerExpire, TimerExpire
  | PedSpawn, PedSpawn
  | PedArrive, PedArrive
  | PedImpatient, PedImpatient
  | CarSpawn, CarSpawn
  | CarArrive, CarArrive
  | CarExit, CarExit => true
  | _, _ => false
  end.

Definition LightState_eqb (a b : LightState) : bool :=
  match a, b with
  | GREEN, GREEN
  | YELLOW, YELLOW
  | RED, RED
  | GREENWAIT, GREENWAIT
  | GREENWAITPRESSED, GREENWAITPRESSED => true
  | _, _ => false
  end.

(** [class Event]; [__lt__] compares the times only. *)
Record Event : Type := mkEvent {
  ev_at : R;
  ev_type : EventType;
  ev_id : Z
}.

Definition Event_lt (a b : Event) : Prop := ev_at a < ev_at b.

(** [class Light], without the pointer back to the simulation. *)
Record Light : Type := mkLight {
  light_state : LightState;
  light_walkexpire : R
}.

(** [class Ped]. *)
Record Ped : Type := mkPed {
  ped_id : Z;
  ped_at : R;
  ped_speed : R;
  ped_atlight : R;
  ped_walktime : R
}.

(** [class PedManager], without the pointer back to the simulation. *)
Record PedManager : Type := mkPedManager {
  peds_walking : list Ped;
  peds_waiting : list Ped;
  peds_count : nat
}.

(** [class Car]. *)
Record Car : Type := mkCar {
  car_id : Z;
  car_atime : R;
  car_speed : R;
  car_brakedist : R;
  car_braketime : R;
  car_shouldstop : bool;
  car_stoptime : R
}.

(** [class CarManager], without the pointer back to the simulation. *)
Record CarManager : Type := mkCarManager {
  cars_driving : list Car;
  cars_stopped : list Car;
  cars_total : R;
  cars_before : R;
  cars_after : R
}.

(** The lines appended to [sim.log]. *)
Inductive LogMsg : Type :=
| LogYellow                              (* Traffic light has changed to yellow *)
| LogRed                                 (* Traffic light has changed to red *)
| LogGreen                               (* Traffic light has changed to green *)
| LogPedPressed (id : Z)                 (* Ped {id} has pressed the button *)
| LogPedSpawned (id : Z)                 (* Spawned new ped ({id}) *)
| LogPedTooLate (id : Z)                 (* Ped {id} will not make it across the street *)
| LogPedWaiting (id : Z)                 (* Ped {id} is now waiting *)
| LogPedImpatient (id : Z)               (* Ped {id} has grown impatient *)
| LogPedCrossed (id : Z) (delay : R)     (* Ped {id} has crossed the street with {delay}s delay *)
| LogCarShouldStop (id : Z)              (* Car {id} should stop at the crosswalk *)
| LogCarReleased (id : Z) (t delay : R)  (* Car {id} has left the simulation in {t}s with {delay}s delay *)
| LogCarSpawned (id : Z)                 (* Spawned new car ({id}) *)
| LogCarStops (id : Z)                   (* Car {id} will NOT make the light *)
| LogCarPasses (id : Z)                  (* Car {id} will make the light *)
| LogCarExited (id : Z) (t : R).         (* Car {id} has left the simulation in {t}s with no delay *)

(** [class Simulation].  [sim_log] is [None] until the first event is
    processed ([self.log = None] in [__init__]). *)
Record Simulation : Type := mkSimulation {
  sim_time : R;
  sim_queue : list Event;
  sim_maxn : Z;
  sim_npeds : Z;
  sim_ncars : Z;
  sim_light : Light;
  sim_peds : PedManager;
  sim_cars : CarManager;
  sim_peddelay : Welford;
  sim_cardelay : Welford;
  sim_eventcount : nat;
  sim_totalevents : nat;
  sim_lambdap : R;
  sim_lambdaa : R;
  sim_pedrandom : Source;
  sim_autorandom : Source;
  sim_buttonrandom : Source;
  sim_debug : bool;
  sim_log : option (list LogMsg)
}.

(** The module-level name [sim] that [Light.timer] reads on entering RED.
    The main block of the script binds it to the simulation it runs; when
    the module is imported the name is unbound; a caller can also have bound
    it to another simulation, whose clock reads [other_time]. *)
Inductive GlobalSim : Type :=
| SimUnbound
| SimIsThis
| SimIsOther (other_time : R).

(** Field updates. *)
Definition set_time (v : R) (s : Simulation) : Simulation :=
  mkSimulation v (sim_queue s) (sim_maxn s) (sim_npeds s) (sim_ncars s)
    (sim_light s) (sim_peds s) (sim_cars s) (sim_peddelay s) (sim_cardelay s)
    (sim_eventcount s) (sim_totalevents s) (sim_lambdap s) (sim_lambdaa s)
    (sim_pedrandom s) (sim_autorandom s) (sim_buttonrandom s) (sim_debug s)
    (sim_log s).

Definition set_queue (v : list Event) (s : Simulation) : Simulation :=
  mkSimulation (sim_time s) v (sim_maxn s) (sim_npeds s) (sim_ncars s)
    (sim_light s) (sim_peds s) (sim_cars s) (sim_peddelay s) (sim_cardelay s)
    (sim_eventcount s) (sim_totalevents s) (sim_lambdap s) (sim_lambdaa s)
    (sim_pedrandom s) (sim_autorandom s) (sim_buttonrandom s) (sim_debug s)
    (sim_log s).

Definition set_npeds (v : Z) (s : Simulation) : Simulation :=
  mkSimulation (sim_time s) (sim_queue s) (sim_maxn s) v (sim_ncars s)
    (sim_light s) (sim_peds s) (sim_cars s) (sim_peddelay s) (sim_cardelay s)
    (sim_eventcount s) (sim_totalevents s) (sim_lambdap s) (sim_lambdaa s)
    (sim_pedrandom s) (sim_autorandom s) (sim_buttonrandom s) (sim_debug s)
    (sim_log s).

Definition set_ncars (v : Z) (s : Simulation) : Simulation :=
  mkSimulation (sim_time s) (sim_queue s) (sim_maxn s) (sim_npeds s) v
    (sim_light s) (sim_peds s) (sim_cars s) (sim_peddelay s) (sim_cardelay s)
    (sim_eventcount s) (sim_totalevents s) (sim_lambdap s) (sim_lambdaa s)
    (sim_pedrandom s) (sim_autorandom s) (sim_buttonrandom s) (sim_debug s)
    (sim_log s).

Definition set_light (v : Light) (s : Simulation) : Simulation :=
  mkSimulation (sim_time s) (sim_queue s) (sim_maxn s) (sim_npeds s) (sim_ncars s)
    v (sim_peds s) (sim_cars s) (sim_peddelay s) (sim_cardelay s)
    (sim_eventcount s) (sim_totalevents s) (sim_lambdap s) (sim_lambdaa s)
    (sim_pedrandom s) (sim_autorandom s) (sim_buttonrandom s) (sim_debug s)
    (sim_log s).

Definition set_peds (v : PedManager) (s : Simulation) : Simulation :=
  mkSimulation (sim_time s) (sim_queue s) (sim_maxn s) (sim_npeds s) (sim_ncars s)
    (sim_light s) v (sim_cars s) (sim_peddelay s) (sim_cardelay s)
    (sim_eventcount s) (sim_totalevents s) (sim_lambdap s) (sim_lambdaa s)
    (sim_pedrandom s) (sim_autorandom s) (sim_buttonrandom s) (sim_debug s)
    (sim_log s).

Definition set_cars (v : CarManager) (s : Simulation) : Simulation :=
  mkSimulation (sim_time s) (sim_queue s) (sim_maxn s) (sim_npeds s) (sim_ncars s)
    (sim_light s) (sim_peds s) v (sim_peddelay s) (sim_cardelay s)
    (sim_eventcount s) (sim_totalevents s) (sim_lambdap s) (sim_lambdaa s)
    (sim_pedrandom s) (sim_autorandom s) (sim_buttonrandom s) (sim_debug s)
    (sim_log s).

Definition set_peddelay (v : Welford) (s : Simulation) : Simulation :=
  mkSimulation (sim_time s) (sim_queue s) (sim_maxn s) (sim_npeds s) (sim_ncars s)
    (sim_light s) (sim_peds s) (sim_cars s) v (sim_cardelay s)
    (sim_eventcount s) (sim_totalevents s) (sim_lambdap s) (sim_lambdaa s)
    (sim_pedrandom s) (sim_autorandom s) (sim_buttonrandom s) (sim_debug s)
    (sim_log s).

Definition set_cardelay (v : Welford) (s : Simulation) : Simulation :=
  mkSimulation (sim_time s) (sim_queue s) (sim_maxn s) (sim_npeds s) (sim_ncars s)
    (sim_light s) (sim_peds s) (sim_cars s) (sim_peddelay s) v
    (sim_eventcount s) (sim_totalevents s) (sim_lambdap s) (sim_lambdaa s)
    (sim_pedrandom s) (sim_autorandom s) (sim_buttonrandom s) (sim_debug s)
    (sim_log s).

Definition set_eventcount (v : nat) (s : Simulation) : Simulation :=
  mkSimulation (sim_time s) (sim_queue s) (sim_maxn s) (sim_npeds s) (sim_ncars s)
    (sim_light s) (sim_peds s) (sim_cars s) (sim_peddelay s) (sim_cardelay s)
    v (sim_totalevents s) (sim_lambdap s) (sim_lambdaa s)
    (sim_pedrandom s) (sim_autorandom s) (sim_buttonrandom s) (sim_debug s)
    (sim_log s).

Definition set_totalevents (v : nat) (s : Simulation) : Simulation :=
  mkSimulation (sim_time s) (sim_queue s) (sim_maxn s) (sim_npeds s) (sim_ncars s)
    (sim_light s) (sim_peds s) (sim_cars s) (sim_peddelay s) (sim_cardelay s)
    (sim_eventcount s) v (sim_lambdap s) (sim_lambdaa s)
    (sim_pedrandom s) (sim_autorandom s) (sim_buttonrandom s) (sim_debug s)
    (sim_log s).

Definition set_pedrandom (v : Source) (s : Simulation) : Simulation :=
  mkSimulation (sim_time s) (sim_queue s) (sim_maxn s) (sim_npeds s) (sim_ncars s)
    (sim_light s) (sim_peds s) (sim_cars s) (sim_peddelay s) (sim_cardelay s)
    (sim_eventcount s) (sim_totalevents s) (sim_lambdap s) (sim_lambdaa s)
    v (sim_autorandom s) (sim_buttonrandom s) (sim_debug s)
    (sim_log s).

Definition set_autorandom (v : Source) (s : Simulation) : Simulation :=
  mkSimulation (sim_time s) (sim_queue s) (sim_maxn s) (sim_npeds s) (sim_ncars s)
    (sim_light s) (sim_peds s) (sim_cars s) (sim_peddelay s) (sim_cardelay s)
    (sim_eventcount s) (sim_totalevents s) (sim_lambdap s) (sim_lambdaa s)
    (sim_pedrandom s) v (sim_buttonrandom s) (sim_debug s)
    (sim_log s).

Definition set_buttonrandom (v : Source) (s : Simulation) : Simulation :=
  mkSimulation (sim_time s) (sim_queue s) (sim_maxn s) (sim_npeds s) (sim_ncars s)
    (sim_light s) (sim_peds s) (sim_cars s) (sim_peddelay s) (sim_cardelay s)
    (sim_eventcount s) (sim_totalevents s) (sim_lambdap s) (sim_lambdaa s)
    (sim_pedrandom s) (sim_autorandom s) v (sim_debug s)
    (sim_log s).

Definition set_log (v : option (list LogMsg)) (s : Simulation) : Simulation :=
  mkSimulation (sim_time s) (sim_queue s) (sim_maxn s) (sim_npeds s) (sim_ncars s)
    (sim_light s) (sim_peds s) (sim_cars s) (sim_peddelay s) (sim_cardelay s)
    (sim_eventcount s) (sim_totalevents s) (sim_lambdap s) (sim_lambdaa s)
    (sim_pedrandom s) (sim_autorandom s) (sim_buttonrandom s) (sim_debug s)
    v.

Definition set_state (v : LightState) (s : Simulation) : Simulation :=
  set_light (mkLight v (light_walkexpire (sim_light s))) s.

Definition set_walkexpire (v : R) (s : Simulation) : Simulation :=
  set_light (mkLight (light_state (sim_light s)) v) s.

Definition set_walking (v : list Ped) (s : Simulation) : Simulation :=
  set_peds (mkPedManager v (peds_waiting (sim_peds s)) (peds_count (sim_peds s))) s.

Definition set_waiting (v : list Ped) (s : Simulation) : Simulation :=
  set_peds (mkPedManager (peds_walking (sim_peds s)) v (peds_count (sim_peds s))) s.

Definition set_count (v : nat) (s : Simulation) : Simulation :=
  set_peds (mkPedManager (peds_walking (sim_peds s)) (peds_waiting (sim_peds s)) v) s.

Definition set_driving (v : list Car) (s : Simulation) : Simulation :=
  set_cars (mkCarManager v (cars_stopped (sim_cars s)) (cars_total (sim_cars s))
              (cars_before (sim_cars s)) (cars_after (sim_cars s))) s.

Definition set_stopped (v : list Car) (s : Simulation) : Simulation :=
  set_cars (mkCarManager (cars_driving (sim_cars s)) v (cars_total (sim_cars s))
              (cars_before (sim_cars s)) (cars_after (sim_cars s))) s.

(** Shorthands for the fields of the parts. *)
Definition state (s : Simulation) : LightState := light_state (sim_light s).
Definition walkexpire (s : Simulation) : R := light_walkexpire (sim_light s).
Definition walking (s : Simulation) : list Ped := peds_walking (sim_peds s).
Definition waiting (s : Simulation) : list Ped := peds_waiting (sim_peds s).
Definition count (s : Simulation) : nat := peds_count (sim_peds s).
Definition driving (s : Simulation) : list Car := cars_driving (sim_cars s).
Definition stopped (s : Simulation) : list Car := cars_stopped (sim_cars s).
Definition total (s : Simulation) : R := cars_total (sim_cars s).
Definition before (s : Simulation) : R := cars_before (sim_cars s).
Definition after (s : Simulation) : R := cars_after (sim_cars s).

(* ====================================================================== *)
(** * The heap queue (module heapq of the Python library) *)
(* ====================================================================== *)

(** [heappush] and [heappop] work on the list that stores the heap;
    [heappop] raises [IndexError] on the empty list. *)
Class Heapq : Type := mkHeapq {
  heappush : list Event -> Event -> list Event;
  heappop : list Event -> result (Event * list Event)
}.

(** What the library promises, for the lists [is_heap] that the two
    operations build from the empty list: both keep the elements, and
    [heappop] returns one that no other element is less than. *)
Record HeapqSpec (hq : Heapq) (is_heap : list Event -> Prop) : Prop := {
  heap_nil : is_heap [];
  heap_push : forall q e, is_heap q -> is_heap (heappush q e);
  heap_push_perm : forall q e, is_heap q -> Permutation (heappush q e) (e :: q);
  heap_pop_empty : heappop [] = Raise IndexError;
  heap_pop_some : forall q, is_heap q -> q <> [] ->
      exists e q', heappop q = Ok (e, q');
  heap_pop_ok : forall q e q', is_heap q -> heappop q = Ok (e, q') ->
      is_heap q' /\ Permutation q (e :: q') /\
      Forall (fun x => ~ Event_lt x e) q'
}.

(** A heap queue to run the model with: a list kept sorted by time, an
    event going after those of the same time. *)
Fixpoint sorted_push (q : list Event) (e : Event) : list Event :=
  match q with
  | [] => [e]
  | x :: t => if flt (ev_at e) (ev_at x) then e :: x :: t
              else x :: sorted_push t e
  end.

Definition sorted_pop (q : list Event) : result (Event * list Event) :=
  match q with
  | [] => Raise IndexError
  | x :: t => Ok (x, t)
  end.

Definition sorted_heapq : Heapq := mkHeapq sorted_push sorted_pop.

Definition by_time (a b : Event) : Prop := ev_at a <= ev_at b.

Definition sorted_is_heap (q : list Event) : Prop := StronglySorted by_time q.

(* ====================================================================== *)
(** * The monad of the methods: state and exceptions *)
(* ====================================================================== *)

Definition M (A : Type) : Type := Simulation -> result A * Simulation.

Definition ret {A : Type} (a : A) : M A := fun s => (Ok a, s).

Definition bind {A B : Type} (m : M A) (k : A -> M B) : M B :=
  fun s => match m s with
           | (Ok a, s') => k a s'
           | (Raise e, s') => (Raise e, s')
           end.

Definition raise {A : Type} (e : exn) : M A := fun s => (Raise e, s).

Definition gets {A : Type} (f : Simulation -> A) : M A := fun s => (Ok (f s), s).

Definition modify (f : Simulation -> Simulation) : M unit := fun s => (Ok tt, f s).

Definition lift {A : Type} (r : result A) : M A := fun s => (r, s).

(** [try: m  except e: h]. *)
Definition try_except {A : Type} (m : M A) (e : exn) (h : M A) : M A :=
  fun s => match m s with
           | (Raise e', s') => if exn_eqb e' e then h s' else (Raise e', s')
           | r => r
           end.

Declare Scope monad_scope.
Delimit Scope monad_scope with monad.
Notation "x <- m ;; k" := (bind m (fun x => k))
  (at level 61, m at next level, right associativity) : monad_scope.
Notation "m ;; k" := (bind m (fun _ => k))
  (at level 61, right associativity) : monad_scope.
Local Open Scope monad_scope.

(** [self.sim.log += line]: a [TypeError] while the log is [None]. *)
Definition log_append (line : LogMsg) : M unit :=
  fun s => match sim_log s with
           | Some l => (Ok tt, set_log (Some (l ++ [line])) s)
           | None => (Raise TypeError, s)
           end.

(** Draws from the three sources of the simulation. *)
Definition on_pedrandom {A : Type} (f : Source -> A * Source) : M A :=
  fun s => let (a, tok) := f (sim_pedrandom s) in (Ok a, set_pedrandom tok s).

Definition on_autorandom {A : Type} (f : Source -> A * Source) : M A :=
  fun s => let (a, tok) := f (sim_autorandom s) in (Ok a, set_autorandom tok s).

Definition on_buttonrandom {A : Type} (f : Source -> A * Source) : M A :=
  fun s => let (a, tok) := f (sim_buttonrandom s) in (Ok a, set_buttonrandom tok s).

(* ====================================================================== *)
(** * sim.py: the methods *)
(* ====================================================================== *)

Section Methods.

Context {hq : Heapq}.

(** [Simulation.insert(delta, type, id = -1)]. *)
Definition Simulation_insert (delta : R) (type : EventType) (id : Z) : M unit :=
  fun s =>
    let event := mkEvent (sim_time s + delta) type id in
    (Ok tt,
     set_totalevents (S (sim_totalevents s))
       (set_queue (heappush (sim_queue s) event) s)).

(* ---------------------------------------------------------------------- *)
(** ** class Car, class CarManager *)

(** [Car.__init__(id, at, atoken)]. *)
Definition Car_init (id : Z) (at0 : R) : M Car :=
  speed <- on_autorandom (uniform VJA VJB) ;;
  ret (mkCar id at0 speed ((speed ^ 2) / (2 * CARACC)) (speed / CARACC)
         false (-1)).

(** The two values that [lightchange] compares with the crosswalk. *)
Definition posa (time : R) (car : Car) : R :=
  (time + YELLOWTIMEOUT - car_atime car) / car_speed car.

Definition posb (time : R) (car : Car) : R :=
  (time + YELLOWTIMEOUT + REDTIMEOUT - car_atime car) / car_speed car.

Definition set_shouldstop (v : bool) (car : Car) : Car :=
  mkCar (car_id car) (car_atime car) (car_speed car) (car_brakedist car)
    (car_braketime car) v (car_stoptime car).

Definition set_stoptime (v : R) (car : Car) : Car :=
  mkCar (car_id car) (car_atime car) (car_speed car) (car_brakedist car)
    (car_braketime car) (car_shouldstop car) v.

(** The list with its [k]-th element replaced. *)
Fixpoint replace_at {A : Type} (k : nat) (a : A) (l : list A) : list A :=
  match l, k with
  | [], _ => []
  | _ :: t, O => a :: t
  | h :: t, S j => h :: replace_at j a t
  end.

(** [for car in self.driving: ...] of the YELLOW branch, from the [k]-th car
    on, [n] cars to go. *)
Fixpoint lightchange_yellow_from (k n : nat) : M unit :=
  match n with
  | O => ret tt
  | S n' =>
      cars <- gets driving ;;
      match nth_error cars k with
      | None => ret tt
      | Some car =>
          time <- gets sim_time ;;
          before_ <- gets before ;;
          after_ <- gets after ;;
          (if (flt (posa time car) after_ || flt before_ (posb time car))%bool
           then
             modify (fun s => set_driving
                                (replace_at k (set_shouldstop true car) (driving s)) s) ;;
             log_append (LogCarShouldStop (car_id car))
           else ret tt) ;;
          lightchange_yellow_from (S k) n'
      end
  end.

(** The delay that the GREEN branch computes for a released car. *)
Definition release_time (total_ time : R) (car : Car) : R :=
  let basetime := (total_ - (2 * car_brakedist car)) / car_speed car in
  let acctime := car_braketime car in
  let stoptime := time - car_stoptime car in
  basetime + acctime + stoptime.

Definition release_delay (total_ time : R) (car : Car) : R :=
  release_time total_ time car - (total_ / car_speed car).

(** [for i in range(len(self.stopped)): car = self.stopped.pop() ...]. *)
Fixpoint lightchange_green_loop (n : nat) : M unit :=
  match n with
  | O => ret tt
  | S n' =>
      cars <- gets stopped ;;
      match rev cars with
      | [] => raise IndexError
      | car :: _ =>
          modify (fun s => set_stopped (removelast (stopped s)) s) ;;
          total_ <- gets total ;;
          time <- gets sim_time ;;
          modify (fun s => set_cardelay
                             (Welford_insert (sim_cardelay s)
                                (release_delay total_ time car)) s) ;;
          log_append (LogCarReleased (car_id car) (release_time total_ time car)
                        (release_delay total_ time car)) ;;
          lightchange_green_loop n'
      end
  end.

(** [CarManager.lightchange(state)]. *)
Definition CarManager_lightchange (st : LightState) : M unit :=
  match st with
  | YELLOW => n <- gets (fun s => length (driving s)) ;; lightchange_yellow_from 0 n
  | GREEN => n <- gets (fun s => length (stopped s)) ;; lightchange_green_loop n
  | _ => ret tt
  end.

(** [CarManager.spawn(car)]. *)
Definition CarManager_spawn (car : Car) : M unit :=
  modify (fun s => set_driving (driving s ++ [car]) s) ;;
  before_ <- gets before ;;
  Simulation_insert ((before_ - car_brakedist car) / car_speed car) CarArrive (car_id car) ;;
  total_ <- gets total ;;
  Simulation_insert (total_ / car_speed car) CarExit (car_id car) ;;
  log_append (LogCarSpawned (car_id car)).

(** The index of the first car with the given id. *)
Fixpoint find_car (id : Z) (l : list Car) : option (nat * Car) :=
  match l with
  | [] => None
  | car :: t =>
      if (car_id car =? id)%Z then Some (O, car)
      else match find_car id t with
           | Some (i, c) => Some (S i, c)
           | None => None
           end
  end.

(** [CarManager.arrive(id)].  The car that is appended to [stopped] is the
    object whose [stoptime] the last statement then sets. *)
Definition CarManager_arrive (id : Z) : M unit :=
  cars <- gets driving ;;
  match find_car id cars with
  | None => ret tt
  | Some (i, car) =>
      st <- gets state ;;
      time <- gets sim_time ;;
      if (car_shouldstop car &&
          (LightState_eqb st YELLOW || LightState_eqb st RED))%bool
      then
        modify (fun s => set_driving (remove_at i (driving s)) s) ;;
        modify (fun s => set_stopped (stopped s ++ [car]) s) ;;
        log_append (LogCarStops id) ;;
        modify (fun s => set_stopped
                           (removelast (stopped s) ++ [set_stoptime time car]) s)
      else
        log_append (LogCarPasses id) ;;
        modify (fun s => set_driving
                           (replace_at i (set_stoptime time car) (driving s)) s)
  end.

(** [CarManager.exit(id)]. *)
Definition CarManager_exit (id : Z) : M unit :=
  cars <- gets driving ;;
  match find_car id cars with
  | None => ret tt
  | Some (i, car) =>
      modify (fun s => set_driving (remove_at i (driving s)) s) ;;
      modify (fun s => set_cardelay (Welford_insert (sim_cardelay s) 0) s) ;;
      time <- gets sim_time ;;
      log_append (LogCarExited id (time - car_atime car))
  end.

(* ---------------------------------------------------------------------- *)
(** ** class Ped, class PedManager (first part) *)

(** [Ped.__init__(id, at, ptoken)]. *)
Definition Ped_init (id : Z) (at0 : R) : M Ped :=
  speed <- on_pedrandom (uniform VKA VKB) ;;
  ret (mkPed id at0 speed ((BLOCKWIDTH + STREETWIDTH) / speed)
         (STREETWIDTH / speed)).

(** The index of the first pedestrian with the given id. *)
Fixpoint find_ped (id : Z) (l : list Ped) : option (nat * Ped) :=
  match l with
  | [] => None
  | ped :: t =>
      if (ped_id ped =? id)%Z then Some (O, ped)
      else match find_ped id t with
           | Some (i, p) => Some (S i, p)
           | None => None
           end
  end.

(** [PedManager.getped(id, popped = True)]. *)
Definition PedManager_getped (id : Z) (popped : bool) : M (option Ped) :=
  fun s =>
    match find_ped id (walking s) with
    | Some (i, ped) =>
        if popped then (Ok (Some ped), set_walking (remove_at i (walking s)) s)
        else (Ok (Some ped), s)
    | None =>
        match find_ped id (waiting s) with
        | Some (i, ped) =>
            if popped then (Ok (Some ped), set_waiting (remove_at i (waiting s)) s)
            else (Ok (Some ped), s)
        | None => (Ok None, s)
        end
    end.

(** [PedManager.spawn(ped)]. *)
Definition PedManager_spawn (ped : Ped) : M unit :=
  modify (fun s => set_walking (walking s ++ [ped]) s) ;;
  Simulation_insert (ped_atlight ped) PedArrive (ped_id ped) ;;
  log_append (LogPedSpawned (ped_id ped)).

(** [PedManager.cross(ped)]. *)
Definition PedManager_cross (ped : Ped) : M unit :=
  n <- gets count ;;
  if (n <? MAXPEDS)%nat then
    time <- gets sim_time ;;
    let delay := time - ped_at ped - ped_atlight ped in
    modify (set_count (S n)) ;;
    modify (fun s => set_peddelay (Welford_insert (sim_peddelay s) delay) s) ;;
    log_append (LogPedCrossed (ped_id ped) delay)
  else raise StopIteration.

(** The loop of [deploy], for the values [idxs] of [i] that remain.  In an
    iteration [true] stands for its normal end and [false] for [break]. *)
Fixpoint deploy_loop (idxs : list nat) : M unit :=
  match idxs with
  | [] => ret tt
  | i :: rest =>
      n <- gets count ;;
      peds <- gets waiting ;;
      ped <- lift (py_getitem peds (Z.of_nat i - Z.of_nat n)) ;;
      continue <- try_except
                    (PedManager_getped (ped_id ped) true ;;
                     PedManager_cross ped ;;
                     ret true)
                    StopIteration (ret false) ;;
      if continue : bool then deploy_loop rest else ret tt
  end.

(** [PedManager.deploy()]. *)
Definition PedManager_deploy : M unit :=
  modify (set_count 0) ;;
  n <- gets (fun s => length (waiting s)) ;;
  deploy_loop (seq 0 n).

(* ---------------------------------------------------------------------- *)
(** ** class Light *)

(** [Light.press()]. *)
Definition Light_press : M unit :=
  st <- gets state ;;
  match st with
  | GREENWAIT => modify (set_state GREENWAITPRESSED)
  | GREEN =>
      modify (set_state YELLOW) ;;
      log_append LogYellow ;;
      CarManager_lightchange YELLOW ;;
      Simulation_insert YELLOWTIMEOUT TimerExpire (-1)
  | _ => ret tt
  end.

(** [sim.time] in [Light.timer]: the clock of the simulation that the
    module-level name [sim] is bound to. *)
Definition global_sim_time (g : GlobalSim) : M R :=
  match g with
  | SimUnbound => raise NameError
  | SimIsThis => gets sim_time
  | SimIsOther t => ret t
  end.

(** [Light.timer()].  The warning of the GREEN branch is printed, not
    logged, and changes nothing. *)
Definition Light_timer (g : GlobalSim) : M unit :=
  st <- gets state ;;
  match st with
  | GREENWAITPRESSED =>
      modify (set_state YELLOW) ;;
      log_append LogYellow ;;
      CarManager_lightchange YELLOW ;;
      Simulation_insert YELLOWTIMEOUT TimerExpire (-1)
  | GREENWAIT => modify (set_state GREEN)
  | GREEN => ret tt
  | YELLOW =>
      modify (set_state RED) ;;
      log_append LogRed ;;
      t <- global_sim_time g ;;
      modify (set_walkexpire (t + REDTIMEOUT)) ;;
      PedManager_deploy ;;
      Simulation_insert REDTIMEOUT TimerExpire (-1)
  | RED =>
      modify (set_state GREENWAIT) ;;
      log_append LogGreen ;;
      CarManager_lightchange GREEN ;;
      Simulation_insert GREENTIMEOUT TimerExpire (-1)
  end.

(* ---------------------------------------------------------------------- *)
(** ** class PedManager (second part) *)

(** [PedManager.press(n, id = -1)]. *)
Definition PedManager_press (n : nat) (id : Z) : M unit :=
  result <- (if (n =? 0)%nat
             then on_buttonrandom (bernouli (15 / 16))
             else on_buttonrandom (bernouli (1 / (INR n + 1)))) ;;
  if result : bool then
    log_append (LogPedPressed id) ;;
    Light_press
  else ret tt.

(** [PedManager.arrive(id)].  When no pedestrian has the id, [getped]
    returns [None] and the source fails with [AttributeError] at the first
    attribute it reads from it; the model raises it at the lookup. *)
Definition PedManager_arrive (id : Z) : M unit :=
  found <- PedManager_getped id true ;;
  match found with
  | None => raise AttributeError
  | Some ped =>
      st <- gets state ;;
      we <- gets walkexpire ;;
      time <- gets sim_time ;;
      crossed <-
        (if (LightState_eqb st RED && fle (ped_walktime ped) (we - time))%bool
         then try_except (PedManager_cross ped ;; ret true)
                         StopIteration (ret false)
         else if LightState_eqb st RED
              then log_append (LogPedTooLate id) ;; ret false
              else ret false) ;;
      if crossed : bool then ret tt
      else
        n <- gets (fun s => length (waiting s)) ;;
        PedManager_press n id ;;
        modify (fun s => set_waiting (waiting s ++ [ped]) s) ;;
        log_append (LogPedWaiting id) ;;
        Simulation_insert 60 PedImpatient id
  end.

(** [PedManager.impatient(id)]. *)
Definition PedManager_impatient (id : Z) : M unit :=
  found <- PedManager_getped id false ;;
  match found with
  | None => ret tt
  | Some _ =>
      log_append (LogPedImpatient id) ;;
      PedManager_press 0 id ;;
      Simulation_insert 60 PedImpatient id
  end.

(* ---------------------------------------------------------------------- *)
(** ** class Simulation *)

(** The object before the four calls of [insert] that end [__init__]. *)
Definition Simulation_blank (n : Z) (a p b : Source) (debug : bool) : Simulation :=
  let total_ := (7 * BLOCKWIDTH) + (6 * STREETWIDTH) in
  mkSimulation 0 [] n 0 0
    (mkLight GREEN 0)
    (mkPedManager [] [] 0)
    (mkCarManager [] [] total_ ((total_ - CROSSWIDTH) / 2)
       (((total_ + CROSSWIDTH) / 2) + LENGTH))
    (Welford_init "Ped Delay") (Welford_init "Auto Delay")
    0 0 20 15 p a b debug None.

(** The end of [Simulation.__init__]: the initial arrivals. *)
Definition Simulation_populate : M unit :=
  lp <- gets sim_lambdap ;;
  la <- gets sim_lambdaa ;;
  d1 <- bind (on_pedrandom (exponential lp)) lift ;;
  Simulation_insert d1 PedSpawn (-1) ;;
  d2 <- bind (on_pedrandom (exponential lp)) lift ;;
  Simulation_insert d2 PedSpawn (-1) ;;
  d3 <- bind (on_autorandom (exponential la)) lift ;;
  Simulation_insert d3 CarSpawn (-1) ;;
  d4 <- bind (on_autorandom (exponential la)) lift ;;
  Simulation_insert d4 CarSpawn (-1).

(** [Simulation.__init__(n, a, p, b, debug)]. *)
Definition Simulation_init (n : Z) (a p b : Source) (debug : bool)
  : result unit * Simulation :=
  Simulation_populate (Simulation_blank n a p b debug).

(** The handler that [next] selects for an event. *)
Definition dispatch (g : GlobalSim) (event : Event) : M unit :=
  npeds <- gets sim_npeds ;;
  ncars <- gets sim_ncars ;;
  maxn <- gets sim_maxn ;;
  match ev_type event with
  | TimerExpire => Light_timer g
  | PedSpawn =>
      if (npeds <? maxn)%Z then
        modify (set_npeds (npeds + 1)%Z) ;;
        time <- gets sim_time ;;
        ped <- Ped_init (npeds + 1)%Z time ;;
        PedManager_spawn ped ;;
        lp <- gets sim_lambdap ;;
        d <- bind (on_pedrandom (exponential lp)) lift ;;
        Simulation_insert d PedSpawn (-1)
      else ret tt
  | PedArrive => PedManager_arrive (ev_id event)
  | PedImpatient => PedManager_impatient (ev_id event)
  | CarSpawn =>
      if (ncars <? maxn)%Z then
        modify (set_ncars (ncars + 1)%Z) ;;
        time <- gets sim_time ;;
        car <- Car_init (ncars + 1)%Z time ;;
        CarManager_spawn car ;;
        la <- gets sim_lambdaa ;;
        d <- bind (on_autorandom (exponential la)) lift ;;
        Simulation_insert d CarSpawn (-1)
      else ret tt
  | CarArrive => CarManager_arrive (ev_id event)
  | CarExit => CarManager_exit (ev_id event)
  end.

(** [Simulation.next()], without the block that prints the state and waits
    for a key when [debug] is set. *)
Definition Simulation_next (g : GlobalSim) : M unit :=
  q <- gets sim_queue ;;
  popped <- lift (heappop q) ;;
  let (event, q') := popped : Event * list Event in
  modify (set_queue q') ;;
  modify (set_time (ev_at event)) ;;
  modify (fun s => set_eventcount (S (sim_eventcount s)) s) ;;
  modify (set_log (Some [])) ;;
  dispatch g event.

(** [Simulation.start()]: at most [fuel] turns of the [while True] loop.
    [None]: the loop is still running.  [Some (Ok tt, s)]: it has ended by
    [break].  [Some (Raise e, s)]: [e] has escaped from it. *)
Fixpoint Simulation_start (fuel : nat) (g : GlobalSim) (s : Simulation)
  : option (result unit * Simulation) :=
  match fuel with
  | O => None
  | S fuel' =>
      match Simulation_next g s with
      | (Ok _, s') => Simulation_start fuel' g s'
      | (Raise StopIteration, s') | (Raise IndexError, s') => Some (Ok tt, s')
      | (Raise e, s') => Some (Raise e, s')
      end
  end.

End Methods.

(* ====================================================================== *)
(** * Definitions used by the statements and the proofs *)
(* ====================================================================== *)

(** The terms of the alternating series of [exp (-1)]. *)
Definition inv_fact (n : nat) : R := / INR (fact n).

Definition const_source (u : R) : Source := mkSource (fun _ => u) 0.

(** The sum of the squared deviations of the samples from [m]. *)
Definition sq_dev (m : R) (xs : list R) : R := Rsum (map (fun x => (x - m) ^ 2) xs).

(** What ties the accumulator to the samples it has seen. *)
Definition Welford_tracks (w : Welford) (xs : list R) : Prop :=
  w_i w = length xs /\
  w_avg w * INR (length xs) = Rsum xs /\
  w_var w = sq_dev (w_avg w) xs.

(** A car as [Car.__init__] builds it from a speed above 0; the later
    assignments change [shouldstop] and [stoptime] only. *)
Definition Car_built (c : Car) : Prop :=
  0 < car_speed c /\
  car_brakedist c = car_speed c ^ 2 / (2 * CARACC) /\
  car_braketime c = car_speed c / CARACC.

(** The test of the YELLOW branch of [lightchange]. *)
Definition yellow_test (time before_ after_ : R) (car : Car) : bool :=
  (flt (posa time car) after_ || flt before_ (posb time car))%bool.

Definition yellow_mark (time before_ after_ : R) (car : Car) : Car :=
  if yellow_test time before_ after_ car then set_shouldstop true car else car.

Definition yellow_lines (time before_ after_ : R) (cars : list Car) : list LogMsg :=
  flat_map (fun car => if yellow_test time before_ after_ car
                       then [LogCarShouldStop (car_id car)] else []) cars.

(** The line logged for a car released on green. *)
Definition release_line (total_ time : R) (car : Car) : LogMsg :=
  LogCarReleased (car_id car) (release_time total_ time car)
    (release_delay total_ time car).

(** A simulation at time 32 with its log open and one car on the road, which
    entered at time 0 and drives at 40 ft/s. *)
Definition car40 : Car := mkCar 1 0 40 80 4 false (-1).

Definition sim_car40 : Simulation :=
  set_driving [car40]
    (set_time 32
       (set_log (Some [])
          (Simulation_blank 1 (const_source (1 / 2)) (const_source (1 / 2))
             (const_source (1 / 2)) false))).

(** The delay that [cross] records for a pedestrian, and the line it logs. *)
Definition cross_delay (time : R) (ped : Ped) : R :=
  time - ped_at ped - ped_atlight ped.

Definition cross_line (time : R) (ped : Ped) : LogMsg :=
  LogPedCrossed (ped_id ped) (cross_delay time ped).

(** No pedestrian of [peds] has the id of a pedestrian of [others]. *)
Definition ids_apart (peds others : list Ped) : Prop :=
  forall p, In p peds -> find_ped (ped_id p) others = None.

(** A pedestrian that entered at time 0 and walks at 3 ft/s. *)
Definition ped3 (id : Z) : Ped := mkPed id 0 3 (376 / 3) (46 / 3).

(** Pedestrians [k+1 .. k+n]. *)
Fixpoint peds_from (k : Z) (n : nat) : list Ped :=
  match n with
  | O => []
  | S n' => ped3 (k + 1) :: peds_from (k + 1) n'
  end.

(** A simulation at time 500 with its log open and 22 pedestrians waiting at
    the button, pedestrian 1 first. *)
Definition sim_queue22 : Simulation :=
  set_waiting (peds_from 0 22)
    (set_time 500
       (set_log (Some [])
          (Simulation_blank 22 (const_source (1 / 2)) (const_source (1 / 2))
             (const_source (1 / 2)) false))).

(** A fresh simulation whose clock reads 5 and whose log is open; the light
    is GREEN and no event is pending. *)
Definition sim_green5 : Simulation :=
  set_time 5
    (set_log (Some [])
       (Simulation_blank 1 (const_source (1 / 2)) (const_source (1 / 2))
          (const_source (1 / 2)) false)).

(** The timer event that [insert] builds at time [t] for a duration [d]. *)
Definition timer_event (t d : R) : Event := mkEvent (t + d) TimerExpire (-1).

(** A source all of whose draws lie in (0,1), as [random()] returns them. *)
Definition valid_draws (tok : Source) : Prop :=
  forall k, 0 < src_draws tok k < 1.

(** [m] keeps [I] whatever its outcome, and every value it returns
    satisfies [Q]. *)
Definition keeps {A : Type} (I : Simulation -> Prop) (m : M A) (Q : A -> Prop) : Prop :=
  forall s, I s -> I (snd (m s)) /\ (forall a, fst (m s) = Ok a -> Q a).

Definition anything {A : Type} (a : A) : Prop := True.

(** At clock [t]: the queue is a heap whose events are not in the past, the
    draws are valid, and the constants of [__init__] have the signs that the
    delays rely on. *)
Definition Clock_inv (is_heap : list Event -> Prop) (t : R) (s : Simulation) : Prop :=
  sim_time s = t /\
  is_heap (sim_queue s) /\
  Forall (fun e => t <= ev_at e) (sim_queue s) /\
  valid_draws (sim_pedrandom s) /\
  valid_draws (sim_autorandom s) /\
  valid_draws (sim_buttonrandom s) /\
  0 < sim_lambdap s /\
  0 < sim_lambdaa s /\
  0 <= total s /\
  VJB ^ 2 / (2 * CARACC) <= before s.

(** A car whose speed is between [VJA] and [VJB], as [uniform] draws it. *)
Definition Car_fresh (c : Car) : Prop :=
  VJA <= car_speed c <= VJB /\ Car_built c.

(** [s'] is reached from [s0] by successive calls of [next] that return;
    [tr] holds the lines they have logged, oldest first. *)
Inductive reaches {hq : Heapq} (g : GlobalSim) (s0 : Simulation)
  : list LogMsg -> Simulation -> Prop :=
| reaches_start : reaches g s0 [] s0
| reaches_next : forall tr s s' l,
    reaches g s0 tr s ->
    Simulation_next g s = (Ok tt, s') ->
    sim_log s' = Some l ->
    reaches g s0 (tr ++ l) s'.

(** The fields that [Clock_inv] reads: the clock, the queue, the sources
    and the constants. *)
Definition same_schedule (s s' : Simulation) : Prop :=
  sim_time s' = sim_time s /\
  sim_queue s' = sim_queue s /\
  sim_pedrandom s' = sim_pedrandom s /\
  sim_autorandom s' = sim_autorandom s /\
  sim_buttonrandom s' = sim_buttonrandom s /\
  sim_lambdap s' = sim_lambdap s /\
  sim_lambdaa s' = sim_lambdaa s /\
  total s' = total s /\
  before s' = before s.

(** What the log tells about the cars: the exits, each with the sample that
    the same statement block records in the car-delay accumulator ([0.0] in
    [CarManager.exit], [delay] in the GREEN branch of [lightchange]); the
    cars moved to [stopped]; the cars released on green; the cars spawned. *)
Definition exit_of (line : LogMsg) : list (Z * R) :=
  match line with
  | LogCarExited id _ => [(id, 0)]
  | LogCarReleased id _ delay => [(id, delay)]
  | _ => []
  end.

Definition stop_of (line : LogMsg) : list Z :=
  match line with
  | LogCarStops id => [id]
  | _ => []
  end.


Definition spawn_of (line : LogMsg) : list Z :=
  match line with
  | LogCarSpawned id => [id]
  | _ => []
  end.


(** A line that says nothing about the place of a car. *)
Definition quiet (line : LogMsg) : Prop :=
  exit_of line = [] /\ stop_of line = [] /\ spawn_of line = [].

(** The ids [1 .. n]. *)
Definition ids_upto (n : Z) : list Z := map Z.of_nat (seq 1 (Z.to_nat n)).

(** A timer, or the exit of a given car, is pending in a queue. *)
Definition timer_pending (q : list Event) : Prop :=
  exists e, In e q /\ ev_type e = TimerExpire.






(** What a handler that is not about one car leaves of the state [s1] it
    starts from: the schedule only grows, the cars keep their place and all
    but their should-stop flag, no sample is recorded, and the lines logged
    are quiet.  With [lit], for the handlers that may press the button and
    start with a timer pending whenever the light is not GREEN: it stays so,
    and the light leaves neither YELLOW nor RED.  Without [lit], for the
    others: the light keeps its state. *)
Definition Cars_frame (is_heap : list Event -> Prop) (lit : Prop)
  (s1 s : Simulation) : Prop :=
  Clock_inv is_heap (sim_time s1) s /\
  sim_ncars s = sim_ncars s1 /\
  stopped s = stopped s1 /\
  sim_cardelay s = sim_cardelay s1 /\
  map (set_shouldstop false) (driving s) = map (set_shouldstop false) (driving s1) /\
  (exists l, sim_log s = Some l /\ Forall quiet l) /\
  (forall e, In e (sim_queue s1) -> In e (sim_queue s)) /\
  (lit -> state s <> GREEN -> timer_pending (sim_queue s)) /\
  (lit -> state s1 = YELLOW \/ state s1 = RED -> state s = state s1) /\
  (~ lit -> state s = state s1).

(** The car that [Car.__init__] builds at a speed. *)
Definition new_car (id : Z) (at0 speed : R) : Car :=
  mkCar id at0 speed ((speed ^ 2) / (2 * CARACC)) (speed / CARACC) false (-1).

(** The state in which [next] calls the handler of the event [e], popped
    from a queue of which [q'] remains. *)
Definition popped_state (e : Event) (q' : list Event) (s : Simulation) : Simulation :=
  set_log (Some [])
    (set_eventcount (S (sim_eventcount s))
       (set_time (ev_at e) (set_queue q' s))).

(** The fields that [Cars_frame] reads. *)
Definition same_cars (s s' : Simulation) : Prop :=
  same_schedule s s' /\
  sim_ncars s' = sim_ncars s /\
  sim_cars s' = sim_cars s /\
  sim_cardelay s' = sim_cardelay s /\
  sim_log s' = sim_log s /\
  sim_light s' = sim_light s.

(* ---------------------------------------------------------------------- *)
(** ** simutils.py: the rest of the module *)

(** [l[k] = a] for a list: a negative index counts from the end, an index
    out of range raises [IndexError]. *)
Definition py_setitem {A : Type} (l : list A) (k : Z) (a : A) : result (list A) :=
  let n := Z.of_nat (length l) in
  let k' := if (k <? 0)%Z then (n + k)%Z else k in
  if ((0 <=? k')%Z && (k' <? n)%Z)%bool
  then Ok (replace_at (Z.to_nat k') a l)
  else Raise IndexError.

(** [range(lo, hi)]. *)
Definition py_range (lo hi : Z) : list Z :=
  map (fun k => (lo + Z.of_nat k)%Z) (seq 0 (Z.to_nat (hi - lo))).

(** The [while x == 0.0] loop of [random()], at most [fuel] turns of it;
    [raw] is the sequence that [pyrandom.random()] returns.  [None]: the
    loop is still running. *)
Fixpoint resample (fuel : nat) (x : R) (raw : Source) : option (R * Source) :=
  if feq x 0 then
    match fuel with
    | O => None
    | S fuel' => let (x', raw') := next_draw raw in resample fuel' x' raw'
    end
  else Some (x, raw).

(** [random()]. *)
Definition random (fuel : nat) (raw : Source) : option (R * Source) :=
  let (x, raw') := next_draw raw in resample fuel x raw'.

(** The loop of [shuffle] for the values [idxs] of [index] that remain;
    [len] is [len(arr)], read once before the loop.  The array is changed in
    place: an exception leaves it as it was when raised. *)
Fixpoint shuffle_loop {A : Type} (len : Z) (idxs : list nat) (arr : list A)
  (tok : Source) : result unit * (list A * Source) :=
  match idxs with
  | [] => (Ok tt, (arr, tok))
  | index :: rest =>
      let (swap, tok') := equilikely (Z.of_nat index) (len - 1) tok in
      match py_getitem arr swap with
      | Raise e => (Raise e, (arr, tok'))
      | Ok hold =>
          match py_getitem arr (Z.of_nat index) with
          | Raise e => (Raise e, (arr, tok'))
          | Ok x =>
              match py_setitem arr swap x with
              | Raise e => (Raise e, (arr, tok'))
              | Ok arr1 =>
                  match py_setitem arr1 (Z.of_nat index) hold with
                  | Raise e => (Raise e, (arr1, tok'))
                  | Ok arr2 => shuffle_loop len rest arr2 tok'
                  end
              end
          end
      end
  end.

(** [shuffle(arr, token)]: the array and the source after the call. *)
Definition shuffle {A : Type} (arr : list A) (tok : Source)
  : result unit * (list A * Source) :=
  shuffle_loop (Z.of_nat (length arr)) (seq 0 (length arr - 1)) arr tok.

(** A draw of [sample]: [equilikely] is given the token and reads it when it
    is a [Token]; otherwise it calls [random()], as [bernouli], which is
    given no token, always does.  [rng] is the sequence of [random()]. *)
Definition draw_with {X : Type} (f : Source -> X * Source)
  (token : option Source) (rng : Source) : X * (option Source * Source) :=
  match token with
  | Some t => let (x, t') := f t in (x, (Some t', rng))
  | None => let (x, rng') := f rng in (x, (None, rng'))
  end.

(** The first loop of [sample]: [data.append(arr[i])] for the values [idxs]
    of [i]; [inr] is the [return data] of the [except IndexError] clause. *)
Fixpoint sample_fill {A : Type} (idxs : list nat) (arr data : list A)
  : list A + list A :=
  match idxs with
  | [] => inl data
  | i :: rest =>
      match py_getitem arr (Z.of_nat i) with
      | Ok a => sample_fill rest arr (data ++ [a])
      | Raise _ => inr data
      end
  end.

(** The second loop of [sample] for the values [idxs] of [i] that remain. *)
Fixpoint sample_replace {A : Type} (ssize : Z) (idxs : list Z)
  (arr data : list A) (token : option Source) (rng : Source)
  : result (list A) * (option Source * Source) :=
  match idxs with
  | [] => (Ok data, (token, rng))
  | i :: rest =>
      match py_getitem arr i with
      | Raise e => (Raise e, (token, rng))
      | Ok val =>
          if (i + 1 =? 0)%Z then (Raise ZeroDivisionError, (token, rng))
          else
            let (hit, rng1) := bernouli (IZR ssize / IZR (i + 1)) rng in
            if hit then
              let (j, srcs) := draw_with (equilikely 0 (ssize - 1)) token rng1 in
              match py_setitem data j val with
              | Raise e => (Raise e, srcs)
              | Ok data' => sample_replace ssize rest arr data' (fst srcs) (snd srcs)
              end
            else sample_replace ssize rest arr data token rng1
      end
  end.

(** [sample(arr, ssize, token)]. *)
Definition sample {A : Type} (arr : list A) (ssize : Z)
  (token : option Source) (rng : Source)
  : result (list A) * (option Source * Source) :=
  match sample_fill (seq 0 (Z.to_nat ssize)) arr [] with
  | inr data => (Ok data, (token, rng))
  | inl data =>
      sample_replace ssize (py_range ssize (Z.of_nat (length arr))) arr data token rng
  end.

(** [Welford.std()]: [variance ** 0.5], the square root of a variance that
    is not negative. *)
Definition Welford_std (w : Welford) : R := sqrt (Welford_variance w).


Section TokenIterator.

Variable float_of_str : string -> option R.
Variable generator_stop : bool.

(** [TokenIter.__next__()], on the token that the iterator points to. *)
Definition TokenIter_next (t : Token) : result R * Token :=
  match next_iter float_of_str generator_stop t with
  | (Ok v, t1) =>
      (Ok v, mkToken (tok_trace t1) v (S (tok_count t1)) (tok_iter_done t1)
                     (tok_stdout t1))
  | (Raise e, t1) => (Raise e, t1)
  end.

(** [list(token)]: [__next__] is called until it raises; [StopIteration]
    ends the list, any other exception escapes.  At most [fuel] calls. *)
Fixpoint Token_list (fuel : nat) (t : Token) : option (result (list R) * Token) :=
  match fuel with
  | O => None
  | S fuel' =>
      match TokenIter_next t with
      | (Ok v, t1) =>
          match Token_list fuel' t1 with
          | Some (Ok vs, t2) => Some (Ok (v :: vs), t2)
          | other => other
          end
      | (Raise StopIteration, t1) => Some (Ok [], t1)
      | (Raise e, t1) => Some (Raise e, t1)
      end
  end.

(** [k] calls of [Token.next()]: the values returned, first call first. *)
Fixpoint Token_nexts (k : nat) (t : Token) : result (list R) * Token :=
  match k with
  | O => (Ok [], t)
  | S k' =>
      match Token_next float_of_str generator_stop t with
      | (Ok v, t1) =>
          match Token_nexts k' t1 with
          | (Ok vs, t2) => (Ok (v :: vs), t2)
          | other => other
          end
      | (Raise e, t1) => (Raise e, t1)
      end
  end.

End TokenIterator.

(* ---------------------------------------------------------------------- *)
(** ** What a run keeps *)

(** [m] returns from every state of [I], in a state of [I], a value of [Q]. *)
Definition runs {A : Type} (I : Simulation -> Prop) (m : M A) (Q : A -> Prop) : Prop :=
  forall s, I s -> exists a, fst (m s) = Ok a /\ I (snd (m s)) /\ Q a.

(** [m] returns from every state of [P], and [Q] holds of the value and the
    state it returns in. *)
Definition hoare {A : Type} (P : Simulation -> Prop) (m : M A)
  (Q : A -> Simulation -> Prop) : Prop :=
  forall s, P s -> exists a, fst (m s) = Ok a /\ Q a (snd (m s)).

(** The timers pending in a queue, and the ids of the arrivals of
    pedestrians pending in it. *)
Definition is_timer (e : Event) : bool := EventType_eqb (ev_type e) TimerExpire.

Definition timers (q : list Event) : nat := length (filter is_timer q).

Definition arrival_of (e : Event) : list Z :=
  if EventType_eqb (ev_type e) PedArrive then [ev_id e] else [].

Definition arrivals (q : list Event) : list Z := flat_map arrival_of q.

(** What no statement of a handler needs more than: draws as [random()]
    gives them and the rates of [__init__]. *)
Definition Safe_draws (s : Simulation) : Prop :=
  valid_draws (sim_pedrandom s) /\
  valid_draws (sim_autorandom s) /\
  valid_draws (sim_buttonrandom s) /\
  0 < sim_lambdap s /\
  0 < sim_lambdaa s.

(** Every event inserted is pending or has been processed. *)
Definition Counted (s : Simulation) : Prop :=
  sim_totalevents s = (sim_eventcount s + length (sim_queue s))%nat.

(** No more than [n] pedestrians and [n] cars are generated, [n] being the
    number that [__init__] was given. *)
Definition Bounded (n : Z) (s : Simulation) : Prop :=
  sim_maxn s = n /\
  (0 <= sim_npeds s <= Z.max 0 n)%Z /\
  (0 <= sim_ncars s <= Z.max 0 n)%Z.

(** One timer is pending while the light is not GREEN, none while it is. *)
Definition Timed (q : list Event) (s : Simulation) : Prop :=
  timers q = if LightState_eqb (state s) GREEN then 0%nat else 1%nat.

(** The pedestrians on their way have distinct ids among [1 .. npeds], and
    those walking to the button are those whose arrival is pending. *)
Definition Ped_places (q : list Event) (s : Simulation) : Prop :=
  NoDup (map ped_id (walking s ++ waiting s)) /\
  Forall (fun p => (1 <= ped_id p <= sim_npeds s)%Z) (walking s ++ waiting s) /\
  Permutation (arrivals q) (map ped_id (walking s)).

(** The id of the pedestrian that [arrive] holds between the two lists. *)
Definition Ped_fresh (o : option Z) (s : Simulation) : Prop :=
  match o with
  | None => True
  | Some id => ~ In id (map ped_id (walking s ++ waiting s)) /\
               (1 <= id <= sim_npeds s)%Z
  end.

(** While the quota of pedestrians, or of cars, is not reached, the next
    spawn is pending. *)
Definition spawn_pending (t : EventType) (q : list Event) : Prop :=
  exists e, In e q /\ ev_type e = t.

Definition Spawning (q : list Event) (s : Simulation) : Prop :=
  ((sim_npeds s < sim_maxn s)%Z -> spawn_pending PedSpawn q) /\
  ((sim_ncars s < sim_maxn s)%Z -> spawn_pending CarSpawn q).

(** The queue, the counters, the light and the pedestrians in step. *)
Definition Run_core (is_heap : list Event -> Prop) (n : Z) (s : Simulation)
  : Prop :=
  is_heap (sim_queue s) /\
  Safe_draws s /\
  Counted s /\
  Bounded n s /\
  Timed (sim_queue s) s /\
  Ped_places (sim_queue s) s.

(** Between two calls of [next]. *)
Definition Run_inv (is_heap : list Event -> Prop) (n : Z) (s : Simulation)
  : Prop :=
  Spawning (sim_queue s) s /\ Run_core is_heap n s.

(** Inside a handler: the log is open. *)
Definition Run_mid (is_heap : list Event -> Prop) (n : Z) (o : option Z)
  (s : Simulation) : Prop :=
  Run_inv is_heap n s /\
  (exists l, sim_log s = Some l) /\
  Ped_fresh o s.

(* ---------------------------------------------------------------------- *)
(** ** A run in which no press succeeds *)

(** A source of the button none of whose draws makes a press succeed:
    [bernouli(p)] succeeds on a draw of at least [1 - p], and [press] asks
    with [p = 15/16] at most. *)
Definition no_press (tok : Source) : Prop :=
  forall k, 0 < src_draws tok k < 1 / 16.

(** A pedestrian on its way has a [PedImpatient] event pending. *)
Definition impatient_pending (q : list Event) (s : Simulation) : Prop :=
  exists e, In e q /\ ev_type e = PedImpatient /\
            In (ev_id e) (map ped_id (walking s ++ waiting s)).

(** An event for the pedestrians is still to come: a spawn that the quota
    allows, the arrival of a pedestrian who walks to the button, or the
    impatience of one on its way. *)
Definition Busy (q : list Event) (s : Simulation) : Prop :=
  (sim_npeds s < sim_maxn s)%Z \/ walking s <> [] \/ impatient_pending q s.

(** The light has stayed GREEN and no draw to come presses the button. *)
Definition Unpressed (is_heap : list Event -> Prop) (s : Simulation) : Prop :=
  is_heap (sim_queue s) /\ state s = GREEN /\ no_press (sim_buttonrandom s).

Definition Stuck (is_heap : list Event -> Prop) (s : Simulation) : Prop :=
  Unpressed is_heap s /\ Busy (sim_queue s) s.

(* ====================================================================== *)
(** * Facts about the Python values *)
(* ====================================================================== *)

Lemma fle_true : forall x y, fle x y = true <-> x <= y.
Proof.
  intros x y. unfold fle. destruct (Rle_dec x y); split; intro H;
    try reflexivity; try assumption; try discriminate. contradiction.
Qed.

Lemma fle_false : forall x y, fle x y = false <-> y < x.
Proof.
  intros x y. unfold fle. destruct (Rle_dec x y); split; intro H;
    try reflexivity; try discriminate; lra.
Qed.

Lemma flt_true : forall x y, flt x y = true <-> x < y.
Proof.
  intros x y. unfold flt. destruct (Rlt_dec x y); split; intro H;
    try reflexivity; try assumption; try discriminate. contradiction.
Qed.

Lemma flt_false : forall x y, flt x y = false <-> y <= x.
Proof.
  intros x y. unfold flt. destruct (Rlt_dec x y); split; intro H;
    try reflexivity; try discriminate; lra.
Qed.

Lemma feq_false : forall x y, x <> y -> feq x y = false.
Proof.
  intros x y H. unfold feq. destruct (Req_dec_T x y); [contradiction|reflexivity].
Qed.

Lemma math_log_pos : forall x, 0 < x -> math_log x = Ok (ln x).
Proof.
  intros x H. unfold math_log. destruct (Rlt_dec 0 x); [reflexivity|contradiction].
Qed.

Lemma math_log_nonpos : forall x, x <= 0 -> math_log x = Raise ValueError.
Proof.
  intros x H. unfold math_log. destruct (Rlt_dec 0 x); [lra|reflexivity].
Qed.

(** On a float that is not negative, [int] is the floor. *)
Lemma py_int_floor : forall x, 0 <= x -> py_int x = Int_part x.
Proof.
  intros x H. unfold py_int. destruct (Rle_dec 0 x); [reflexivity|contradiction].
Qed.

Lemma Int_part_unique : forall x z, IZR z <= x < IZR z + 1 -> Int_part x = z.
Proof.
  intros x z [H1 H2]. symmetry. apply Int_part_spec. lra.
Qed.

Lemma ln_neg : forall x, 0 < x < 1 -> ln x < 0.
Proof.
  intros x [H0 H1]. rewrite <- ln_1. apply ln_increasing; assumption.
Qed.

Lemma ln_nonpos : forall x, 0 < x <= 1 -> ln x <= 0.
Proof.
  intros x [H0 [H1|H1]].
  - left. apply ln_neg. split; assumption.
  - subst x. rewrite ln_1. right. reflexivity.
Qed.

(* ====================================================================== *)
(** * A bound on [exp (-1)] *)
(* ====================================================================== *)

Lemma inv_fact_decreasing : Un_decreasing inv_fact.
Proof.
  intro n. unfold inv_fact.
  apply Rinv_le_contravar.
  - apply INR_fact_lt_0.
  - apply le_INR. apply fact_le. lia.
Qed.

Lemma inv_fact_cv : Un_cv inv_fact 0.
Proof.
  intros eps Heps.
  destruct (cv_speed_pow_fact 1 eps Heps) as [N HN].
  exists N. intros n Hn. specialize (HN n Hn).
  unfold inv_fact. rewrite pow1 in HN. unfold Rdiv in HN.
  rewrite Rmult_1_l in HN. exact HN.
Qed.

Lemma exp_m1_alt : Un_cv (fun N => sum_f_R0 (tg_alt inv_fact) N) (exp (-1)).
Proof.
  unfold exp. destruct (exist_exp (-1)) as [l Hl]. simpl.
  unfold exp_in, infinite_sum in Hl.
  intros eps Heps. destruct (Hl eps Heps) as [N HN].
  exists N. intros n Hn. specialize (HN n Hn).
  replace (sum_f_R0 (tg_alt inv_fact) n)
    with (sum_f_R0 (fun i => / INR (fact i) * (-1) ^ i) n); [exact HN|].
  apply sum_eq. intros i _. unfold tg_alt, inv_fact. ring.
Qed.

Lemma tg_alt_inv_fact_S : forall n,
  tg_alt inv_fact (S n) = - tg_alt inv_fact n / INR (S n).
Proof.
  intro n. unfold tg_alt, inv_fact.
  rewrite fact_simpl, mult_INR. simpl pow.
  field. split.
  - apply INR_fact_neq_0.
  - apply not_0_INR. discriminate.
Qed.

Ltac alt_term_step Hprev :=
  rewrite tg_alt_inv_fact_S, Hprev;
  match goal with |- context [INR ?k] =>
    let z := eval compute in (Z.of_nat k) in
    replace (INR k) with (IZR z) by (rewrite INR_IZR_INZ; reflexivity)
  end; lra.

Lemma exp_m1_bounds :
  3678794411 / 10000000000 <= exp (-1) <= 3678794412 / 10000000000.
Proof.
  pose proof (alternated_series_ineq inv_fact (exp (-1)) 7
                inv_fact_decreasing inv_fact_cv exp_m1_alt) as [Hlo Hhi].
  assert (T0 : tg_alt inv_fact 0 = 1)
    by (unfold tg_alt, inv_fact; simpl; field).
  assert (T1 : tg_alt inv_fact 1 = -1 / 1) by alt_term_step T0.
  assert (T2 : tg_alt inv_fact 2 = 1 / 2) by alt_term_step T1.
  assert (T3 : tg_alt inv_fact 3 = -1 / 6) by alt_term_step T2.
  assert (T4 : tg_alt inv_fact 4 = 1 / 24) by alt_term_step T3.
  assert (T5 : tg_alt inv_fact 5 = -1 / 120) by alt_term_step T4.
  assert (T6 : tg_alt inv_fact 6 = 1 / 720) by alt_term_step T5.
  assert (T7 : tg_alt inv_fact 7 = -1 / 5040) by alt_term_step T6.
  assert (T8 : tg_alt inv_fact 8 = 1 / 40320) by alt_term_step T7.
  assert (T9 : tg_alt inv_fact 9 = -1 / 362880) by alt_term_step T8.
  assert (T10 : tg_alt inv_fact 10 = 1 / 3628800) by alt_term_step T9.
  assert (T11 : tg_alt inv_fact 11 = -1 / 39916800) by alt_term_step T10.
  assert (T12 : tg_alt inv_fact 12 = 1 / 479001600) by alt_term_step T11.
  assert (T13 : tg_alt inv_fact 13 = -1 / 6227020800) by alt_term_step T12.
  assert (T14 : tg_alt inv_fact 14 = 1 / 87178291200) by alt_term_step T13.
  assert (T15 : tg_alt inv_fact 15 = -1 / 1307674368000) by alt_term_step T14.
  cbn [Nat.mul Nat.add sum_f_R0] in Hlo, Hhi.
  rewrite T0, T1, T2, T3, T4, T5, T6, T7, T8, T9, T10, T11, T12, T13, T14
    in Hlo, Hhi.
  rewrite T15 in Hlo.
  split; lra.
Qed.

(** [ln x] is within [d] of [-1] when [x] is close enough to [exp (-1)]. *)
Lemma ln_near_m1 : forall x d,
  0 < d -> 0 < x ->
  3678794412 / 10000000000 < x * (1 + d) ->
  x < 3678794411 / 10000000000 * (1 + d) ->
  -1 - d < ln x < -1 + d.
Proof.
  intros x d Hd Hx Hlo Hhi.
  destruct exp_m1_bounds as [Elo Ehi].
  assert (Hed : 1 + d < exp d) by (apply exp_ineq1; lra).
  assert (Hep : 0 < exp (-1)) by apply exp_pos.
  split.
  - (* exp (-1 - d) < x *)
    rewrite <- (ln_exp (-1 - d)). apply ln_increasing; [apply exp_pos|].
    replace (-1 - d) with (-1 + - d) by ring.
    rewrite exp_plus, exp_Ropp.
    apply Rlt_le_trans with (exp (-1) * / (1 + d)).
    + apply Rmult_lt_compat_l; [assumption|].
      apply Rinv_lt_contravar; [|assumption].
      apply Rmult_lt_0_compat; [lra|apply exp_pos].
    + apply Rle_trans with (3678794412 / 10000000000 * / (1 + d)).
      * apply Rmult_le_compat_r; [|assumption].
        left. apply Rinv_0_lt_compat. lra.
      * apply Rmult_le_reg_r with (1 + d); [lra|].
        rewrite Rmult_assoc, Rinv_l by lra. lra.
  - rewrite <- (ln_exp (-1 + d)). apply ln_increasing; [assumption|].
    rewrite exp_plus.
    apply Rlt_le_trans with (3678794411 / 10000000000 * (1 + d)); [assumption|].
    apply Rle_trans with (exp (-1) * (1 + d)).
    + apply Rmult_le_compat_r; lra.
    + apply Rmult_le_compat_l; lra.
Qed.

(* ====================================================================== *)
(** * The random variates *)
(* ====================================================================== *)

Lemma ln_half_neq_0 : ln (1 / 2) <> 0.
Proof.
  assert (H : ln (1 / 2) < 0) by (apply ln_neg; lra). lra.
Qed.

Lemma geometric_half_half :
  fst (geometric (1 / 2) (const_source (1 / 2))) = Ok 1%Z.
Proof.
  unfold geometric, const_source, next_draw. simpl.
  replace (fle (1 / 2) 0) with false by (symmetry; apply fle_false; lra).
  replace (1 - 1 / 2) with (1 / 2) by lra.
  rewrite math_log_pos by lra.
  rewrite feq_false by apply ln_half_neq_0.
  simpl. f_equal.
  replace (ln (1 / 2) / ln (1 / 2)) with 1
    by (field; apply ln_half_neq_0).
  rewrite py_int_floor by lra.
  apply Int_part_unique. simpl. lra.
Qed.

(** C8, counterexample: [geometric(0.5)] at the draw [u = 0.5] does not
    raise; it returns 1. *)
Lemma geometric_does_not_raise :
  fst (geometric (1 / 2) (const_source (1 / 2))) = Ok 1%Z /\
  ~ (exists e, fst (geometric (1 / 2) (const_source (1 / 2))) = Raise e).
Proof.
  split.
  - apply geometric_half_half.
  - intros [e He]. rewrite geometric_half_half in He. discriminate.
Qed.

(** C8, amended: [pascal], [binomial] and [normal] raise
    [NotImplementedError] on every call and return no value.  [geometric] is
    implemented: it raises [ValueError] when [l <= 0], before any draw, and
    for [l > 0], [l <> 1] and a draw [u < 1] it returns
    [int(ln(1 - u) / ln(l))]. *)
Theorem unimplemented_variates_raise :
  forall (n p mean stddev l : R) (tok : Source),
    pascal n p = Raise NotImplementedError /\
    binomial n p = Raise NotImplementedError /\
    normal mean stddev = Raise NotImplementedError /\
    (l <= 0 -> geometric l tok = (Raise ValueError, tok)) /\
    (0 < l -> l <> 1 -> peek tok < 1 ->
     fst (geometric l tok) = Ok (py_int (ln (1 - peek tok) / ln l))).
Proof.
  intros n p mean stddev l tok.
  repeat split; try reflexivity.
  - intro Hl. unfold geometric.
    replace (fle l 0) with true by (symmetry; apply fle_true; exact Hl).
    reflexivity.
  - intros Hl Hl1 Hu. unfold geometric, next_draw. fold (peek tok).
    replace (fle l 0) with false by (symmetry; apply fle_false; exact Hl).
    rewrite math_log_pos by lra.
    rewrite math_log_pos by exact Hl.
    rewrite feq_false; [reflexivity|].
    intro H0. apply Hl1.
    rewrite <- (exp_ln l Hl), H0. apply exp_0.
Qed.

Lemma unimplemented_variates_raise_witness :
  geometric 0 (const_source (1 / 2)) = (Raise ValueError, const_source (1 / 2)) /\
  fst (geometric 2 (const_source (1 / 2)))
  = Ok (py_int (ln (1 - peek (const_source (1 / 2))) / ln 2)).
Proof.
  destruct (unimplemented_variates_raise 0 0 0 0 0 (const_source (1 / 2)))
    as (_ & _ & _ & H0 & _).
  destruct (unimplemented_variates_raise 0 0 0 0 2 (const_source (1 / 2)))
    as (_ & _ & _ & _ & H2).
  split.
  - apply H0. lra.
  - apply H2; [lra | lra | unfold peek, const_source; simpl; lra].
Defined.

(** C9: for a draw [u] in (0,1), [bernouli(p)] is true exactly when
    [u >= 1 - p]; [uniform(a, b)] is [a + (b - a) u]; [equilikely(a, b)] is
    [a + floor((b - a + 1) u)] on a range that is not reversed;
    [exponential(mean)] is [- mean ln(1 - u)] for a mean above 0.  With the
    literal inputs: [uniform(10, 20)] at 0.5 is 15, [equilikely(1, 6)] at
    0.999 is 6, [bernouli(0.25)] is true at 0.80 and false at 0.70, and
    [exponential(10)] at 0.6321205588 is within 1e-8 of 10. *)
Theorem variate_formulas :
  forall (tok : Source) (u : R),
    peek tok = u -> 0 < u < 1 ->
    (forall p, fst (bernouli p tok) = true <-> u >= 1 - p) /\
    (forall a b, fst (uniform a b tok) = a + (b - a) * u) /\
    (forall a b, (a <= b + 1)%Z ->
       fst (equilikely a b tok) = (a + Int_part (IZR (b - a + 1) * u))%Z) /\
    (forall mean, 0 < mean ->
       fst (exponential mean tok) = Ok (- mean * ln (1 - u))) /\
    fst (uniform 10 20 (const_source (1 / 2))) = 15 /\
    fst (equilikely 1 6 (const_source (999 / 1000))) = 6%Z /\
    fst (bernouli (1 / 4) (const_source (80 / 100))) = true /\
    fst (bernouli (1 / 4) (const_source (70 / 100))) = false /\
    (exists x,
       fst (exponential 10 (const_source (6321205588 / 10000000000))) = Ok x /\
       Rabs (x - 10) < 1 / 100000000).
Proof.
  intros tok u Hpeek Hu.
  repeat split.
  - unfold bernouli, next_draw. fold (peek tok). rewrite Hpeek. simpl.
    intro H. apply fle_true in H. lra.
  - unfold bernouli, next_draw. fold (peek tok). rewrite Hpeek. simpl.
    intro H. apply fle_true. lra.
  - intros a b. unfold uniform, next_draw. fold (peek tok). rewrite Hpeek.
    reflexivity.
  - intros a b Hab. unfold equilikely, next_draw. fold (peek tok).
    rewrite Hpeek. simpl. f_equal. apply py_int_floor.
    apply Rmult_le_pos; [|lra].
    apply IZR_le. lia.
  - intros mean Hmean. unfold exponential, next_draw. fold (peek tok).
    rewrite Hpeek.
    replace (fle mean 0) with false by (symmetry; apply fle_false; exact Hmean).
    rewrite math_log_pos by lra. reflexivity.
  - unfold uniform, const_source, next_draw. simpl. lra.
  - unfold equilikely, const_source, next_draw. simpl.
    rewrite py_int_floor by lra.
    rewrite (Int_part_unique (6 * (999 / 1000)) 5) by lra. reflexivity.
  - unfold bernouli, const_source, next_draw. simpl. apply fle_true. lra.
  - unfold bernouli, const_source, next_draw. simpl. apply fle_false. lra.
  - exists (- 10 * ln (1 - 6321205588 / 10000000000)). split.
    + unfold exponential, const_source, next_draw. simpl.
      replace (fle 10 0) with false by (symmetry; apply fle_false; lra).
      rewrite math_log_pos by lra. reflexivity.
    + assert (H : -1 - 1 / 1000000000
                  < ln (1 - 6321205588 / 10000000000)
                  < -1 + 1 / 1000000000)
        by (apply ln_near_m1; lra).
      apply Rabs_def1; lra.
Qed.

Lemma variate_formulas_witness :
  fst (uniform 10 20 (const_source (1 / 2))) = 10 + (20 - 10) * (1 / 2) /\
  fst (exponential 10 (const_source (1 / 2))) = Ok (- 10 * ln (1 - 1 / 2)).
Proof.
  destruct (variate_formulas (const_source (1 / 2)) (1 / 2)) as (_ & Hu & _ & He & _).
  - reflexivity.
  - lra.
  - split; [apply Hu | apply He; lra].
Defined.

(* ====================================================================== *)
(** * The Welford accumulator *)
(* ====================================================================== *)

Lemma Rsum_app : forall xs ys, Rsum (xs ++ ys) = Rsum xs + Rsum ys.
Proof.
  induction xs as [|x xs IH]; intro ys; simpl.
  - ring.
  - rewrite IH. ring.
Qed.

Lemma sq_dev_app : forall m xs ys, sq_dev m (xs ++ ys) = sq_dev m xs + sq_dev m ys.
Proof.
  intros m xs ys. unfold sq_dev. rewrite map_app. apply Rsum_app.
Qed.

(** Moving the centre of the deviations from [a] to [b]. *)
Lemma sq_dev_shift : forall a b xs,
  sq_dev b xs
  = sq_dev a xs - 2 * (b - a) * (Rsum xs - INR (length xs) * a)
    + INR (length xs) * (b - a) ^ 2.
Proof.
  intros a b xs. unfold sq_dev.
  induction xs as [|x xs IH].
  - simpl. ring.
  - cbn [map Rsum fold_right length]. fold (Rsum (map (fun y => (y - b) ^ 2) xs)).
    fold (Rsum (map (fun y => (y - a) ^ 2) xs)). fold (Rsum xs).
    rewrite IH, S_INR. ring.
Qed.

Lemma Welford_inserts_snoc : forall w xs x,
  Welford_inserts w (xs ++ [x]) = Welford_insert (Welford_inserts w xs) x.
Proof.
  intros w xs x. unfold Welford_inserts. rewrite fold_left_app. reflexivity.
Qed.

Lemma Welford_insert_fields : forall w x,
  w_i (Welford_insert w x) = S (w_i w) /\
  w_avg (Welford_insert w x) = w_avg w + (x - w_avg w) / INR (S (w_i w)) /\
  w_var (Welford_insert w x)
  = w_var w + INR (w_i w) * (x - w_avg w) ^ 2 / INR (S (w_i w)).
Proof.
  intros w x. unfold Welford_insert. cbn [w_i w_avg w_var].
  replace (S (w_i w) - 1)%nat with (w_i w) by lia.
  repeat split.
Qed.

Lemma Welford_tracks_init : forall name, Welford_tracks (Welford_init name) [].
Proof.
  intro name. unfold Welford_tracks, Welford_init, sq_dev. simpl.
  repeat split; ring.
Qed.

Lemma Welford_tracks_insert : forall w xs x,
  Welford_tracks w xs -> Welford_tracks (Welford_insert w x) (xs ++ [x]).
Proof.
  intros w xs x (Hi & Havg & Hvar).
  destruct (Welford_insert_fields w x) as (Ei & Eavg & Evar).
  assert (Hn : INR (S (length xs)) <> 0) by (apply not_0_INR; discriminate).
  rewrite S_INR in Hn.
  unfold Welford_tracks. rewrite Ei, Eavg, Evar, Hi.
  rewrite length_app, Rsum_app, sq_dev_app. cbn [length].
  replace (length xs + 1)%nat with (S (length xs)) by lia.
  rewrite S_INR.
  split; [reflexivity|]. split.
  - unfold Rsum at 2. cbn [fold_right]. rewrite <- Havg. field. exact Hn.
  - rewrite (sq_dev_shift (w_avg w) _ xs), <- Havg, Hvar.
    unfold sq_dev at 3. cbn [map Rsum fold_right].
    field. exact Hn.
Qed.

Lemma Welford_tracks_inserts : forall name xs,
  Welford_tracks (Welford_inserts (Welford_init name) xs) xs.
Proof.
  intros name xs. induction xs as [|x xs IH] using rev_ind.
  - apply Welford_tracks_init.
  - rewrite Welford_inserts_snoc. apply Welford_tracks_insert. exact IH.
Qed.

(** C5: each insertion follows the recurrence [n <- n + 1],
    [mean <- mean + (x - mean) / n], [M2 <- M2 + (n - 1) (x - mean)^2 / n]
    with the mean of before the update; [variance()] is [M2 / n] for
    [n > 0] and 0 for [n = 0]; after any sequence of samples the mean is
    their arithmetic mean and the variance is their population variance;
    the variance is 0 after no sample and after one sample. *)
Theorem Welford_matches_closed_form :
  forall (name : string) (xs : list R),
    let w := Welford_inserts (Welford_init name) xs in
    (forall w0 x,
        w_i (Welford_insert w0 x) = S (w_i w0) /\
        w_avg (Welford_insert w0 x)
        = w_avg w0 + (x - w_avg w0) / INR (S (w_i w0)) /\
        w_var (Welford_insert w0 x)
        = w_var w0 + INR (S (w_i w0) - 1) * (x - w_avg w0) ^ 2 / INR (S (w_i w0))) /\
    (forall w0, (0 < w_i w0)%nat -> Welford_variance w0 = w_var w0 / INR (w_i w0)) /\
    (forall w0, w_i w0 = 0%nat -> Welford_variance w0 = 0) /\
    w_i w = length xs /\
    (xs <> [] ->
     Welford_mean w = arithmetic_mean xs /\
     Welford_variance w = population_variance xs) /\
    ((length xs <= 1)%nat -> Welford_variance w = 0).
Proof.
  intros name xs w.
  destruct (Welford_tracks_inserts name xs) as (Hi & Havg & Hvar).
  fold w in Hi, Havg, Hvar. clearbody w.
  split; [|split; [|split; [|split; [|split]]]].
  - intros w0 x. replace (S (w_i w0) - 1)%nat with (w_i w0) by lia.
    apply Welford_insert_fields.
  - intros w0 H0. unfold Welford_variance.
    apply Nat.ltb_lt in H0. rewrite H0. reflexivity.
  - intros w0 H0. unfold Welford_variance. rewrite H0. reflexivity.
  - exact Hi.
  - intro Hne.
    assert (Hlen : (0 < length xs)%nat)
      by (destruct xs; [contradiction|simpl; lia]).
    assert (Hn : INR (length xs) <> 0) by (apply not_0_INR; lia).
    assert (Hmean : w_avg w = arithmetic_mean xs).
    { unfold arithmetic_mean. rewrite <- Havg. field. exact Hn. }
    split.
    + exact Hmean.
    + unfold Welford_variance, population_variance, sq_dev in *.
      rewrite Hi. apply Nat.ltb_lt in Hlen. rewrite Hlen.
      rewrite Hvar, Hmean. reflexivity.
  - intro Hle. unfold Welford_variance. rewrite Hi.
    destruct xs as [|x [|y xs]]; simpl in Hle; try lia.
    + reflexivity.
    + simpl. rewrite Hvar. unfold sq_dev. simpl.
      simpl in Havg. replace (w_avg w) with x by lra. field.
Qed.

Lemma Welford_matches_closed_form_witness :
  Welford_mean (Welford_inserts (Welford_init "Ped Delay") [2; 4])
  = arithmetic_mean [2; 4] /\
  Welford_variance (Welford_inserts (Welford_init "Ped Delay") [2; 4])
  = population_variance [2; 4] /\
  Welford_variance (Welford_inserts (Welford_init "Ped Delay") [2]) = 0.
Proof.
  destruct (Welford_matches_closed_form "Ped Delay" [2; 4])
    as (_ & _ & _ & _ & H & _).
  destruct (Welford_matches_closed_form "Ped Delay" [2])
    as (_ & _ & _ & _ & _ & H1).
  destruct H as [Hm Hv]; [discriminate|].
  split; [exact Hm|]. split; [exact Hv|].
  apply H1. simpl. lia.
Defined.

(* ====================================================================== *)
(** * The car manager: light changes *)
(* ====================================================================== *)

Lemma nth_error_middle : forall (A : Type) (l1 : list A) (a : A) (l2 : list A),
  nth_error (l1 ++ a :: l2) (length l1) = Some a.
Proof.
  intros A l1 a l2. induction l1 as [|x l1 IH]; simpl; [reflexivity|exact IH].
Qed.

Lemma replace_at_middle : forall (A : Type) (l1 : list A) (a b : A) (l2 : list A),
  replace_at (length l1) b (l1 ++ a :: l2) = l1 ++ b :: l2.
Proof.
  intros A l1 a b l2. induction l1 as [|x l1 IH]; simpl; [reflexivity|].
  rewrite IH. reflexivity.
Qed.

Lemma removelast_snoc : forall (A : Type) (l : list A) (a : A),
  removelast (l ++ [a]) = l.
Proof.
  intros A l a. rewrite removelast_app by discriminate. simpl.
  apply app_nil_r.
Qed.

(** The YELLOW loop, from the car after [done]: every car that remains is
    marked when the test holds for it, and a line is logged for it. *)
Lemma lightchange_yellow_from_spec :
  forall (todo done : list Car) (s : Simulation) (l : list LogMsg),
    driving s = done ++ todo ->
    sim_log s = Some l ->
    lightchange_yellow_from (length done) (length todo) s
    = (Ok tt,
       set_log (Some (l ++ yellow_lines (sim_time s) (before s) (after s) todo))
         (set_driving
            (done ++ map (yellow_mark (sim_time s) (before s) (after s)) todo) s)).
Proof.
  induction todo as [|car todo IH]; intros done s l Hd Hl.
  - simpl. unfold ret, yellow_lines. simpl. rewrite app_nil_r.
    destruct s as [t q mx np nc li pe [dr st to be af] pd cd ec te lp la pr ar br db lg].
    unfold driving in Hd. simpl in *. subst. rewrite app_nil_r. reflexivity.
  - cbn [length lightchange_yellow_from]. unfold bind at 1. unfold gets at 1.
    rewrite Hd, nth_error_middle.
    unfold bind at 1. unfold gets at 1.
    unfold bind at 1. unfold gets at 1.
    unfold bind at 1. unfold gets at 1.
    unfold bind at 1.
    fold (yellow_test (sim_time s) (before s) (after s) car).
    unfold yellow_lines, yellow_mark. cbn [map flat_map].
    fold (yellow_mark (sim_time s) (before s) (after s)).
    fold (yellow_lines (sim_time s) (before s) (after s) todo).
    destruct (yellow_test (sim_time s) (before s) (after s) car) eqn:Ht.
    + unfold bind at 1. unfold modify at 1. unfold log_append.
      cbn [sim_log set_driving set_cars]. rewrite Hl.
      rewrite Hd, replace_at_middle.
      replace (S (length done)) with (length (done ++ [set_shouldstop true car]))
        by (rewrite length_app; simpl; lia).
      rewrite (IH (done ++ [set_shouldstop true car]) _ (l ++ [LogCarShouldStop (car_id car)])).
      * f_equal. rewrite <- !app_assoc. reflexivity.
      * unfold driving. simpl. rewrite <- app_assoc. reflexivity.
      * reflexivity.
    + unfold ret at 1.
      replace (S (length done)) with (length (done ++ [car]))
        by (rewrite length_app; simpl; lia).
      rewrite (IH (done ++ [car]) s l).
      * rewrite <- !app_assoc. reflexivity.
      * rewrite Hd, <- app_assoc. reflexivity.
      * exact Hl.
Qed.

(** [lightchange(YELLOW)] on the whole list of driving cars. *)
Lemma lightchange_yellow_spec :
  forall (s : Simulation) (l : list LogMsg),
    sim_log s = Some l ->
    CarManager_lightchange YELLOW s
    = (Ok tt,
       set_log (Some (l ++ yellow_lines (sim_time s) (before s) (after s) (driving s)))
         (set_driving
            (map (yellow_mark (sim_time s) (before s) (after s)) (driving s)) s)).
Proof.
  intros s l Hl. unfold CarManager_lightchange, bind, gets.
  apply (lightchange_yellow_from_spec (driving s) [] s l); [reflexivity|exact Hl].
Qed.

(** The test holds for every car with a speed above 0, wherever the car is:
    the second value is above the first, and [before] is below [after]. *)
Lemma yellow_test_always : forall time before_ after_ car,
  0 < car_speed car -> before_ <= after_ ->
  yellow_test time before_ after_ car = true.
Proof.
  intros time before_ after_ car Hs Hba. unfold yellow_test.
  apply orb_true_iff.
  destruct (Rlt_dec (posa time car) after_) as [H|H].
  - left. apply flt_true. exact H.
  - right. apply flt_true.
    apply Rle_lt_trans with after_; [exact Hba|].
    apply Rle_lt_trans with (posa time car); [lra|].
    unfold posa, posb, REDTIMEOUT, YELLOWTIMEOUT.
    apply Rmult_lt_compat_r; [apply Rinv_0_lt_compat; exact Hs|lra].
Qed.


(** The GREEN loop: the stopped cars leave, last stopped first, each with
    its delay recorded and its line logged. *)
Lemma lightchange_green_loop_spec :
  forall (cars : list Car) (s : Simulation) (l : list LogMsg),
    stopped s = cars ->
    sim_log s = Some l ->
    lightchange_green_loop (length cars) s
    = (Ok tt,
       set_log (Some (l ++ map (release_line (total s) (sim_time s)) (rev cars)))
         (set_cardelay
            (Welford_inserts (sim_cardelay s)
               (map (release_delay (total s) (sim_time s)) (rev cars)))
            (set_stopped [] s))).
Proof.
  induction cars as [|car cars IH] using rev_ind; intros s l Hs Hl.
  - simpl. unfold ret. rewrite app_nil_r.
    destruct s as [t q mx np nc li pe [dr st to be af] pd cd ec te lp la pr ar br db lg].
    unfold stopped in Hs. simpl in *. subst. reflexivity.
  - rewrite length_app. cbn [length]. rewrite Nat.add_1_r.
    cbn [lightchange_green_loop]. unfold bind at 1. unfold gets at 1.
    rewrite Hs, rev_app_distr. cbn [rev app].
    unfold bind at 1. unfold modify at 1.
    unfold bind at 1. unfold gets at 1.
    unfold bind at 1. unfold gets at 1.
    unfold bind at 1. unfold modify at 1.
    unfold bind at 1. unfold log_append at 1.
    cbn [sim_log set_cardelay set_stopped set_cars]. rewrite Hl.
    rewrite Hs, removelast_snoc.
    erewrite IH; [|reflexivity|reflexivity].
    cbn [map]. unfold Welford_inserts. cbn [fold_left].
    rewrite <- app_assoc. reflexivity.
Qed.

Lemma lightchange_green_spec :
  forall (s : Simulation) (l : list LogMsg),
    sim_log s = Some l ->
    CarManager_lightchange GREEN s
    = (Ok tt,
       set_log (Some (l ++ map (release_line (total s) (sim_time s)) (rev (stopped s))))
         (set_cardelay
            (Welford_inserts (sim_cardelay s)
               (map (release_delay (total s) (sim_time s)) (rev (stopped s))))
            (set_stopped [] s))).
Proof.
  intros s l Hl. unfold CarManager_lightchange, bind, gets.
  apply lightchange_green_loop_spec; [reflexivity|exact Hl].
Qed.







(** C4, at a car that entered at time 0 and drives at 40 ft/s when the light
    turns yellow at time 32: the value computed for the end of yellow is the
    elapsed time divided by the speed, 1, and not the distance travelled,
    1600 ft, which is past the far side of the crosswalk (1314 ft); the car
    is marked should-stop. *)
Theorem yellow_position_is_a_quotient :
  posa (sim_time sim_car40) car40 = 1 /\
  posb (sim_time sim_car40) car40 = 58 / 40 /\
  car_speed car40 * (sim_time sim_car40 + YELLOWTIMEOUT - car_atime car40) = 1600 /\
  after sim_car40 = 1314 /\
  driving (snd (CarManager_lightchange YELLOW sim_car40))
  = [set_shouldstop true car40].
Proof.
  split; [|split; [|split; [|split]]].
  - unfold posa, sim_car40, car40, YELLOWTIMEOUT. simpl. field.
  - unfold posb, sim_car40, car40, YELLOWTIMEOUT, REDTIMEOUT. simpl. field.
  - unfold sim_car40, car40, YELLOWTIMEOUT. simpl. ring.
  - unfold after, sim_car40, Simulation_blank, BLOCKWIDTH, STREETWIDTH,
      CROSSWIDTH, LENGTH. simpl. field.
  - rewrite (lightchange_yellow_spec sim_car40 []) by reflexivity.
    cbn [snd]. unfold driving at 1. cbn [set_log set_driving set_cars sim_cars cars_driving].
    unfold sim_car40 at 4. unfold driving. cbn [set_driving set_cars sim_cars cars_driving map].
    unfold yellow_mark. rewrite yellow_test_always; [reflexivity| |].
    + unfold car40. simpl. lra.
    + unfold before, after, sim_car40, Simulation_blank, BLOCKWIDTH, STREETWIDTH,
        CROSSWIDTH, LENGTH. simpl. lra.
Qed.

(* ====================================================================== *)
(** * The trace reader *)
(* ====================================================================== *)

(** A line that holds no number, with PEP 479 in force: the [StopIteration]
    raised in the generator reaches [Token.next] as a [RuntimeError], which
    its [except StopIteration] clause lets through; nothing is printed. *)
Lemma Token_next_malformed :
  forall (float_of_str : string -> option R) (t : Token) (line : string)
         (rest : list string),
    tok_iter_done t = false ->
    tok_trace t = line :: rest ->
    float_of_str line = None ->
    Token_next float_of_str true t
    = (Raise RuntimeError,
       mkToken rest (tok_curval t) (tok_count t) true (tok_stdout t)).
Proof.
  intros float_of_str t line rest Hd Ht Hf.
  unfold Token_next, next_iter, Token_iterate. rewrite Hd, Ht, Hf.
  reflexivity.
Qed.

(** The same line without PEP 479 (Python 3.6 and before): the draw falls
    back to 0.0 and the diagnostic is printed. *)
Lemma Token_next_malformed_legacy :
  forall (float_of_str : string -> option R) (t : Token) (line : string)
         (rest : list string),
    tok_iter_done t = false ->
    tok_trace t = line :: rest ->
    float_of_str line = None ->
    Token_next float_of_str false t
    = (Ok 0,
       mkToken rest (tok_curval t) (tok_count t) true
         (tok_stdout t ++ [ReachedEnd (tok_count t)])).
Proof.
  intros float_of_str t line rest Hd Ht Hf.
  unfold Token_next, next_iter, Token_iterate. rewrite Hd, Ht, Hf.
  reflexivity.
Qed.

(** The end of the file: the generator returns, the draw falls back to 0.0
    and the diagnostic is printed, with or without PEP 479. *)
Lemma Token_next_end_of_file :
  forall (float_of_str : string -> option R) (gs : bool) (t : Token),
    tok_trace t = [] ->
    Token_next float_of_str gs t
    = (Ok 0,
       mkToken [] (tok_curval t) (tok_count t) true
         (tok_stdout t ++ [ReachedEnd (tok_count t)])).
Proof.
  intros float_of_str gs t Ht.
  unfold Token_next, next_iter, Token_iterate. rewrite Ht.
  destruct (tok_iter_done t) eqn:Hd.
  - destruct t as [tr cv ct dn out]. simpl in *. subst. reflexivity.
  - reflexivity.
Qed.

(** C7, on the trace file with the lines [12], [abc], [7]: the first draw
    is 12; the second draw, on the malformed line, ends in a [RuntimeError]
    that escapes from [Token.next], with no value returned and no
    diagnostic printed. *)
Theorem Token_next_malformed_line_escapes :
  let t0 := Token_init ["12"; "abc"; "7"]%string in
  let t1 := snd (Token_next decimal_of_str true t0) in
  let t2 := snd (Token_next decimal_of_str true t1) in
  fst (Token_next decimal_of_str true t0) = Ok 12 /\
  fst (Token_next decimal_of_str true t1) = Raise RuntimeError /\
  tok_stdout t2 = [] /\
  tok_count t2 = 1%nat.
Proof.
  cbv zeta.
  assert (H1 : Token_next decimal_of_str true (Token_init ["12"; "abc"; "7"]%string)
               = (Ok 12, mkToken ["abc"; "7"]%string 12 1 false [])).
  { unfold Token_next, next_iter, Token_iterate, Token_init.
    cbn [tok_iter_done tok_trace].
    replace (decimal_of_str "12") with (Some 12).
    - reflexivity.
    - unfold decimal_of_str.
      replace (digits_value 0 "12") with (Some 12%nat) by (vm_compute; reflexivity).
      f_equal. simpl. lra. }
  rewrite H1. cbn [fst snd].
  rewrite (Token_next_malformed decimal_of_str _ "abc"%string ["7"%string])
    by (vm_compute; reflexivity).
  cbn [fst snd tok_stdout tok_count]. repeat split.
Qed.

(* ====================================================================== *)
(** * The pedestrian manager: deploy *)
(* ====================================================================== *)

Lemma find_ped_head : forall p l, find_ped (ped_id p) (p :: l) = Some (O, p).
Proof.
  intros p l. simpl. rewrite Z.eqb_refl. reflexivity.
Qed.

(** The loop of [deploy] from [i = k] with [k] pedestrians already across:
    the first [MAXPEDS - k] pedestrians of the queue cross in order; when
    one more is waiting, it is taken out of the queue by [getped] and then
    refused by [cross]; the others stay, in order. *)
Lemma deploy_loop_spec :
  forall (w : list Ped) (k : nat) (s : Simulation) (l : list LogMsg),
    waiting s = w ->
    count s = k ->
    (k <= MAXPEDS)%nat ->
    sim_log s = Some l ->
    ids_apart w (walking s) ->
    deploy_loop (seq k (length w)) s
    = (Ok tt,
       set_log (Some (l ++ map (cross_line (sim_time s)) (firstn (MAXPEDS - k) w)))
         (set_peddelay
            (Welford_inserts (sim_peddelay s)
               (map (cross_delay (sim_time s)) (firstn (MAXPEDS - k) w)))
            (set_count (k + length (firstn (MAXPEDS - k) w))
               (set_waiting (skipn (S (MAXPEDS - k)) w) s)))).
Proof.
  induction w as [|p w IH]; intros k s l Hw Hk Hle Hl Hap.
  - simpl. unfold ret. rewrite firstn_nil. simpl. rewrite app_nil_r, Nat.add_0_r.
    destruct s as [t q mx np nc li [wk wt ct] ca pd cd ec te lp la pr ar br db lg].
    unfold waiting, count in *. simpl in *. subst. reflexivity.
  - cbn [length seq deploy_loop].
    unfold bind at 1. unfold gets at 1.
    unfold bind at 1. unfold gets at 1.
    rewrite Hw, Hk.
    replace (Z.of_nat k - Z.of_nat k)%Z with 0%Z by lia.
    unfold bind at 1. unfold lift at 1. unfold py_getitem. cbn [length].
    replace ((0 <? 0)%Z) with false by reflexivity.
    replace ((0 <=? 0)%Z && (0 <? Z.of_nat (S (length w)))%Z)%bool with true
      by (symmetry; apply andb_true_iff; split;
          [reflexivity | apply Z.ltb_lt; lia]).
    cbn [Z.to_nat nth_error].
    unfold bind at 1. unfold try_except.
    unfold bind at 1. unfold PedManager_getped.
    rewrite (Hap p (or_introl eq_refl)), Hw, find_ped_head.
    cbn [remove_at].
    unfold bind at 1. unfold PedManager_cross.
    unfold bind at 1. unfold gets at 1.
    replace (count (set_waiting w s)) with k by (symmetry; exact Hk).
    destruct (k <? MAXPEDS)%nat eqn:Hlt.
    + apply Nat.ltb_lt in Hlt.
      unfold bind at 1. unfold gets at 1.
      unfold bind at 1. unfold modify at 1.
      unfold bind at 1. unfold modify at 1.
      unfold log_append.
      cbn [sim_log set_peddelay set_count set_waiting set_peds]. rewrite Hl.
      unfold ret at 1. cbn [exn_eqb].
      rewrite (IH (S k) _ (l ++ [cross_line (sim_time s) p]));
        [| reflexivity | reflexivity | lia | reflexivity
         | intros q Hq; apply (Hap q); right; exact Hq].
      replace (MAXPEDS - k)%nat with (S (MAXPEDS - S k)) by lia.
      cbn [firstn skipn map length]. unfold Welford_inserts. cbn [fold_left].
      rewrite <- app_assoc. cbn [app].
      replace (k + S (length (firstn (MAXPEDS - S k) w)))%nat
        with (S k + length (firstn (MAXPEDS - S k) w))%nat by lia.
      reflexivity.
    + apply Nat.ltb_ge in Hlt.
      unfold raise at 1. cbn [exn_eqb]. unfold ret at 1. unfold ret at 1.
      replace (MAXPEDS - k)%nat with 0%nat by lia.
      cbn [firstn skipn map length]. rewrite app_nil_r, Nat.add_0_r.
      unfold Welford_inserts. cbn [fold_left].
      destruct s as [t q mx np nc li [wk wt ct] ca pd cd ec te lp la pr ar br db lg].
      unfold waiting, count in *. simpl in *. subst. reflexivity.
Qed.

(** [deploy()], when no waiting pedestrian shares its id with a walking
    one, as in every run. *)
Lemma deploy_spec :
  forall (s : Simulation) (l : list LogMsg),
    sim_log s = Some l ->
    ids_apart (waiting s) (walking s) ->
    PedManager_deploy s
    = (Ok tt,
       set_log (Some (l ++ map (cross_line (sim_time s)) (firstn MAXPEDS (waiting s))))
         (set_peddelay
            (Welford_inserts (sim_peddelay s)
               (map (cross_delay (sim_time s)) (firstn MAXPEDS (waiting s))))
            (set_count (length (firstn MAXPEDS (waiting s)))
               (set_waiting (skipn (S MAXPEDS) (waiting s)) s)))).
Proof.
  intros s l Hl Hap. unfold PedManager_deploy.
  unfold bind at 1. unfold modify at 1.
  unfold bind at 1. unfold gets at 1.
  replace (waiting (set_count 0 s)) with (waiting s) by reflexivity.
  rewrite (deploy_loop_spec (waiting s) 0 (set_count 0 s) l);
    [| reflexivity | reflexivity | unfold MAXPEDS; lia | exact Hl | exact Hap].
  rewrite Nat.sub_0_r. reflexivity.
Qed.

(** In [deploy] at most [MAXPEDS] pedestrians cross, and they are the first
    of the queue. *)
Lemma deploy_crosses_at_most_MAXPEDS :
  forall (s : Simulation) (l : list LogMsg),
    sim_log s = Some l ->
    ids_apart (waiting s) (walking s) ->
    (count (snd (PedManager_deploy s)) <= MAXPEDS)%nat /\
    count (snd (PedManager_deploy s)) = Nat.min MAXPEDS (length (waiting s)).
Proof.
  intros s l Hl Hap. rewrite (deploy_spec s l Hl Hap). cbn [snd].
  unfold count. cbn [set_log set_peddelay set_count set_peds sim_peds peds_count].
  rewrite length_firstn. split; [apply Nat.le_min_l|reflexivity].
Qed.

(** C1, with 22 pedestrians waiting when the light turns red: pedestrians 1
    to 20 cross; pedestrian 21 is beyond the capacity and does not cross,
    yet it is taken out of the waiting queue, and it is not walking either;
    only pedestrian 22 remains for the next red phase. *)
Theorem deploy_drops_pedestrian_over_capacity :
  let s' := snd (PedManager_deploy sim_queue22) in
  fst (PedManager_deploy sim_queue22) = Ok tt /\
  count s' = 20%nat /\
  w_i (sim_peddelay s') = 20%nat /\
  sim_log s' = Some (map (cross_line 500) (peds_from 0 20)) /\
  waiting s' = [ped3 22] /\
  walking s' = [] /\
  In (ped3 21) (waiting sim_queue22) /\
  ~ In (ped3 21) (waiting s').
Proof.
  assert (E : PedManager_deploy sim_queue22
              = (Ok tt,
                 set_log (Some ([] ++ map (cross_line (sim_time sim_queue22))
                                   (firstn MAXPEDS (waiting sim_queue22))))
                   (set_peddelay
                      (Welford_inserts (sim_peddelay sim_queue22)
                         (map (cross_delay (sim_time sim_queue22))
                            (firstn MAXPEDS (waiting sim_queue22))))
                      (set_count (length (firstn MAXPEDS (waiting sim_queue22)))
                         (set_waiting (skipn (S MAXPEDS) (waiting sim_queue22))
                            sim_queue22))))).
  { apply deploy_spec; [reflexivity|]. intros p _. reflexivity. }
  cbv zeta. rewrite E. cbn [fst snd].
  split; [reflexivity|].
  split; [reflexivity|].
  split; [reflexivity|].
  split; [reflexivity|].
  split; [reflexivity|].
  split; [reflexivity|].
  split.
  - unfold sim_queue22, waiting. cbn. tauto.
  - unfold sim_queue22, waiting. cbn. intros [H|[]].
    apply (f_equal ped_id) in H. cbn in H. discriminate.
Qed.

(* ====================================================================== *)
(** * The light controller *)
(* ====================================================================== *)

Section LightFacts.

Context {hq : Heapq}.

(** [press()] while GREEN: the light turns YELLOW, the driving cars are
    examined, and one timer event is pushed at [time + YELLOWTIMEOUT]. *)
Lemma Light_press_green :
  forall (s : Simulation) (l : list LogMsg),
    state s = GREEN ->
    sim_log s = Some l ->
    Light_press s
    = (Ok tt,
       set_totalevents (S (sim_totalevents s))
         (set_queue (heappush (sim_queue s) (timer_event (sim_time s) YELLOWTIMEOUT))
            (set_log (Some ((l ++ [LogYellow])
                            ++ yellow_lines (sim_time s) (before s) (after s) (driving s)))
               (set_driving
                  (map (yellow_mark (sim_time s) (before s) (after s)) (driving s))
                  (set_state YELLOW s))))).
Proof.
  intros s l Hs Hl. unfold Light_press.
  unfold bind at 1. unfold gets at 1. rewrite Hs.
  unfold bind at 1. unfold modify at 1.
  unfold bind at 1. unfold log_append at 1.
  cbn [sim_log set_state set_light]. rewrite Hl.
  unfold bind at 1.
  rewrite (lightchange_yellow_spec _ (l ++ [LogYellow])) by reflexivity.
  reflexivity.
Qed.

(** The timer expiry while YELLOW, in the script, where the name [sim] is
    the simulation that owns the light. *)
Lemma Light_timer_yellow_this :
  forall (s : Simulation) (l : list LogMsg),
    state s = YELLOW ->
    sim_log s = Some l ->
    ids_apart (waiting s) (walking s) ->
    Light_timer SimIsThis s
    = (Ok tt,
       set_totalevents (S (sim_totalevents s))
         (set_queue (heappush (sim_queue s) (timer_event (sim_time s) REDTIMEOUT))
            (set_log (Some ((l ++ [LogRed])
                            ++ map (cross_line (sim_time s)) (firstn MAXPEDS (waiting s))))
               (set_peddelay
                  (Welford_inserts (sim_peddelay s)
                     (map (cross_delay (sim_time s)) (firstn MAXPEDS (waiting s))))
                  (set_count (length (firstn MAXPEDS (waiting s)))
                     (set_waiting (skipn (S MAXPEDS) (waiting s))
                        (set_walkexpire (sim_time s + REDTIMEOUT)
                           (set_state RED s)))))))).
Proof.
  intros s l Hs Hl Hap. unfold Light_timer.
  unfold bind at 1. unfold gets at 1. rewrite Hs.
  unfold bind at 1. unfold modify at 1.
  unfold bind at 1. unfold log_append at 1.
  cbn [sim_log set_state set_light]. rewrite Hl.
  unfold bind at 1. unfold global_sim_time. unfold gets at 1.
  unfold bind at 1. unfold modify at 1.
  unfold bind at 1.
  rewrite (deploy_spec _ (l ++ [LogRed])); [reflexivity|reflexivity|exact Hap].
Qed.

(** The same expiry when the name [sim] is unbound: [NameError], after the
    state has turned RED; no deploy, no red timer. *)
Lemma Light_timer_yellow_unbound :
  forall (s : Simulation) (l : list LogMsg),
    state s = YELLOW ->
    sim_log s = Some l ->
    Light_timer SimUnbound s
    = (Raise NameError, set_log (Some (l ++ [LogRed])) (set_state RED s)).
Proof.
  intros s l Hs Hl. unfold Light_timer.
  unfold bind at 1. unfold gets at 1. rewrite Hs.
  unfold bind at 1. unfold modify at 1.
  unfold bind at 1. unfold log_append at 1.
  cbn [sim_log set_state set_light]. rewrite Hl.
  reflexivity.
Qed.

(** The same expiry when the name [sim] is another simulation: the deadline
    is counted from the clock of that one. *)
Lemma Light_timer_yellow_other :
  forall (s : Simulation) (l : list LogMsg) (t : R),
    state s = YELLOW ->
    sim_log s = Some l ->
    ids_apart (waiting s) (walking s) ->
    Light_timer (SimIsOther t) s
    = (Ok tt,
       set_totalevents (S (sim_totalevents s))
         (set_queue (heappush (sim_queue s) (timer_event (sim_time s) REDTIMEOUT))
            (set_log (Some ((l ++ [LogRed])
                            ++ map (cross_line (sim_time s)) (firstn MAXPEDS (waiting s))))
               (set_peddelay
                  (Welford_inserts (sim_peddelay s)
                     (map (cross_delay (sim_time s)) (firstn MAXPEDS (waiting s))))
                  (set_count (length (firstn MAXPEDS (waiting s)))
                     (set_waiting (skipn (S MAXPEDS) (waiting s))
                        (set_walkexpire (t + REDTIMEOUT)
                           (set_state RED s)))))))).
Proof.
  intros s l t Hs Hl Hap. unfold Light_timer.
  unfold bind at 1. unfold gets at 1. rewrite Hs.
  unfold bind at 1. unfold modify at 1.
  unfold bind at 1. unfold log_append at 1.
  cbn [sim_log set_state set_light]. rewrite Hl.
  unfold bind at 1. unfold global_sim_time. unfold ret at 1.
  unfold bind at 1. unfold modify at 1.
  unfold bind at 1.
  rewrite (deploy_spec _ (l ++ [LogRed])); [reflexivity|reflexivity|exact Hap].
Qed.

End LightFacts.

(** C2, on a light that is GREEN in a simulation whose clock reads 5, with
    the heap kept as a sorted list.  [press()] gives YELLOW and one pending
    timer, at [5 + YELLOWTIMEOUT].  At its expiry the deadline is read from
    the module-level name [sim], not from the simulation that owns the
    light: with the name unbound the handler stops on [NameError] after
    turning RED, and neither deploys nor schedules the red timer; with the
    name bound to a simulation whose clock reads 100 the deadline is
    [100 + REDTIMEOUT], not [13 + REDTIMEOUT]. *)
Theorem walk_expiry_reads_the_global_sim :
  let s1 := snd (Light_press (hq := sorted_heapq) sim_green5) in
  let s2 := snd (Simulation_next (hq := sorted_heapq) SimUnbound s1) in
  let s3 := snd (Simulation_next (hq := sorted_heapq) (SimIsOther 100) s1) in
  fst (Light_press (hq := sorted_heapq) sim_green5) = Ok tt /\
  state s1 = YELLOW /\
  sim_queue s1 = [timer_event 5 YELLOWTIMEOUT] /\
  fst (Simulation_next (hq := sorted_heapq) SimUnbound s1) = Raise NameError /\
  state s2 = RED /\
  sim_queue s2 = [] /\
  walkexpire s2 = 0 /\
  fst (Simulation_next (hq := sorted_heapq) (SimIsOther 100) s1) = Ok tt /\
  state s3 = RED /\
  sim_time s3 = 5 + YELLOWTIMEOUT /\
  sim_queue s3 = [timer_event (5 + YELLOWTIMEOUT) REDTIMEOUT] /\
  walkexpire s3 = 100 + REDTIMEOUT /\
  walkexpire s3 <> sim_time s3 + REDTIMEOUT.
Proof.
  cbv zeta.
  split; [reflexivity|].
  split; [reflexivity|].
  split; [reflexivity|].
  split; [reflexivity|].
  split; [reflexivity|].
  split; [reflexivity|].
  split; [reflexivity|].
  split; [reflexivity|].
  split; [reflexivity|].
  split; [reflexivity|].
  split; [reflexivity|].
  split; [reflexivity|].
  assert (E : walkexpire (snd (Simulation_next (hq := sorted_heapq) (SimIsOther 100)
                                 (snd (Light_press (hq := sorted_heapq) sim_green5))))
              = 100 + REDTIMEOUT) by reflexivity.
  assert (T : sim_time (snd (Simulation_next (hq := sorted_heapq) (SimIsOther 100)
                               (snd (Light_press (hq := sorted_heapq) sim_green5))))
              = 5 + YELLOWTIMEOUT) by reflexivity.
  rewrite E, T. unfold REDTIMEOUT, YELLOWTIMEOUT. lra.
Qed.

(* ====================================================================== *)
(** * Rules for properties that every step of a method keeps *)
(* ====================================================================== *)

Section KeepsRules.

Context {A B : Type}.
Variable I : Simulation -> Prop.

Lemma keeps_ret : forall (a : A) (Q : A -> Prop), Q a -> keeps I (ret a) Q.
Proof.
  intros a Q HQ s Hs. unfold ret. simpl. split; [exact Hs|].
  intros a' E. inversion E. subst. exact HQ.
Qed.

Lemma keeps_raise : forall (e : exn) (Q : A -> Prop), keeps I (raise e) Q.
Proof.
  intros e Q s Hs. unfold raise. simpl. split; [exact Hs|].
  intros a' E. discriminate.
Qed.

Lemma keeps_lift : forall (r : result A) (Q : A -> Prop),
  (forall a, r = Ok a -> Q a) -> keeps I (lift r) Q.
Proof.
  intros r Q HQ s Hs. unfold lift. simpl. split; [exact Hs|exact HQ].
Qed.

Lemma keeps_gets : forall (f : Simulation -> A) (Q : A -> Prop),
  (forall s, I s -> Q (f s)) -> keeps I (gets f) Q.
Proof.
  intros f Q HQ s Hs. unfold gets. simpl. split; [exact Hs|].
  intros a E. inversion E. subst. apply HQ. exact Hs.
Qed.

Lemma keeps_bind : forall (m : M A) (k : A -> M B) (Q1 : A -> Prop) (Q2 : B -> Prop),
  keeps I m Q1 ->
  (forall a, Q1 a -> keeps I (k a) Q2) ->
  keeps I (bind m k) Q2.
Proof.
  intros m k Q1 Q2 Hm Hk s Hs. unfold bind.
  destruct (Hm s Hs) as [H1 H2].
  destruct (m s) as [[a|e] s1]; simpl in *.
  - apply (Hk a (H2 a eq_refl) s1 H1).
  - split; [exact H1|]. intros b E. discriminate.
Qed.

Lemma keeps_weaken : forall (m : M A) (Q Q' : A -> Prop),
  keeps I m Q -> (forall a, Q a -> Q' a) -> keeps I m Q'.
Proof.
  intros m Q Q' Hm HQ s Hs. destruct (Hm s Hs) as [H1 H2].
  split; [exact H1|]. intros a E. apply HQ, H2, E.
Qed.

Lemma keeps_try_except : forall (m h : M A) (e : exn) (Q : A -> Prop),
  keeps I m Q -> keeps I h Q -> keeps I (try_except m e h) Q.
Proof.
  intros m h e Q Hm Hh s Hs. unfold try_except.
  destruct (Hm s Hs) as [H1 H2].
  destruct (m s) as [[a|e'] s1]; simpl in *.
  - split; [exact H1|exact H2].
  - destruct (exn_eqb e' e).
    + apply (Hh s1 H1).
    + split; [exact H1|]. intros a E. discriminate.
Qed.

End KeepsRules.

Lemma keeps_modify : forall (I : Simulation -> Prop) (f : Simulation -> Simulation),
  (forall s, I s -> I (f s)) -> keeps I (modify f) anything.
Proof.
  intros I f Hf s Hs. unfold modify. simpl. split; [apply Hf; exact Hs|].
  intros a _. exact Logic.I.
Qed.

Lemma keeps_log_append : forall (I : Simulation -> Prop) (line : LogMsg),
  (forall s l, I s -> I (set_log l s)) -> keeps I (log_append line) anything.
Proof.
  intros I line Hf s Hs. unfold log_append.
  destruct (sim_log s); simpl.
  - split; [apply Hf; exact Hs|]. intros a _. exact Logic.I.
  - split; [exact Hs|]. intros a E. discriminate.
Qed.

Lemma Clock_inv_same_schedule : forall is_heap t s s',
  same_schedule s s' -> Clock_inv is_heap t s -> Clock_inv is_heap t s'.
Proof.
  intros is_heap t s s' (E1 & E2 & E3 & E4 & E5 & E6 & E7 & E8 & E9).
  unfold Clock_inv. rewrite E1, E2, E3, E4, E5, E6, E7, E8, E9. tauto.
Qed.

(** Projections of updated records. *)
Ltac proj_simpl :=
  cbn [sim_time sim_queue sim_maxn sim_npeds sim_ncars sim_light sim_peds
       sim_cars sim_peddelay sim_cardelay sim_eventcount sim_totalevents
       sim_lambdap sim_lambdaa sim_pedrandom sim_autorandom sim_buttonrandom
       sim_debug sim_log set_time set_queue set_npeds set_ncars set_light
       set_peds set_cars set_peddelay set_cardelay set_eventcount
       set_totalevents set_pedrandom set_autorandom set_buttonrandom set_log
       set_state set_walkexpire set_walking set_waiting set_count set_driving
       set_stopped light_state light_walkexpire peds_walking peds_waiting
       peds_count cars_driving cars_stopped cars_total cars_before cars_after
       fst snd].

Ltac proj_simpl_in H :=
  cbn [sim_time sim_queue sim_maxn sim_npeds sim_ncars sim_light sim_peds
       sim_cars sim_peddelay sim_cardelay sim_eventcount sim_totalevents
       sim_lambdap sim_lambdaa sim_pedrandom sim_autorandom sim_buttonrandom
       sim_debug sim_log set_time set_queue set_npeds set_ncars set_light
       set_peds set_cars set_peddelay set_cardelay set_eventcount
       set_totalevents set_pedrandom set_autorandom set_buttonrandom set_log
       set_state set_walkexpire set_walking set_waiting set_count set_driving
       set_stopped light_state light_walkexpire peds_walking peds_waiting
       peds_count cars_driving cars_stopped cars_total cars_before cars_after
       fst snd] in H.

Ltac same_schedule_tac :=
  unfold same_schedule, total, before; repeat split; reflexivity.

Lemma valid_draws_next : forall tok,
  valid_draws tok -> valid_draws (snd (next_draw tok)).
Proof.
  intros tok H k. apply H.
Qed.

Lemma valid_draws_peek : forall tok, valid_draws tok -> 0 < fst (next_draw tok) < 1.
Proof.
  intros tok H. apply H.
Qed.


(* ====================================================================== *)
(** * The clock and the queue *)
(* ====================================================================== *)

Section KeepsStrongest.

Context {A : Type}.
Variable I : Simulation -> Prop.

Lemma keeps_ret_eq : forall (a : A), keeps I (ret a) (eq a).
Proof.
  intro a. apply keeps_ret. reflexivity.
Qed.

Lemma keeps_gets_from : forall (f : Simulation -> A),
  keeps I (gets f) (fun a => exists s, I s /\ a = f s).
Proof.
  intro f. apply keeps_gets. intros s Hs. exists s. split; [exact Hs|reflexivity].
Qed.

Lemma keeps_lift_ok : forall (r : result A), keeps I (lift r) (fun a => r = Ok a).
Proof.
  intro r. apply keeps_lift. intros a E. exact E.
Qed.

End KeepsStrongest.

(** One step through the term of a method, for a goal [keeps I m Q]: [known]
    closes the calls for which a lemma exists, and [side] is tried on the
    conditions that the rules leave. *)
Ltac keeps_step side known :=
  first [ known |
  lazymatch goal with
  | |- keeps _ (bind _ _) _ =>
      eapply keeps_bind; [ | intros ? ? ]
  | |- keeps _ (ret _) ?Q =>
      first [ is_evar Q; apply keeps_ret_eq | apply keeps_ret; side ]
  | |- keeps _ (raise _) _ => apply keeps_raise
  | |- keeps _ (gets _) ?Q =>
      first [ is_evar Q; apply keeps_gets_from
            | eapply keeps_weaken; [apply keeps_gets_from | intros ? ?; side] ]
  | |- keeps _ (lift _) ?Q =>
      first [ is_evar Q; apply keeps_lift_ok
            | eapply keeps_weaken; [apply keeps_lift_ok | intros ? ?; side] ]
  | |- keeps _ (modify _) ?Q =>
      first [ is_evar Q; apply keeps_modify; side
            | eapply keeps_weaken;
              [apply keeps_modify; side | intros ? ?; exact Logic.I] ]
  | |- keeps _ (log_append _) ?Q =>
      first [ is_evar Q; apply keeps_log_append; side
            | eapply keeps_weaken;
              [apply keeps_log_append; side | intros ? ?; exact Logic.I] ]
  | |- keeps _ (try_except _ _ _) ?P =>
      first [ is_evar P; apply keeps_try_except with (Q := anything)
            | apply keeps_try_except ]
  | |- @keeps ?T _ (if ?b then _ else _) ?P =>
      try (is_evar P; unify P (@anything T)); destruct b eqn:?
  | |- @keeps ?T _ (match ?x with _ => _ end) ?P =>
      try (is_evar P; unify P (@anything T)); destruct x eqn:?
  end ].

Section ClockFacts.

Context {hq : Heapq}.
Variable is_heap : list Event -> Prop.
Hypothesis HS : HeapqSpec hq is_heap.
Variable t : R.

Local Abbreviation CI := (Clock_inv is_heap t).

Lemma CI_setter : forall f : Simulation -> Simulation,
  (forall s, same_schedule s (f s)) -> forall s, CI s -> CI (f s).
Proof.
  intros f Hf s Hs. apply (Clock_inv_same_schedule is_heap t s); [apply Hf|exact Hs].
Qed.

Lemma CI_set_log : forall s l, CI s -> CI (set_log l s).
Proof.
  intros s l. apply (CI_setter (set_log l)). intro s0. same_schedule_tac.
Qed.

Lemma keeps_on_pedrandom : forall (A : Type) (f : Source -> A * Source) (Q : A -> Prop),
  (forall tok, valid_draws tok -> valid_draws (snd (f tok)) /\ Q (fst (f tok))) ->
  keeps CI (on_pedrandom f) Q.
Proof.
  intros A f Q Hf s Hs. unfold on_pedrandom.
  destruct Hs as (E1 & E2 & E3 & E4 & E5 & E6 & E7 & E8 & E9 & E10).
  destruct (Hf _ E4) as [Hv HQ].
  destruct (f (sim_pedrandom s)) as [a tok]. cbn [fst snd] in *. split.
  - unfold Clock_inv, total, before in *. proj_simpl. tauto.
  - intros a' E. inversion E. subst. exact HQ.
Qed.

Lemma keeps_on_autorandom : forall (A : Type) (f : Source -> A * Source) (Q : A -> Prop),
  (forall tok, valid_draws tok -> valid_draws (snd (f tok)) /\ Q (fst (f tok))) ->
  keeps CI (on_autorandom f) Q.
Proof.
  intros A f Q Hf s Hs. unfold on_autorandom.
  destruct Hs as (E1 & E2 & E3 & E4 & E5 & E6 & E7 & E8 & E9 & E10).
  destruct (Hf _ E5) as [Hv HQ].
  destruct (f (sim_autorandom s)) as [a tok]. cbn [fst snd] in *. split.
  - unfold Clock_inv, total, before in *. proj_simpl. tauto.
  - intros a' E. inversion E. subst. exact HQ.
Qed.

Lemma keeps_on_buttonrandom : forall (A : Type) (f : Source -> A * Source) (Q : A -> Prop),
  (forall tok, valid_draws tok -> valid_draws (snd (f tok)) /\ Q (fst (f tok))) ->
  keeps CI (on_buttonrandom f) Q.
Proof.
  intros A f Q Hf s Hs. unfold on_buttonrandom.
  destruct Hs as (E1 & E2 & E3 & E4 & E5 & E6 & E7 & E8 & E9 & E10).
  destruct (Hf _ E6) as [Hv HQ].
  destruct (f (sim_buttonrandom s)) as [a tok]. cbn [fst snd] in *. split.
  - unfold Clock_inv, total, before in *. proj_simpl. tauto.
  - intros a' E. inversion E. subst. exact HQ.
Qed.

(** The draws of the variates that the simulation uses. *)
Lemma exponential_draw : forall l tok,
  0 < l -> valid_draws tok ->
  valid_draws (snd (exponential l tok)) /\
  exists d, fst (exponential l tok) = Ok d /\ 0 <= d.
Proof.
  intros l tok Hl Hv. unfold exponential, next_draw.
  replace (fle l 0) with false by (symmetry; apply fle_false; exact Hl).
  destruct (Hv (src_pos tok)) as [H0 H1].
  rewrite math_log_pos by lra. cbn [fst snd]. split.
  - intro k. apply Hv.
  - exists (- l * ln (1 - src_draws tok (src_pos tok))). split; [reflexivity|].
    assert (Hln : ln (1 - src_draws tok (src_pos tok)) < 0) by (apply ln_neg; lra).
    nra.
Qed.

Lemma uniform_draw : forall a b tok,
  a <= b -> valid_draws tok ->
  valid_draws (snd (uniform a b tok)) /\ a <= fst (uniform a b tok) <= b.
Proof.
  intros a b tok Hab Hv. unfold uniform, next_draw.
  destruct (Hv (src_pos tok)) as [H0 H1].
  cbn [fst snd]. split.
  - intro k. apply Hv.
  - nra.
Qed.

Lemma bernouli_draw : forall p tok,
  valid_draws tok -> valid_draws (snd (bernouli p tok)) /\ anything (fst (bernouli p tok)).
Proof.
  intros p tok Hv. unfold bernouli, next_draw. cbn [fst snd]. split.
  - intro k. apply Hv.
  - exact Logic.I.
Qed.

(** [insert] with a delay that is not negative. *)
Lemma keeps_Simulation_insert : forall delta type id,
  0 <= delta -> keeps CI (Simulation_insert delta type id) anything.
Proof.
  intros delta type id Hd s Hs. unfold Simulation_insert. cbn [fst snd].
  split; [|intros a _; exact Logic.I].
  destruct Hs as (E1 & E2 & E3 & E4 & E5 & E6 & E7 & E8 & E9 & E10).
  assert (H2 : is_heap (heappush (sim_queue s)
                          (mkEvent (sim_time s + delta) type id)))
    by (apply (heap_push hq is_heap HS); exact E2).
  assert (H3 : Forall (fun e => t <= ev_at e)
                 (heappush (sim_queue s) (mkEvent (sim_time s + delta) type id))).
  { apply (Permutation_Forall
             (Permutation_sym (heap_push_perm hq is_heap HS _ _ E2))).
    constructor; [cbn; lra|exact E3]. }
  unfold Clock_inv, total, before in *. proj_simpl. tauto.
Qed.



Ltac clock_side :=
  idtac;
  first
    [ exact Logic.I
    | solve [ intros; eapply Clock_inv_same_schedule;
              [ same_schedule_tac | eassumption ] ]
    | idtac ].

Ltac clock_walk := repeat (keeps_step clock_side fail).

(** The methods that do not touch the schedule. *)
Lemma keeps_lightchange_yellow_from : forall n k,
  keeps CI (lightchange_yellow_from k n) anything.
Proof.
  induction n as [|n IH]; intro k; cbn [lightchange_yellow_from].
  - clock_walk.
  - clock_walk. apply IH.
Qed.

Lemma keeps_lightchange_green_loop : forall n,
  keeps CI (lightchange_green_loop n) anything.
Proof.
  induction n as [|n IH]; cbn [lightchange_green_loop].
  - clock_walk.
  - clock_walk. apply IH.
Qed.

Lemma keeps_CarManager_lightchange : forall st,
  keeps CI (CarManager_lightchange st) anything.
Proof.
  intro st. unfold CarManager_lightchange. clock_walk.
  - apply keeps_lightchange_green_loop.
  - apply keeps_lightchange_yellow_from.
Qed.

Lemma keeps_CarManager_arrive : forall id, keeps CI (CarManager_arrive id) anything.
Proof.
  intro id. unfold CarManager_arrive. clock_walk.
Qed.

Lemma keeps_CarManager_exit : forall id, keeps CI (CarManager_exit id) anything.
Proof.
  intro id. unfold CarManager_exit. clock_walk.
Qed.

Lemma keeps_PedManager_getped : forall id popped,
  keeps CI (PedManager_getped id popped) anything.
Proof.
  intros id popped s Hs. unfold PedManager_getped.
  split; [|intros a _; exact Logic.I].
  destruct (find_ped id (walking s)) as [[i ped]|].
  - destruct popped; cbn [snd]; [|exact Hs].
    eapply Clock_inv_same_schedule; [|exact Hs]. same_schedule_tac.
  - destruct (find_ped id (waiting s)) as [[i ped]|]; [|exact Hs].
    destruct popped; cbn [snd]; [|exact Hs].
    eapply Clock_inv_same_schedule; [|exact Hs]. same_schedule_tac.
Qed.

Lemma keeps_PedManager_cross : forall ped, keeps CI (PedManager_cross ped) anything.
Proof.
  intro ped. unfold PedManager_cross. clock_walk.
Qed.

Lemma keeps_deploy_loop : forall idxs, keeps CI (deploy_loop idxs) anything.
Proof.
  induction idxs as [|i idxs IH]; cbn [deploy_loop].
  - clock_walk.
  - clock_walk.
    + apply keeps_PedManager_getped.
    + apply keeps_PedManager_cross.
    + apply IH.
Qed.

Lemma keeps_PedManager_deploy : keeps CI PedManager_deploy anything.
Proof.
  unfold PedManager_deploy. clock_walk. apply keeps_deploy_loop.
Qed.

(** The fixed durations are not negative. *)
Lemma keeps_insert_timer : forall d,
  d = YELLOWTIMEOUT \/ d = REDTIMEOUT \/ d = GREENTIMEOUT \/ d = 60 ->
  forall type id, keeps CI (Simulation_insert d type id) anything.
Proof.
  intros d Hd type id. apply keeps_Simulation_insert.
  unfold YELLOWTIMEOUT, REDTIMEOUT, GREENTIMEOUT in Hd.
  destruct Hd as [H|[H|[H|H]]]; lra.
Qed.

Lemma keeps_Light_press : keeps CI Light_press anything.
Proof.
  unfold Light_press. clock_walk.
  all: first [ apply keeps_CarManager_lightchange
             | apply keeps_insert_timer; tauto ].
Qed.

Lemma keeps_Light_timer : forall g, keeps CI (Light_timer g) anything.
Proof.
  intro g. unfold Light_timer, global_sim_time. clock_walk.
  all: first [ apply keeps_CarManager_lightchange
             | apply keeps_PedManager_deploy
             | apply keeps_insert_timer; tauto ].
Qed.

(** [PedManager.press], [arrive], [impatient], [spawn]. *)
Lemma keeps_PedManager_press : forall n id, keeps CI (PedManager_press n id) anything.
Proof.
  intros n id. unfold PedManager_press. clock_walk.
  all: first [ apply keeps_Light_press
             | apply keeps_on_buttonrandom; intros; apply bernouli_draw; assumption ].
Qed.

Lemma keeps_PedManager_arrive : forall id, keeps CI (PedManager_arrive id) anything.
Proof.
  intro id. unfold PedManager_arrive. clock_walk.
  all: first [ apply keeps_PedManager_getped
             | apply keeps_PedManager_cross
             | apply keeps_PedManager_press
             | apply keeps_insert_timer; tauto ].
Qed.

Lemma keeps_PedManager_impatient : forall id, keeps CI (PedManager_impatient id) anything.
Proof.
  intro id. unfold PedManager_impatient. clock_walk.
  all: first [ apply keeps_PedManager_getped
             | apply keeps_PedManager_press
             | apply keeps_insert_timer; tauto ].
Qed.

Lemma keeps_PedManager_spawn : forall ped,
  0 <= ped_atlight ped -> keeps CI (PedManager_spawn ped) anything.
Proof.
  intros ped Hp. unfold PedManager_spawn. clock_walk.
  apply keeps_Simulation_insert. exact Hp.
Qed.

Lemma keeps_Ped_init : forall id at0,
  keeps CI (Ped_init id at0) (fun ped => 0 <= ped_atlight ped).
Proof.
  intros id at0. unfold Ped_init.
  eapply keeps_bind.
  - apply keeps_on_pedrandom with (Q := fun v => VKA <= v <= VKB).
    intros tok Hv. apply uniform_draw; [unfold VKA, VKB; lra|exact Hv].
  - intros speed Hs. apply keeps_ret. cbn [ped_atlight].
    unfold VKA, VKB, BLOCKWIDTH, STREETWIDTH in *.
    apply Rlt_le. apply Rdiv_lt_0_compat; lra.
Qed.

(** [Car.__init__] and [CarManager.spawn]. *)
Lemma keeps_Car_init : forall id at0, keeps CI (Car_init id at0) Car_fresh.
Proof.
  intros id at0. unfold Car_init.
  eapply keeps_bind.
  - apply keeps_on_autorandom with (Q := fun v => VJA <= v <= VJB).
    intros tok Hv. apply uniform_draw; [unfold VJA, VJB; lra|exact Hv].
  - intros speed Hs. apply keeps_ret.
    unfold Car_fresh, Car_built. cbn [car_speed car_brakedist car_braketime].
    unfold VJA in *. repeat split; try reflexivity; lra.
Qed.

Lemma Car_fresh_delays : forall car before_ total_,
  Car_fresh car ->
  VJB ^ 2 / (2 * CARACC) <= before_ ->
  0 <= total_ ->
  0 <= (before_ - car_brakedist car) / car_speed car /\
  0 <= total_ / car_speed car.
Proof.
  intros car before_ total_ [[Hlo Hhi] (Hs & Hd & Ht)] Hb Htot.
  assert (Hbd : car_brakedist car <= VJB ^ 2 / (2 * CARACC)).
  { rewrite Hd. unfold CARACC, VJA, VJB in *. nra. }
  assert (Hinv : 0 < / car_speed car) by (apply Rinv_0_lt_compat; exact Hs).
  unfold Rdiv. split; apply Rmult_le_pos; lra.
Qed.

Lemma keeps_CarManager_spawn : forall car,
  Car_fresh car -> keeps CI (CarManager_spawn car) anything.
Proof.
  intros car Hc. unfold CarManager_spawn. clock_walk.
  - apply keeps_Simulation_insert.
    destruct H0 as (s & Hs & ->).
    destruct Hs as (E1 & E2 & E3 & E4 & E5 & E6 & E7 & E8 & E9 & E10).
    apply (Car_fresh_delays car (before s) (total s)); assumption.
  - apply keeps_Simulation_insert.
    destruct H2 as (s & Hs & ->).
    destruct Hs as (E1 & E2 & E3 & E4 & E5 & E6 & E7 & E8 & E9 & E10).
    apply (Car_fresh_delays car (before s) (total s)); assumption.
Qed.

(** An exponential draw with the rate of the simulation, then [insert]. *)
Lemma keeps_exponential_ped : forall lp,
  0 < lp ->
  keeps CI (bind (on_pedrandom (exponential lp)) lift) (fun d => 0 <= d).
Proof.
  intros lp Hlp. eapply keeps_bind.
  - apply keeps_on_pedrandom
      with (Q := fun r => exists d, r = Ok d /\ 0 <= d).
    intros tok Hv. apply exponential_draw; assumption.
  - intros r (d & -> & Hd). apply keeps_lift.
    intros a E. inversion E. subst. exact Hd.
Qed.

Lemma keeps_exponential_auto : forall la,
  0 < la ->
  keeps CI (bind (on_autorandom (exponential la)) lift) (fun d => 0 <= d).
Proof.
  intros la Hla. eapply keeps_bind.
  - apply keeps_on_autorandom
      with (Q := fun r => exists d, r = Ok d /\ 0 <= d).
    intros tok Hv. apply exponential_draw; assumption.
  - intros r (d & -> & Hd). apply keeps_lift.
    intros a E. inversion E. subst. exact Hd.
Qed.

Ltac clock_rate :=
  match goal with
  | H : _ ?l |- 0 < ?l =>
      let Hc := fresh in cbv beta in H; destruct H as (? & Hc & ->); apply Hc
  end.

Ltac clock_known :=
  idtac;
  lazymatch goal with
  | |- keeps _ (Light_timer _) _ => apply keeps_Light_timer
  | |- keeps _ (PedManager_arrive _) _ => apply keeps_PedManager_arrive
  | |- keeps _ (PedManager_impatient _) _ => apply keeps_PedManager_impatient
  | |- keeps _ (CarManager_arrive _) _ => apply keeps_CarManager_arrive
  | |- keeps _ (CarManager_exit _) _ => apply keeps_CarManager_exit
  | |- keeps _ (Ped_init _ _) _ => apply keeps_Ped_init
  | |- keeps _ (Car_init _ _) _ => apply keeps_Car_init
  | |- keeps _ (PedManager_spawn _) _ => apply keeps_PedManager_spawn; assumption
  | |- keeps _ (CarManager_spawn _) _ => apply keeps_CarManager_spawn; assumption
  | |- keeps _ (Simulation_insert _ _ _) _ =>
      apply keeps_Simulation_insert; assumption
  | |- keeps _ (bind (on_pedrandom (exponential _)) lift) _ =>
      apply keeps_exponential_ped; clock_rate
  | |- keeps _ (bind (on_autorandom (exponential _)) lift) _ =>
      apply keeps_exponential_auto; clock_rate
  end.

Lemma keeps_dispatch : forall g event, keeps CI (dispatch g event) anything.
Proof.
  intros g event. unfold dispatch.
  repeat (keeps_step clock_side clock_known).
Qed.

Lemma keeps_Simulation_populate : keeps CI Simulation_populate anything.
Proof.
  unfold Simulation_populate.
  repeat (keeps_step clock_side clock_known).
Qed.

End ClockFacts.


(* ====================================================================== *)
(** * The sorted list is a heap queue *)
(* ====================================================================== *)

Lemma sorted_push_perm : forall q e, Permutation (sorted_push q e) (e :: q).
Proof.
  induction q as [|x q IH]; intro e; simpl.
  - apply Permutation_refl.
  - destruct (flt (ev_at e) (ev_at x)).
    + apply Permutation_refl.
    + apply Permutation_trans with (x :: e :: q).
      * apply perm_skip. apply IH.
      * apply perm_swap.
Qed.

Lemma sorted_push_sorted : forall q e,
  sorted_is_heap q -> sorted_is_heap (sorted_push q e).
Proof.
  unfold sorted_is_heap.
  induction q as [|x q IH]; intros e Hq; simpl.
  - constructor; [constructor|constructor].
  - inversion Hq as [|x' q' Hq' Hx]; subst.
    destruct (flt (ev_at e) (ev_at x)) eqn:E.
    + apply flt_true in E. constructor; [exact Hq|].
      constructor; [unfold by_time; lra|].
      eapply Forall_impl; [|exact Hx].
      intros y Hy. unfold by_time in *. lra.
    + apply flt_false in E. constructor; [apply IH; exact Hq'|].
      apply (Permutation_Forall (Permutation_sym (sorted_push_perm q e))).
      constructor; [exact E|exact Hx].
Qed.

Lemma sorted_heapq_spec : HeapqSpec sorted_heapq sorted_is_heap.
Proof.
  constructor.
  - constructor.
  - intros q e Hq. apply sorted_push_sorted. exact Hq.
  - intros q e _. apply sorted_push_perm.
  - reflexivity.
  - intros [|x q] _ Hne; [contradiction|]. exists x, q. reflexivity.
  - intros [|x q] e q' Hq E; simpl in E; [discriminate|].
    inversion E; subst. inversion Hq as [|x' q'' Hq' Hx]; subst.
    split; [exact Hq'|]. split; [apply Permutation_refl|].
    eapply Forall_impl; [|exact Hx].
    intros y Hy. unfold Event_lt, by_time in *. lra.
Qed.

Lemma valid_draws_const : forall u, 0 < u < 1 -> valid_draws (const_source u).
Proof.
  intros u Hu k. exact Hu.
Qed.

(* ====================================================================== *)
(** * The clock along a run *)
(* ====================================================================== *)

Section ClockRun.

Context {hq : Heapq}.
Variable is_heap : list Event -> Prop.
Hypothesis HS : HeapqSpec hq is_heap.

Lemma Clock_inv_blank : forall n a p b debug,
  valid_draws a -> valid_draws p -> valid_draws b ->
  Clock_inv is_heap 0 (Simulation_blank n a p b debug).
Proof.
  intros n a p b debug Ha Hp Hb.
  unfold Clock_inv, total, before, Simulation_blank. proj_simpl.
  repeat split; try assumption; try apply Hp; try apply Ha; try apply Hb.
  - apply (heap_nil hq is_heap HS).
  - constructor.
  - lra.
  - lra.
  - unfold BLOCKWIDTH, STREETWIDTH. lra.
  - unfold VJB, CARACC, BLOCKWIDTH, STREETWIDTH, CROSSWIDTH. lra.
Qed.

(** An exponential draw from a valid source returns. *)
Lemma exponential_ok : forall l tok,
  0 < l -> valid_draws tok ->
  exponential l tok
  = (Ok (- l * ln (1 - peek tok)), snd (next_draw tok)).
Proof.
  intros l tok Hl Hv. unfold exponential, next_draw, peek.
  replace (fle l 0) with false by (symmetry; apply fle_false; exact Hl).
  destruct (Hv (src_pos tok)) as [H0 H1].
  rewrite math_log_pos by lra. reflexivity.
Qed.

Lemma Simulation_populate_ok : forall s,
  0 < sim_lambdap s -> 0 < sim_lambdaa s ->
  valid_draws (sim_pedrandom s) -> valid_draws (sim_autorandom s) ->
  fst (Simulation_populate s) = Ok tt.
Proof.
  intros s Hlp Hla Hp Ha.
  unfold Simulation_populate.
  unfold bind at 1. unfold gets at 1.
  unfold bind at 1. unfold gets at 1.
  unfold bind at 1. unfold bind at 1. unfold on_pedrandom at 1.
  rewrite exponential_ok by assumption.
  unfold lift at 1. unfold bind at 1. unfold Simulation_insert at 1.
  unfold bind at 1. unfold bind at 1. unfold on_pedrandom at 1. proj_simpl.
  rewrite (exponential_ok (sim_lambdap s) (snd (next_draw (sim_pedrandom s))));
    [|assumption|apply valid_draws_next; assumption].
  unfold lift at 1. unfold bind at 1. unfold Simulation_insert at 1.
  unfold bind at 1. unfold bind at 1. unfold on_autorandom at 1. proj_simpl.
  rewrite exponential_ok by assumption.
  unfold lift at 1. unfold bind at 1. unfold Simulation_insert at 1.
  unfold bind at 1. unfold bind at 1. unfold on_autorandom at 1. proj_simpl.
  rewrite (exponential_ok (sim_lambdaa s) (snd (next_draw (sim_autorandom s))));
    [|assumption|apply valid_draws_next; assumption].
  unfold lift at 1. unfold Simulation_insert at 1.
  reflexivity.
Qed.

Lemma Simulation_init_ok : forall n a p b debug,
  valid_draws a -> valid_draws p -> valid_draws b ->
  fst (Simulation_init n a p b debug) = Ok tt.
Proof.
  intros n a p b debug Ha Hp Hb. unfold Simulation_init.
  apply Simulation_populate_ok; unfold Simulation_blank; proj_simpl;
    try assumption; lra.
Qed.

Lemma Clock_inv_init : forall n a p b debug,
  valid_draws a -> valid_draws p -> valid_draws b ->
  Clock_inv is_heap 0 (snd (Simulation_init n a p b debug)).
Proof.
  intros n a p b debug Ha Hp Hb. unfold Simulation_init.
  apply (keeps_Simulation_populate is_heap HS 0).
  apply Clock_inv_blank; assumption.
Qed.

(** One call of [next]: on the empty queue it raises [IndexError] and
    changes nothing; otherwise it pops an event that no pending event
    precedes, and the clock moves forward to the time of that event. *)
Lemma Simulation_next_clock : forall g t s,
  Clock_inv is_heap t s ->
  exists t',
    t <= t' /\
    Clock_inv is_heap t' (snd (Simulation_next g s)) /\
    (sim_queue s = [] -> Simulation_next g s = (Raise IndexError, s)) /\
    (sim_queue s <> [] ->
     exists e q',
       heappop (sim_queue s) = Ok (e, q') /\
       Permutation (sim_queue s) (e :: q') /\
       Forall (fun x => ev_at e <= ev_at x) q' /\
       t' = ev_at e).
Proof.
  intros g t s Hs.
  destruct (sim_queue s) as [|x q] eqn:Eq.
  - exists t. split; [lra|].
    assert (E : Simulation_next g s = (Raise IndexError, s)).
    { unfold Simulation_next. unfold bind at 1. unfold gets at 1.
      rewrite Eq. unfold bind at 1. unfold lift at 1.
      rewrite (heap_pop_empty hq is_heap HS). reflexivity. }
    rewrite E. cbn [snd]. split; [exact Hs|]. split; [reflexivity|].
    intro H. contradiction.
  - assert (Hne : sim_queue s <> []) by (rewrite Eq; discriminate).
    pose proof Hs as (E1 & E2 & E3 & E4 & E5 & E6 & E7 & E8 & E9 & E10).
    destruct (heap_pop_some hq is_heap HS _ E2 Hne) as (e & q' & Hpop).
    destruct (heap_pop_ok hq is_heap HS _ _ _ E2 Hpop) as (Hq' & Hperm & Hmin).
    assert (Hmin' : Forall (fun x => ev_at e <= ev_at x) q').
    { eapply Forall_impl; [|exact Hmin].
      intros y Hy. unfold Event_lt in Hy. lra. }
    assert (Hte : t <= ev_at e).
    { pose proof (Permutation_Forall Hperm E3) as HF.
      inversion HF; subst. assumption. }
    exists (ev_at e). split; [exact Hte|].
    rewrite <- Eq.
    split; [|split; [intro H; contradiction|]].
    + unfold Simulation_next. unfold bind at 1. unfold gets at 1.
      unfold bind at 1. unfold lift at 1. rewrite Hpop.
      unfold bind at 1. unfold modify at 1.
      unfold bind at 1. unfold modify at 1.
      unfold bind at 1. unfold modify at 1.
      unfold bind at 1. unfold modify at 1.
      apply (keeps_dispatch is_heap HS (ev_at e) g e).
      unfold Clock_inv, total, before in *. proj_simpl. tauto.
    + intros _. exists e, q'. tauto.
Qed.

(** Every state of a run is at some clock, with its queue in the future. *)
Lemma reaches_Clock_inv : forall g s0 tr s t0,
  Clock_inv is_heap t0 s0 ->
  reaches g s0 tr s ->
  exists t, t0 <= t /\ Clock_inv is_heap t s.
Proof.
  intros g s0 tr s t0 H0 Hr. induction Hr as [|tr s s' l Hr IH Hn Hl].
  - exists t0. split; [lra|exact H0].
  - destruct IH as (t & Ht & Hs).
    destruct (Simulation_next_clock g t s Hs) as (t' & Ht' & Hs' & _).
    rewrite Hn in Hs'. exists t'. split; [lra|exact Hs'].
Qed.

End ClockRun.

(** C6: in a run from [__init__], with draws in (0,1) and a heap queue that
    keeps the promises of [heapq]: every pending event is at or after the
    clock, because [insert] pushes each event at the clock plus a delay that
    is not negative; [next] pops an event that no pending event precedes
    and sets the clock to its time, so the clock never goes back from one
    dispatch to a later one. *)
Theorem clock_never_goes_back :
  forall (hq : Heapq) (is_heap : list Event -> Prop) (n : Z) (a p b : Source)
         (debug : bool) (g : GlobalSim),
    HeapqSpec hq is_heap ->
    valid_draws a -> valid_draws p -> valid_draws b ->
    fst (Simulation_init n a p b debug) = Ok tt /\
    forall tr s,
      reaches g (snd (Simulation_init n a p b debug)) tr s ->
      Forall (fun e => sim_time s <= ev_at e) (sim_queue s) /\
      (forall delta type id,
          sim_queue (snd (Simulation_insert delta type id s))
          = heappush (sim_queue s) (mkEvent (sim_time s + delta) type id)) /\
      (forall r s',
          Simulation_next g s = (r, s') ->
          sim_time s <= sim_time s' /\
          (sim_queue s <> [] ->
           exists e q',
             heappop (sim_queue s) = Ok (e, q') /\
             Permutation (sim_queue s) (e :: q') /\
             Forall (fun x => ev_at e <= ev_at x) q' /\
             sim_time s' = ev_at e)) /\
      (forall tr' s', reaches g s tr' s' -> sim_time s <= sim_time s').
Proof.
  intros hq is_heap n a p b debug g HS Ha Hp Hb.
  split; [apply Simulation_init_ok; assumption|].
  intros tr s Hr.
  destruct (reaches_Clock_inv is_heap HS g _ tr s 0
              (Clock_inv_init is_heap HS n a p b debug Ha Hp Hb) Hr)
    as (t & Ht & Hs).
  pose proof Hs as (E1 & E2 & E3 & _).
  split; [rewrite E1; exact E3|].
  split; [reflexivity|].
  split.
  - intros r s' Hn.
    destruct (Simulation_next_clock is_heap HS g t s Hs) as (t' & Ht' & Hs' & _ & Hpop).
    rewrite Hn in Hs'. cbn [snd] in Hs'. destruct Hs' as (E1' & _).
    split; [lra|].
    intro Hne. destruct (Hpop Hne) as (e & q' & H1 & H2 & H3 & H4).
    exists e, q'. repeat split; try assumption. lra.
  - intros tr' s' Hr'.
    destruct (reaches_Clock_inv is_heap HS g s tr' s' t Hs Hr') as (t' & Ht' & Hs').
    destruct Hs' as (E1' & _). lra.
Qed.

Lemma clock_never_goes_back_witness :
  let s0 := snd (Simulation_init (hq := sorted_heapq) 1 (const_source (1 / 2))
                   (const_source (1 / 2)) (const_source (1 / 2)) false) in
  fst (Simulation_init (hq := sorted_heapq) 1 (const_source (1 / 2))
         (const_source (1 / 2)) (const_source (1 / 2)) false) = Ok tt /\
  Forall (fun e => sim_time s0 <= ev_at e) (sim_queue s0) /\
  (forall r s', Simulation_next (hq := sorted_heapq) SimIsThis s0 = (r, s') ->
                sim_time s0 <= sim_time s').
Proof.
  destruct (clock_never_goes_back sorted_heapq sorted_is_heap 1
              (const_source (1 / 2)) (const_source (1 / 2)) (const_source (1 / 2))
              false SimIsThis) as [H0 H].
  - apply sorted_heapq_spec.
  - apply valid_draws_const. lra.
  - apply valid_draws_const. lra.
  - apply valid_draws_const. lra.
  - destruct (H [] _ (reaches_start SimIsThis _)) as (H1 & _ & H2 & _).
    split; [exact H0|]. split; [exact H1|].
    intros r s' Hn. apply (H2 r s' Hn).
Defined.


(* ====================================================================== *)
(** * What the handlers of the pedestrians and of the light leave of the cars *)
(* ====================================================================== *)


Lemma quiet_lines_app : forall l1 l2,
  Forall quiet l1 -> Forall quiet l2 -> Forall quiet (l1 ++ l2).
Proof.
  intros l1 l2 H1 H2. apply Forall_app. split; assumption.
Qed.

Ltac quiet_tac := unfold quiet; cbn; repeat split; reflexivity.

Lemma yellow_lines_quiet : forall time before_ after_ cars,
  Forall quiet (yellow_lines time before_ after_ cars).
Proof.
  intros time before_ after_ cars. unfold yellow_lines.
  induction cars as [|c cars IH]; cbn [flat_map].
  - constructor.
  - apply quiet_lines_app; [|exact IH].
    destruct (yellow_test time before_ after_ c); [|constructor].
    constructor; [quiet_tac|constructor].
Qed.

Lemma yellow_mark_core : forall time before_ after_ cars,
  map (set_shouldstop false) (map (yellow_mark time before_ after_) cars)
  = map (set_shouldstop false) cars.
Proof.
  intros time before_ after_ cars. rewrite map_map. apply map_ext.
  intro c. unfold yellow_mark.
  destruct (yellow_test time before_ after_ c); reflexivity.
Qed.

Section FrameFacts.

Context {hq : Heapq}.
Variable is_heap : list Event -> Prop.
Hypothesis HS : HeapqSpec hq is_heap.
Variable lit : Prop.
Variable s1 : Simulation.

Local Abbreviation CF := (Cars_frame is_heap lit s1).

Lemma CF_same_cars : forall s s', same_cars s s' -> CF s -> CF s'.
Proof.
  intros s s' (Hsch & E1 & E2 & E3 & E4 & E5)
         (C & F1 & F2 & F3 & F4 & F5 & F6 & F7 & F8 & F9).
  pose proof (Clock_inv_same_schedule is_heap _ s s' Hsch C) as C'.
  destruct Hsch as (_ & Eq & _).
  unfold Cars_frame, stopped, driving, state in *.
  rewrite E1, E2, E3, E4, E5, Eq. tauto.
Qed.

Lemma keeps_CF_modify : forall f : Simulation -> Simulation,
  (forall s, same_cars s (f s)) -> keeps CF (modify f) anything.
Proof.
  intros f Hf. apply keeps_modify. intros s Hs.
  apply (CF_same_cars s); [apply Hf|exact Hs].
Qed.







Lemma keeps_CF_lightchange_yellow : keeps CF (CarManager_lightchange YELLOW) anything.
Proof.
  intros s Hs.
  destruct Hs as (C & F1 & F2 & F3 & F4 & (l & Hl & Hql) & F6 & F7 & F8 & F9).
  destruct (keeps_CarManager_lightchange is_heap (sim_time s1) YELLOW s C)
    as [C' _].
  split; [|intros a _; exact Logic.I].
  rewrite (lightchange_yellow_spec s l Hl) in *. cbn [fst snd] in *.
  unfold Cars_frame. split; [exact C'|].
  unfold stopped, driving, state in *. proj_simpl.
  repeat split; try assumption.
  - rewrite yellow_mark_core. exact F4.
  - eexists. split; [reflexivity|].
    apply quiet_lines_app; [exact Hql|apply yellow_lines_quiet].
Qed.



















End FrameFacts.


(* ====================================================================== *)
(** * The car manager: arrivals and exits *)
(* ====================================================================== *)

Lemma find_car_some : forall id l i c,
  find_car id l = Some (i, c) ->
  car_id c = id /\ nth_error l i = Some c /\ In c l /\
  Permutation l (c :: remove_at i l).
Proof.
  intros id l. induction l as [|x l IH]; intros i c H; simpl in H.
  - discriminate.
  - destruct (car_id x =? id)%Z eqn:E.
    + inversion H; subst. apply Z.eqb_eq in E.
      simpl. repeat split; auto.
    + destruct (find_car id l) as [[j c']|] eqn:F; [|discriminate].
      inversion H; subst.
      destruct (IH j c eq_refl) as (H1 & H2 & H3 & H4).
      simpl. repeat split; auto.
      apply Permutation_trans with (x :: c :: remove_at j l).
      * apply perm_skip. exact H4.
      * apply perm_swap.
Qed.



Section CarSteps.

Context {hq : Heapq}.

(** [arrive(id)]: no car with the id is driving. *)
Lemma CarManager_arrive_none : forall id s,
  find_car id (driving s) = None -> CarManager_arrive id s = (Ok tt, s).
Proof.
  intros id s H. unfold CarManager_arrive, bind, gets. rewrite H. reflexivity.
Qed.



(** [exit(id)]. *)
Lemma CarManager_exit_none : forall id s,
  find_car id (driving s) = None -> CarManager_exit id s = (Ok tt, s).
Proof.
  intros id s H. unfold CarManager_exit, bind, gets. rewrite H. reflexivity.
Qed.


(** The handler that [next] selects. *)
Lemma dispatch_TimerExpire : forall g e s,
  ev_type e = TimerExpire -> dispatch g e s = Light_timer g s.
Proof.
  intros g e s H. unfold dispatch, bind, gets. rewrite H. reflexivity.
Qed.

Lemma dispatch_CarArrive : forall g e s,
  ev_type e = CarArrive -> dispatch g e s = CarManager_arrive (ev_id e) s.
Proof.
  intros g e s H. unfold dispatch, bind, gets. rewrite H. reflexivity.
Qed.

Lemma dispatch_CarExit : forall g e s,
  ev_type e = CarExit -> dispatch g e s = CarManager_exit (ev_id e) s.
Proof.
  intros g e s H. unfold dispatch, bind, gets. rewrite H. reflexivity.
Qed.

Lemma dispatch_CarSpawn_full : forall g e s,
  ev_type e = CarSpawn -> (sim_ncars s <? sim_maxn s)%Z = false ->
  dispatch g e s = (Ok tt, s).
Proof.
  intros g e s H Hn. unfold dispatch, bind, gets. rewrite H, Hn. reflexivity.
Qed.

(** A car is spawned: it takes the next id and joins the driving cars, its
    arrival and its exit are scheduled, and so is the next spawn. *)
Lemma dispatch_CarSpawn_spawns : forall g e s l,
  ev_type e = CarSpawn -> (sim_ncars s <? sim_maxn s)%Z = true ->
  sim_log s = Some l ->
  valid_draws (sim_autorandom s) -> 0 < sim_lambdaa s ->
  let id := (sim_ncars s + 1)%Z in
  let speed := fst (uniform VJA VJB (sim_autorandom s)) in
  let tok := snd (uniform VJA VJB (sim_autorandom s)) in
  let car := new_car id (sim_time s) speed in
  dispatch g e s
  = (Ok tt,
     set_totalevents (S (S (S (sim_totalevents s))))
       (set_queue
          (heappush
             (heappush
                (heappush (sim_queue s)
                   (mkEvent (sim_time s + (before s - car_brakedist car) / car_speed car)
                      CarArrive id))
                (mkEvent (sim_time s + total s / car_speed car) CarExit id))
             (mkEvent (sim_time s + - sim_lambdaa s * ln (1 - peek tok)) CarSpawn (-1)))
          (set_autorandom (snd (next_draw tok))
             (set_log (Some (l ++ [LogCarSpawned id]))
                (set_driving (driving s ++ [car])
                   (set_ncars id s)))))).
Proof.
  intros g e s l He Hn Hl Hv Hla id speed tok car.
  unfold dispatch.
  unfold bind at 1. unfold gets at 1.
  unfold bind at 1. unfold gets at 1.
  unfold bind at 1. unfold gets at 1.
  rewrite He, Hn.
  unfold bind at 1. unfold modify at 1.
  unfold bind at 1. unfold gets at 1.
  unfold bind at 1. unfold Car_init.
  unfold bind at 1. unfold on_autorandom at 1. proj_simpl.
  fold speed. fold tok.
  destruct (uniform VJA VJB (sim_autorandom s)) as [sp tk] eqn:Eu.
  cbn [fst snd] in speed, tok. subst speed tok.
  unfold ret at 1.
  unfold bind at 1. unfold CarManager_spawn.
  unfold bind at 1. unfold modify at 1.
  unfold bind at 1. unfold gets at 1.
  unfold bind at 1. unfold Simulation_insert at 1.
  unfold bind at 1. unfold gets at 1.
  unfold bind at 1. unfold Simulation_insert at 1.
  unfold log_append at 1. proj_simpl. rewrite Hl.
  unfold bind at 1. unfold gets at 1.
  unfold bind at 1. unfold bind at 1. unfold on_autorandom at 1. proj_simpl.
  assert (Hvt : valid_draws tk).
  { replace tk with (snd (uniform VJA VJB (sim_autorandom s)))
      by (rewrite Eu; reflexivity).
    apply uniform_draw; [unfold VJA, VJB; lra|exact Hv]. }
  rewrite (exponential_ok (sim_lambdaa s) tk Hla Hvt).
  unfold lift at 1. unfold Simulation_insert at 1.
  reflexivity.
Qed.

End CarSteps.


(* ====================================================================== *)
(** * The light controller: the five cases of the timer expiry *)
(* ====================================================================== *)

Section TimerCases.

Context {hq : Heapq}.
Variable is_heap : list Event -> Prop.
Hypothesis HS : HeapqSpec hq is_heap.


Lemma Light_timer_greenwait : forall g s,
  state s = GREENWAIT -> Light_timer g s = (Ok tt, set_state GREEN s).
Proof.
  intros g s H. unfold Light_timer, bind, gets. rewrite H. reflexivity.
Qed.

Lemma Light_timer_pressed : forall g s l,
  state s = GREENWAITPRESSED ->
  sim_log s = Some l ->
  Light_timer g s
  = (Ok tt,
     set_totalevents (S (sim_totalevents s))
       (set_queue (heappush (sim_queue s) (timer_event (sim_time s) YELLOWTIMEOUT))
          (set_log (Some ((l ++ [LogYellow])
                          ++ yellow_lines (sim_time s) (before s) (after s) (driving s)))
             (set_driving
                (map (yellow_mark (sim_time s) (before s) (after s)) (driving s))
                (set_state YELLOW s))))).
Proof.
  intros g s l Hs Hl. unfold Light_timer.
  unfold bind at 1. unfold gets at 1. rewrite Hs.
  unfold bind at 1. unfold modify at 1.
  unfold bind at 1. unfold log_append at 1.
  cbn [sim_log set_state set_light]. rewrite Hl.
  unfold bind at 1.
  rewrite (lightchange_yellow_spec _ (l ++ [LogYellow])) by reflexivity.
  reflexivity.
Qed.

Lemma Light_timer_red : forall g s l,
  state s = RED ->
  sim_log s = Some l ->
  Light_timer g s
  = (Ok tt,
     set_totalevents (S (sim_totalevents s))
       (set_queue (heappush (sim_queue s) (timer_event (sim_time s) GREENTIMEOUT))
          (set_log (Some ((l ++ [LogGreen])
                          ++ map (release_line (total s) (sim_time s)) (rev (stopped s))))
             (set_cardelay
                (Welford_inserts (sim_cardelay s)
                   (map (release_delay (total s) (sim_time s)) (rev (stopped s))))
                (set_stopped [] (set_state GREENWAIT s)))))).
Proof.
  intros g s l Hs Hl. unfold Light_timer.
  unfold bind at 1. unfold gets at 1. rewrite Hs.
  unfold bind at 1. unfold modify at 1.
  unfold bind at 1. unfold log_append at 1.
  cbn [sim_log set_state set_light]. rewrite Hl.
  unfold bind at 1.
  rewrite (lightchange_green_spec _ (l ++ [LogGreen])) by reflexivity.
  reflexivity.
Qed.


End TimerCases.


(* ====================================================================== *)
(** * The cars along a run *)
(* ====================================================================== *)












Lemma ids_upto_In : forall n id, In id (ids_upto n) <-> (1 <= id <= n)%Z.
Proof.
  intros n id. unfold ids_upto. rewrite in_map_iff. split.
  - intros (k & <- & Hk). apply in_seq in Hk. lia.
  - intro H. exists (Z.to_nat id). split; [lia|]. apply in_seq. lia.
Qed.









Section CarRun.

Context {hq : Heapq}.
Variable is_heap : list Event -> Prop.
Hypothesis HS : HeapqSpec hq is_heap.

Lemma Simulation_next_popped : forall g s e q',
  heappop (sim_queue s) = Ok (e, q') ->
  Simulation_next g s = dispatch g e (popped_state e q' s).
Proof.
  intros g s e q' Hpop. unfold Simulation_next.
  unfold bind at 1. unfold gets at 1.
  unfold bind at 1. unfold lift at 1. rewrite Hpop.
  reflexivity.
Qed.


































End CarRun.






Lemma NoDup_app_apart : forall (A : Type) (l l' : list A) x,
  NoDup (l ++ l') -> In x l -> In x l' -> False.
Proof.
  intros A l l' x Hnd Hl Hl'.
  destruct (in_split x l' Hl') as (u & v & E). subst l'.
  rewrite app_assoc in Hnd. apply NoDup_remove_2 in Hnd.
  apply Hnd. apply in_or_app. left. apply in_or_app. left. exact Hl.
Qed.






(* ====================================================================== *)
(** * The variates: ranges and guards *)
(* ====================================================================== *)

Lemma Int_part_range : forall x n,
  0 <= x < IZR n -> (0 <= Int_part x <= n - 1)%Z.
Proof.
  intros x n [H0 H1].
  destruct (base_Int_part x) as [Hle Hgt].
  split.
  - assert (H : (-1 < Int_part x)%Z) by (apply lt_IZR; lra). lia.
  - assert (H : (Int_part x < n)%Z) by (apply lt_IZR; lra). lia.
Qed.

(** X1: [equilikely(a, b)] on a range [a <= b] and a draw in [0, 1) is an
    integer of [a .. b]; it reads one draw. *)
Theorem equilikely_in_range :
  forall (a b : Z) (tok : Source),
    (a <= b)%Z -> 0 <= peek tok < 1 ->
    (a <= fst (equilikely a b tok) <= b)%Z /\
    src_pos (snd (equilikely a b tok)) = S (src_pos tok).
Proof.
  intros a b tok Hab [H0 H1]. unfold equilikely, next_draw. fold (peek tok).
  cbn [fst snd src_pos]. split; [|reflexivity].
  assert (Hn : 0 < IZR (b - a + 1)) by (apply IZR_lt; lia).
  rewrite py_int_floor by (apply Rmult_le_pos; lra).
  assert (Hr : 0 <= IZR (b - a + 1) * peek tok < IZR (b - a + 1)) by nra.
  pose proof (Int_part_range _ _ Hr). lia.
Qed.

Lemma equilikely_in_range_witness :
  (1 <= fst (equilikely 1 6 (const_source (1 / 2))) <= 6)%Z.
Proof.
  apply (equilikely_in_range 1 6 (const_source (1 / 2))).
  - lia.
  - unfold peek, const_source. cbn. lra.
Defined.



(** X3: [exponential(l)]: for [l <= 0] it raises [ValueError] before it
    draws; for [l > 0] a draw of at least 1 ends in the [ValueError] of
    [math.log], after the draw; a draw in [0, 1) gives a value that is not
    negative, 0 only at the draw 0, and greater for a greater draw. *)
Theorem exponential_range :
  forall (l : R) (tok tok' : Source),
    (l <= 0 -> exponential l tok = (Raise ValueError, tok)) /\
    (0 < l -> 1 <= peek tok ->
     exponential l tok = (Raise ValueError, snd (next_draw tok))) /\
    (0 < l -> 0 <= peek tok < 1 ->
     exists x, exponential l tok = (Ok x, snd (next_draw tok)) /\
               0 <= x /\ (x = 0 <-> peek tok = 0) /\
               (peek tok < peek tok' < 1 ->
                exists x', fst (exponential l tok') = Ok x' /\ x < x')).
Proof.
  intros l tok tok'. split; [|split].
  - intro Hl. unfold exponential.
    replace (fle l 0) with true by (symmetry; apply fle_true; exact Hl).
    reflexivity.
  - intros Hl Hu. unfold exponential, next_draw. fold (peek tok).
    replace (fle l 0) with false by (symmetry; apply fle_false; exact Hl).
    rewrite math_log_nonpos by lra. reflexivity.
  - intros Hl [H0 H1]. unfold exponential, next_draw.
    fold (peek tok). fold (peek tok').
    replace (fle l 0) with false by (symmetry; apply fle_false; exact Hl).
    rewrite math_log_pos by lra.
    exists (- l * ln (1 - peek tok)). split; [reflexivity|].
    assert (Hln : ln (1 - peek tok) <= 0) by (apply ln_nonpos; lra).
    split; [nra|]. split.
    + split; intro H.
      * assert (Hz : ln (1 - peek tok) = 0) by nra.
        rewrite <- ln_1 in Hz. apply ln_inv in Hz; lra.
      * rewrite H. replace (1 - 0) with 1 by lra. rewrite ln_1. lra.
    + intros [H2 H3]. rewrite math_log_pos by lra.
      exists (- l * ln (1 - peek tok')). split; [reflexivity|].
      assert (Hlt : ln (1 - peek tok') < ln (1 - peek tok))
        by (apply ln_increasing; lra).
      nra.
Qed.

Lemma exponential_range_witness :
  exponential 0 (const_source (1 / 2)) = (Raise ValueError, const_source (1 / 2)) /\
  exponential 20 (const_source 1)
  = (Raise ValueError, snd (next_draw (const_source 1))) /\
  exists x, exponential 20 (const_source (1 / 2))
            = (Ok x, snd (next_draw (const_source (1 / 2)))) /\ 0 <= x.
Proof.
  destruct (exponential_range 0 (const_source (1 / 2)) (const_source (1 / 2)))
    as (H1 & _).
  destruct (exponential_range 20 (const_source 1) (const_source 1))
    as (_ & H2 & _).
  destruct (exponential_range 20 (const_source (1 / 2)) (const_source (1 / 2)))
    as (_ & _ & H3).
  split; [apply H1; lra|]. split.
  - apply H2; [lra | unfold peek, const_source; cbn; lra].
  - destruct H3 as (x & Hx & H0 & _);
      [lra | unfold peek, const_source; cbn; lra |].
    exists x. split; [exact Hx | exact H0].
Defined.

(** X4: [geometric(l)] on a draw in [0, 1): for [0 < l < 1] it returns an
    integer that is not negative, 0 at the draw 0; for [l = 1] it divides by
    [log(1) = 0] and raises [ZeroDivisionError]; for [l > 1] it returns an
    integer that is not positive. *)
Theorem geometric_range :
  forall (l : R) (tok : Source),
    0 <= peek tok < 1 ->
    (0 < l < 1 ->
     exists k, fst (geometric l tok) = Ok k /\ (0 <= k)%Z /\
               (peek tok = 0 -> k = 0%Z)) /\
    (l = 1 -> fst (geometric l tok) = Raise ZeroDivisionError) /\
    (1 < l -> exists k, fst (geometric l tok) = Ok k /\ (k <= 0)%Z).
Proof.
  intros l tok [H0 H1].
  assert (Hnum : ln (1 - peek tok) <= 0) by (apply ln_nonpos; lra).
  split; [|split].
  - intros [Hl0 Hl1]. unfold geometric, next_draw. fold (peek tok).
    replace (fle l 0) with false by (symmetry; apply fle_false; exact Hl0).
    rewrite math_log_pos by lra. rewrite math_log_pos by exact Hl0.
    assert (Hden : ln l < 0) by (apply ln_neg; lra).
    rewrite feq_false by lra. cbn [fst].
    assert (Hq : 0 <= ln (1 - peek tok) / ln l).
    { replace (ln (1 - peek tok) / ln l)
        with ((- ln (1 - peek tok)) * / (- ln l)) by (field; lra).
      apply Rmult_le_pos; [lra|]. left. apply Rinv_0_lt_compat. lra. }
    eexists. split; [reflexivity|]. rewrite py_int_floor by exact Hq. split.
    + destruct (base_Int_part (ln (1 - peek tok) / ln l)) as [_ Hgt].
      assert (H : (-1 < Int_part (ln (1 - peek tok) / ln l))%Z)
        by (apply lt_IZR; lra).
      lia.
    + intro Hu. rewrite Hu. replace (1 - 0) with 1 by lra. rewrite ln_1.
      apply Int_part_unique. cbn. unfold Rdiv. rewrite Rmult_0_l. lra.
  - intro Hl. subst l. unfold geometric, next_draw. fold (peek tok).
    replace (fle 1 0) with false by (symmetry; apply fle_false; lra).
    rewrite math_log_pos by lra. rewrite math_log_pos by lra.
    rewrite ln_1. unfold feq. destruct (Req_dec_T 0 0); [reflexivity|lra].
  - intro Hl. unfold geometric, next_draw. fold (peek tok).
    replace (fle l 0) with false by (symmetry; apply fle_false; lra).
    rewrite math_log_pos by lra. rewrite math_log_pos by lra.
    assert (Hden : 0 < ln l) by (rewrite <- ln_1; apply ln_increasing; lra).
    rewrite feq_false by lra. cbn [fst].
    eexists. split; [reflexivity|].
    assert (Hq : ln (1 - peek tok) / ln l <= 0).
    { replace (ln (1 - peek tok) / ln l)
        with (- ((- ln (1 - peek tok)) * / ln l)) by (field; lra).
      assert (0 <= (- ln (1 - peek tok)) * / ln l).
      { apply Rmult_le_pos; [lra|]. left. apply Rinv_0_lt_compat. lra. }
      lra. }
    unfold py_int. destruct (Rle_dec 0 (ln (1 - peek tok) / ln l)) as [Hp|Hn].
    + assert (Hz : ln (1 - peek tok) / ln l = 0) by lra. rewrite Hz.
      rewrite (Int_part_unique 0 0); [lia|cbn; lra].
    + destruct (base_Int_part (- (ln (1 - peek tok) / ln l))) as [_ Hgt].
      assert (H : (-1 < Int_part (- (ln (1 - peek tok) / ln l)))%Z)
        by (apply lt_IZR; lra).
      lia.
Qed.

Lemma geometric_range_witness :
  exists k, fst (geometric (1 / 2) (const_source (1 / 2))) = Ok k /\ (0 <= k)%Z.
Proof.
  destruct (geometric_range (1 / 2) (const_source (1 / 2))) as (H & _).
  - unfold peek, const_source. cbn. lra.
  - destruct H as (k & Hk & H0 & _); [lra|].
    exists k. split; [exact Hk | exact H0].
Defined.


(* ====================================================================== *)
(** * The accumulator: order of the samples, spread, alternative update *)
(* ====================================================================== *)

Lemma Rsum_Permutation : forall xs ys, Permutation xs ys -> Rsum xs = Rsum ys.
Proof.
  intros xs ys H. unfold Rsum.
  induction H as [|x l l' _ IH|x y l|l l' l'' _ IH1 _ IH2]; cbn [fold_right].
  - reflexivity.
  - rewrite IH. reflexivity.
  - lra.
  - congruence.
Qed.

Lemma sq_dev_nonneg : forall m xs, 0 <= sq_dev m xs.
Proof.
  intros m xs. unfold sq_dev. induction xs as [|x xs IH].
  - cbn. lra.
  - cbn [map Rsum fold_right]. fold (Rsum (map (fun x0 => (x0 - m) ^ 2) xs)).
    assert (0 <= (x - m) ^ 2) by (apply pow2_ge_0). lra.
Qed.

Lemma Rsum_bounds : forall a b xs,
  Forall (fun x => a <= x <= b) xs ->
  a * INR (length xs) <= Rsum xs <= b * INR (length xs).
Proof.
  intros a b xs H. induction H as [|x xs Hx _ IH].
  - cbn. lra.
  - cbn [Rsum fold_right]. fold (Rsum xs).
    change (length (x :: xs)) with (S (length xs)). rewrite S_INR. lra.
Qed.

(** X5: the accumulator does not depend on the order of the samples: two
    sequences that are permutations of each other leave the same mean, the
    same progressive variance and the same count. *)
Theorem Welford_order_independent :
  forall (name : string) (xs ys : list R),
    Permutation xs ys ->
    Welford_inserts (Welford_init name) xs = Welford_inserts (Welford_init name) ys.
Proof.
  intros name xs ys HP.
  destruct (Welford_tracks_inserts name xs) as (Hi & Ha & Hv).
  destruct (Welford_tracks_inserts name ys) as (Hi' & Ha' & Hv').
  assert (Hn : w_name (Welford_inserts (Welford_init name) xs)
               = w_name (Welford_inserts (Welford_init name) ys)).
  { assert (G : forall zs w, w_name (Welford_inserts w zs) = w_name w).
    { unfold Welford_inserts. induction zs as [|z zs IH]; intro w; cbn [fold_left].
      - reflexivity.
      - rewrite IH. reflexivity. }
    rewrite !G. reflexivity. }
  assert (Hlen : length xs = length ys) by (apply Permutation_length; exact HP).
  assert (Havg : w_avg (Welford_inserts (Welford_init name) xs)
                 = w_avg (Welford_inserts (Welford_init name) ys)).
  { destruct xs as [|x xs'].
    - apply Permutation_nil in HP. subst ys. reflexivity.
    - assert (Hpos : 0 < INR (length (x :: xs'))) by (apply lt_0_INR; cbn; lia).
      rewrite (Rsum_Permutation _ _ HP) in Ha. rewrite <- Hlen in Ha'.
      nra. }
  assert (Hvar : w_var (Welford_inserts (Welford_init name) xs)
                 = w_var (Welford_inserts (Welford_init name) ys)).
  { rewrite Hv, Hv', Havg. unfold sq_dev. apply Rsum_Permutation.
    apply Permutation_map. exact HP. }
  destruct (Welford_inserts (Welford_init name) xs) as [n1 a1 v1 i1].
  destruct (Welford_inserts (Welford_init name) ys) as [n2 a2 v2 i2].
  cbn [w_name w_avg w_var w_i] in *. congruence.
Qed.

Lemma Welford_order_independent_witness :
  Welford_inserts (Welford_init "Auto Delay") [1; 2; 3]
  = Welford_inserts (Welford_init "Auto Delay") [3; 1; 2].
Proof.
  apply Welford_order_independent.
  apply Permutation_sym. apply (Permutation_cons_append [1; 2] 3).
Defined.

(** X6: after any sequence of samples the variance is not negative, so
    [std()] is its square root: it is not negative and its square is the
    variance; and the mean lies between any two bounds of the samples. *)
Theorem Welford_spread :
  forall (name : string) (xs : list R) (a b : R),
    let w := Welford_inserts (Welford_init name) xs in
    0 <= Welford_variance w /\
    0 <= Welford_std w /\
    Welford_std w * Welford_std w = Welford_variance w /\
    (xs <> [] -> Forall (fun x => a <= x <= b) xs -> a <= Welford_mean w <= b).
Proof.
  intros name xs a b w.
  destruct (Welford_tracks_inserts name xs) as (Hi & Ha & Hv). fold w in Hi, Ha, Hv.
  assert (H0 : 0 <= Welford_variance w).
  { unfold Welford_variance. destruct (0 <? w_i w)%nat eqn:E; [|lra].
    apply Nat.ltb_lt in E. rewrite Hv.
    apply Rmult_le_pos; [apply sq_dev_nonneg|].
    left. apply Rinv_0_lt_compat. apply lt_0_INR. exact E. }
  split; [exact H0|]. split; [apply sqrt_pos|]. split.
  - unfold Welford_std. apply sqrt_sqrt. exact H0.
  - intros Hne HF. unfold Welford_mean.
    assert (Hpos : 0 < INR (length xs)).
    { apply lt_0_INR. destruct xs; [contradiction|cbn; lia]. }
    pose proof (Rsum_bounds a b xs HF) as Hb. nra.
Qed.

Lemma Welford_spread_witness :
  2 <= Welford_mean (Welford_inserts (Welford_init "Ped Delay") [2; 4]) <= 4.
Proof.
  destruct (Welford_spread "Ped Delay" [2; 4] 2 4) as (_ & _ & _ & H).
  apply H.
  - discriminate.
  - repeat constructor; lra.
Defined.


(* ====================================================================== *)
(** * [random()] *)
(* ====================================================================== *)

Lemma resample_nonzero : forall fuel x raw y raw',
  resample fuel x raw = Some (y, raw') -> y <> 0.
Proof.
  induction fuel as [|fuel IH]; intros x raw y raw' H; cbn [resample] in H.
  - unfold feq in H. destruct (Req_dec_T x 0); [discriminate|].
    inversion H; subst. assumption.
  - unfold feq in H. destruct (Req_dec_T x 0).
    + destruct (next_draw raw) as [x' raw1] eqn:E. apply (IH _ _ _ _ H).
    + inversion H; subst. assumption.
Qed.

Lemma resample_skips : forall k fuel draws p,
  (k <= fuel)%nat ->
  (forall j, (j < k)%nat -> draws (p + j)%nat = 0) ->
  draws (p + k)%nat <> 0 ->
  resample fuel (draws p) (mkSource draws (S p))
  = Some (draws (p + k)%nat, mkSource draws (S (p + k))).
Proof.
  induction k as [|k IH]; intros fuel draws p Hf Hz Hnz.
  - rewrite Nat.add_0_r in *.
    destruct fuel; cbn [resample]; rewrite feq_false by exact Hnz; reflexivity.
  - destruct fuel as [|fuel]; [lia|].
    cbn [resample].
    assert (Hx : draws p = 0)
      by (specialize (Hz 0%nat); rewrite Nat.add_0_r in Hz; apply Hz; lia).
    unfold feq. destruct (Req_dec_T (draws p) 0); [|contradiction].
    unfold next_draw. cbn [src_draws src_pos].
    rewrite (IH fuel draws (S p)).
    + rewrite Nat.add_succ_r. reflexivity.
    + lia.
    + intros j Hj. specialize (Hz (S j)). rewrite Nat.add_succ_r in Hz.
      apply Hz. lia.
    + rewrite Nat.add_succ_r in Hnz. exact Hnz.
Qed.

(** X8: [random()] never returns 0: it returns the first draw of
    [pyrandom.random()] that is not 0 and has then read that draw and the
    zeros before it; a value it returns from draws of [0, 1) lies in
    (0, 1). *)
Theorem random_skips_zeros :
  forall (fuel k : nat) (raw : Source),
    (forall x raw', random fuel raw = Some (x, raw') -> x <> 0) /\
    ((k <= fuel)%nat ->
     (forall j, (j < k)%nat -> src_draws raw (src_pos raw + j)%nat = 0) ->
     src_draws raw (src_pos raw + k)%nat <> 0 ->
     random fuel raw
     = Some (src_draws raw (src_pos raw + k)%nat,
             mkSource (src_draws raw) (src_pos raw + S k))) /\
    ((forall j, 0 <= src_draws raw j < 1) ->
     forall x raw', random fuel raw = Some (x, raw') ->
                    0 < x < 1 /\ (src_pos raw < src_pos raw')%nat).
Proof.
  intros fuel k raw. split; [|split].
  - intros x raw' H. unfold random in H.
    destruct (next_draw raw) as [x0 raw0]. apply (resample_nonzero _ _ _ _ _ H).
  - intros Hf Hz Hnz. destruct raw as [draws pos]. cbn [src_draws src_pos] in *.
    unfold random, next_draw. cbn [src_draws src_pos].
    rewrite (resample_skips k fuel draws pos Hf Hz Hnz).
    rewrite Nat.add_succ_r. reflexivity.
  - intros Hr x raw' H.
    assert (Hnz : x <> 0).
    { unfold random in H. destruct (next_draw raw) as [x0 raw0].
      apply (resample_nonzero _ _ _ _ _ H). }
    assert (G : forall f y r, resample f y r = Some (x, raw') ->
                src_draws r = src_draws raw ->
                (exists j, y = src_draws raw j) ->
                (exists j, x = src_draws raw j) /\ (src_pos r <= src_pos raw')%nat).
    { induction f as [|f IH]; intros y r Hy Hd Hj; cbn [resample] in Hy.
      - unfold feq in Hy. destruct (Req_dec_T y 0); [discriminate|].
        inversion Hy; subst. split; [exact Hj|lia].
      - unfold feq in Hy. destruct (Req_dec_T y 0).
        + unfold next_draw in Hy.
          destruct (IH _ _ Hy) as [Hx Hp].
          * cbn [src_draws]. exact Hd.
          * exists (src_pos r). rewrite Hd. reflexivity.
          * split; [exact Hx|]. cbn [src_pos] in Hp. lia.
        + inversion Hy; subst. split; [exact Hj|lia]. }
    unfold random, next_draw in H.
    destruct (G _ _ _ H) as [[j Hj] Hp].
    + reflexivity.
    + exists (src_pos raw). reflexivity.
    + cbn [src_pos] in Hp. split; [|lia].
      specialize (Hr j). rewrite <- Hj in Hr. lra.
Qed.

Lemma random_skips_zeros_witness :
  random 2 (mkSource (fun j => match j with 2%nat => 1 / 2 | _ => 0 end) 0)
  = Some (1 / 2, mkSource (fun j => match j with 2%nat => 1 / 2 | _ => 0 end) 3).
Proof.
  destruct (random_skips_zeros 2 2
              (mkSource (fun j => match j with 2%nat => 1 / 2 | _ => 0 end) 0))
    as (_ & H & _).
  cbn [src_draws src_pos Nat.add] in H. apply H.
  - lia.
  - intros j Hj. destruct j as [|[|j]]; [reflexivity|reflexivity|lia].
  - lra.
Defined.


(* ====================================================================== *)
(** * [shuffle] and [sample] *)
(* ====================================================================== *)

Lemma replace_at_length : forall (A : Type) (k : nat) (a : A) (l : list A),
  length (replace_at k a l) = length l.
Proof.
  intros A k a l. revert k. induction l as [|h t IH]; intros [|k]; cbn; auto.
Qed.

Lemma replace_at_In : forall (A : Type) (k : nat) (a x : A) (l : list A),
  In x (replace_at k a l) -> x = a \/ In x l.
Proof.
  intros A k a x l. revert k. induction l as [|h t IH]; intros [|k] H; cbn in *.
  - contradiction.
  - contradiction.
  - destruct H as [H|H]; [left; congruence | right; right; exact H].
  - destruct H as [H|H]; [right; left; exact H|].
    destruct (IH k H) as [E|E]; [left; exact E | right; right; exact E].
Qed.

Lemma replace_at_perm : forall (A : Type) (j : nat) (h b : A) (t : list A),
  nth_error t j = Some b -> Permutation (h :: t) (b :: replace_at j h t).
Proof.
  intros A j h b t. revert j. induction t as [|c t IH]; intros [|j] H; cbn in *;
    try discriminate.
  - inversion H; subst. apply perm_swap.
  - apply perm_trans with (c :: h :: t); [apply perm_swap|].
    apply perm_trans with (c :: b :: replace_at j h t);
      [apply perm_skip, IH, H | apply perm_swap].
Qed.

(** Two assignments that exchange two elements leave a permutation. *)
Lemma exchange_perm : forall (A : Type) (l : list A) (i j : nat) (a b : A),
  nth_error l i = Some a -> nth_error l j = Some b ->
  Permutation l (replace_at j a (replace_at i b l)).
Proof.
  intros A l. induction l as [|h t IH]; intros i j a b Hi Hj.
  - destruct i; discriminate.
  - destruct i as [|i], j as [|j]; cbn in *.
    + inversion Hi; inversion Hj; subst. apply Permutation_refl.
    + inversion Hi; subst. apply replace_at_perm. exact Hj.
    + inversion Hj; subst. apply replace_at_perm. exact Hi.
    + apply perm_skip. apply IH; assumption.
Qed.

(** An index that [l[k]] accepts names a position of the list, the same for
    every list of that length. *)
Lemma py_getitem_inv : forall (A : Type) (l : list A) (k : Z) (a : A),
  py_getitem l k = Ok a ->
  exists i, nth_error l i = Some a /\
            forall (l' : list A) (b : A), length l' = length l ->
              py_setitem l' k b = Ok (replace_at i b l').
Proof.
  intros A l k a H. unfold py_getitem in H. cbv zeta in H.
  destruct ((0 <=? (if (k <? 0)%Z then (Z.of_nat (length l) + k)%Z else k))%Z
            && ((if (k <? 0)%Z then (Z.of_nat (length l) + k)%Z else k)
                <? Z.of_nat (length l))%Z)%bool eqn:E; [|discriminate].
  destruct (nth_error l _) as [a'|] eqn:En; [|discriminate].
  inversion H; subst a'.
  eexists. split; [exact En|].
  intros l' b Hl. unfold py_setitem. cbv zeta. rewrite Hl, E. reflexivity.
Qed.

Lemma py_getitem_nonneg : forall (A : Type) (l : list A) (k : nat),
  py_getitem l (Z.of_nat k)
  = match nth_error l k with Some a => Ok a | None => Raise IndexError end.
Proof.
  intros A l k. unfold py_getitem. cbv zeta.
  replace (Z.of_nat k <? 0)%Z with false by (symmetry; apply Z.ltb_ge; lia).
  replace (0 <=? Z.of_nat k)%Z with true by (symmetry; apply Z.leb_le; lia).
  rewrite Nat2Z.id. cbn [andb].
  destruct (Z.of_nat k <? Z.of_nat (length l))%Z eqn:E; [reflexivity|].
  apply Z.ltb_ge in E.
  replace (nth_error l k) with (@None A); [reflexivity|].
  symmetry. apply nth_error_None. lia.
Qed.

Lemma py_setitem_nonneg : forall (A : Type) (l : list A) (k : nat) (a : A),
  (k < length l)%nat -> py_setitem l (Z.of_nat k) a = Ok (replace_at k a l).
Proof.
  intros A l k a H. unfold py_setitem. cbv zeta.
  replace (Z.of_nat k <? 0)%Z with false by (symmetry; apply Z.ltb_ge; lia).
  replace (0 <=? Z.of_nat k)%Z with true by (symmetry; apply Z.leb_le; lia).
  replace (Z.of_nat k <? Z.of_nat (length l))%Z with true
    by (symmetry; apply Z.ltb_lt; lia).
  rewrite Nat2Z.id. reflexivity.
Qed.

Lemma equilikely_bounds : forall a b tok,
  (a <= b)%Z -> 0 <= peek tok < 1 -> (a <= fst (equilikely a b tok) <= b)%Z.
Proof.
  intros a b tok Hab [H0 H1]. unfold equilikely, next_draw. fold (peek tok).
  cbn [fst].
  assert (Hn : 0 < IZR (b - a + 1)) by (apply IZR_lt; lia).
  rewrite py_int_floor by (apply Rmult_le_pos; lra).
  assert (Hr : 0 <= IZR (b - a + 1) * peek tok < IZR (b - a + 1)) by nra.
  pose proof (Int_part_range _ _ Hr). lia.
Qed.

Lemma equilikely_source : forall a b tok,
  snd (equilikely a b tok) = mkSource (src_draws tok) (S (src_pos tok)).
Proof. intros a b tok. reflexivity. Qed.

Lemma shuffle_loop_perm : forall (A : Type) (len : Z) (idxs : list nat)
  (arr : list A) (tok : Source),
  Permutation arr (fst (snd (shuffle_loop len idxs arr tok))).
Proof.
  intros A len idxs. induction idxs as [|index rest IH]; intros arr tok.
  - apply Permutation_refl.
  - cbn [shuffle_loop].
    destruct (equilikely (Z.of_nat index) (len - 1) tok) as [swap tok'].
    destruct (py_getitem arr swap) as [hold|e] eqn:E1; [|apply Permutation_refl].
    destruct (py_getitem arr (Z.of_nat index)) as [x|e] eqn:E2;
      [|apply Permutation_refl].
    destruct (py_getitem_inv _ _ _ _ E1) as (i & Hi & Si).
    destruct (py_getitem_inv _ _ _ _ E2) as (j & Hj & Sj).
    rewrite (Si arr x eq_refl).
    rewrite (Sj (replace_at i x arr) hold (replace_at_length _ _ _ _)).
    eapply perm_trans; [|apply IH].
    apply exchange_perm; assumption.
Qed.

Lemma shuffle_loop_valid : forall (A : Type) (k i : nat) (arr : list A)
  (tok : Source),
  (forall j, 0 <= src_draws tok j < 1) ->
  (i + k < length arr)%nat ->
  exists arr',
    shuffle_loop (Z.of_nat (length arr)) (seq i k) arr tok
    = (Ok tt, (arr', mkSource (src_draws tok) (src_pos tok + k))) /\
    firstn i arr' = firstn i arr.
Proof.
  intros A k. induction k as [|k IH]; intros i arr tok Hv Hlen.
  - exists arr. cbn [seq shuffle_loop]. rewrite Nat.add_0_r.
    destruct tok. split; reflexivity.
  - cbn [seq shuffle_loop].
    pose proof (equilikely_bounds (Z.of_nat i) (Z.of_nat (length arr) - 1) tok)
      as Hb.
    pose proof (equilikely_source (Z.of_nat i) (Z.of_nat (length arr) - 1) tok)
      as Hs.
    destruct (equilikely (Z.of_nat i) (Z.of_nat (length arr) - 1) tok)
      as [swap tok'].
    cbn [fst snd] in Hb, Hs. subst tok'.
    assert (Hsw : (Z.of_nat i <= swap <= Z.of_nat (length arr) - 1)%Z)
      by (apply Hb; [lia | apply Hv]).
    replace swap with (Z.of_nat (Z.to_nat swap)) by lia.
    assert (Hsn : (i <= Z.to_nat swap < length arr)%nat) by lia.
    rewrite !py_getitem_nonneg.
    destruct (nth_error arr (Z.to_nat swap)) as [hold|] eqn:E1;
      [|apply nth_error_None in E1; lia].
    destruct (nth_error arr i) as [x|] eqn:E2;
      [|apply nth_error_None in E2; lia].
    rewrite py_setitem_nonneg by lia.
    rewrite py_setitem_nonneg by (rewrite replace_at_length; lia).
    set (arr2 := replace_at i hold (replace_at (Z.to_nat swap) x arr)).
    assert (Hl2 : length arr2 = length arr)
      by (unfold arr2; rewrite !replace_at_length; reflexivity).
    destruct (IH (S i) arr2 (mkSource (src_draws tok) (S (src_pos tok))))
      as (arr' & Heq & Hpre).
    + cbn [src_draws]. exact Hv.
    + lia.
    + rewrite Hl2 in Heq. cbn [src_draws src_pos] in Heq.
      exists arr'. split.
      * rewrite Heq. do 3 f_equal. lia.
      * assert (G : forall (n m : nat) (a : A) (l : list A), (n <= m)%nat ->
                    firstn n (replace_at m a l) = firstn n l).
        { intros n m a l. revert n m.
          induction l as [|h t IHl]; intros [|n] [|m] Hnm; cbn; try reflexivity;
            try lia.
          f_equal. apply IHl. lia. }
        apply (f_equal (firstn i)) in Hpre.
        rewrite !firstn_firstn in Hpre.
        replace (Nat.min i (S i)) with i in Hpre by lia.
        rewrite Hpre. unfold arr2. rewrite !G by lia. reflexivity.
Qed.

(** X9: [shuffle] only exchanges elements: whatever the draws, and also
    when an index that they give is refused with [IndexError], the array is
    left a permutation of what it was.  With draws in [0, 1) it returns and
    has read one draw for each element but the last, none for an array of
    at most one element. *)
Theorem shuffle_permutes :
  forall (A : Type) (arr : list A) (tok : Source),
    Permutation arr (fst (snd (shuffle arr tok))) /\
    ((forall j, 0 <= src_draws tok j < 1) ->
     fst (shuffle arr tok) = Ok tt /\
     snd (snd (shuffle arr tok))
     = mkSource (src_draws tok) (src_pos tok + (length arr - 1))).
Proof.
  intros A arr tok. split.
  - unfold shuffle. apply shuffle_loop_perm.
  - intro Hv. unfold shuffle.
    destruct arr as [|a arr0].
    + cbn. rewrite Nat.add_0_r. destruct tok. split; reflexivity.
    + destruct (shuffle_loop_valid A (length (a :: arr0) - 1) 0 (a :: arr0) tok Hv)
        as (arr' & Heq & _).
      * cbn [length]. lia.
      * rewrite Heq. split; reflexivity.
Qed.

Lemma shuffle_permutes_witness :
  fst (shuffle [1%nat; 2%nat; 3%nat] (const_source (1 / 2))) = Ok tt /\
  src_pos (snd (snd (shuffle [1%nat; 2%nat; 3%nat] (const_source (1 / 2))))) = 2%nat.
Proof.
  destruct (shuffle_permutes nat [1%nat; 2%nat; 3%nat] (const_source (1 / 2)))
    as (_ & H).
  destruct H as (H1 & H2).
  - intro j. unfold const_source. cbn. lra.
  - split; [exact H1|]. rewrite H2. reflexivity.
Defined.

(* ---------------------------------------------------------------------- *)

Lemma sample_fill_spec : forall (A : Type) (k : nat) (arr data : list A),
  data = firstn (length data) arr ->
  (length data <= length arr)%nat ->
  sample_fill (seq (length data) k) arr data
  = if (length data + k <=? length arr)%nat
    then inl (firstn (length data + k) arr)
    else inr arr.
Proof.
  intros A k. induction k as [|k IH]; intros arr data Hd Hl.
  - cbn [seq sample_fill]. rewrite Nat.add_0_r.
    replace (length data <=? length arr)%nat with true
      by (symmetry; apply Nat.leb_le; exact Hl).
    rewrite <- Hd. reflexivity.
  - cbn [seq sample_fill]. rewrite py_getitem_nonneg.
    destruct (nth_error arr (length data)) as [a|] eqn:E.
    + assert (Hlt : (length data < length arr)%nat)
        by (apply nth_error_Some; rewrite E; discriminate).
      assert (Hd' : data ++ [a] = firstn (S (length data)) arr).
      { rewrite Hd at 1. clear - E. revert E.
        generalize (length data) as n. intro n. revert arr.
        induction n as [|n IHn]; intros [|h t] E; cbn in *; try discriminate.
        - inversion E. reflexivity.
        - f_equal. apply IHn. exact E. }
      replace (S (length data)) with (length (data ++ [a]))
        by (rewrite length_app; cbn; lia).
      rewrite IH.
      * rewrite length_app. cbn [length].
        replace (length data + 1 + k)%nat with (length data + S k)%nat by lia.
        reflexivity.
      * rewrite length_app. cbn [length].
        replace (length data + 1)%nat with (S (length data)) by lia. exact Hd'.
      * rewrite length_app. cbn [length]. lia.
    + apply nth_error_None in E.
      assert (El : length data = length arr) by lia.
      replace (length data + S k <=? length arr)%nat with false
        by (symmetry; apply Nat.leb_gt; lia).
      rewrite Hd, El. rewrite firstn_all. reflexivity.
Qed.

Lemma py_range_empty : forall lo hi, (hi <= lo)%Z -> py_range lo hi = [].
Proof.
  intros lo hi H. unfold py_range.
  replace (Z.to_nat (hi - lo)) with 0%nat by lia. reflexivity.
Qed.

Lemma py_range_In : forall lo hi i, In i (py_range lo hi) -> (lo <= i < hi)%Z.
Proof.
  intros lo hi i H. unfold py_range in H. apply in_map_iff in H.
  destruct H as (k & <- & Hk). apply in_seq in Hk. lia.
Qed.

(** What the second loop keeps: the size of the sample, and that it holds
    elements of the population only. *)
Lemma sample_replace_keeps : forall (A : Type) (ssize : Z) (idxs : list Z)
  (arr data : list A) (token : option Source) (rng : Source) data' srcs,
  sample_replace ssize idxs arr data token rng = (Ok data', srcs) ->
  incl data arr ->
  length data' = length data /\ incl data' arr.
Proof.
  intros A ssize idxs. induction idxs as [|i rest IH];
    intros arr data token rng data' srcs H Hin; cbn [sample_replace] in H.
  - inversion H; subst. split; [reflexivity | exact Hin].
  - destruct (py_getitem arr i) as [val|e] eqn:E1; [|discriminate].
    destruct (i + 1 =? 0)%Z; [discriminate|].
    destruct (bernouli (IZR ssize / IZR (i + 1)) rng) as [hit rng1].
    destruct hit.
    + destruct (draw_with (equilikely 0 (ssize - 1)) token rng1) as [j srcs1].
      destruct (py_setitem data j val) as [data1|e] eqn:E2; [|discriminate].
      destruct (IH _ _ _ _ _ _ H) as [Hl Hi'].
      * unfold py_setitem in E2. cbv zeta in E2.
        destruct (_ && _)%bool in E2; [|discriminate].
        inversion E2; subst data1.
        intros x Hx. apply replace_at_In in Hx. destruct Hx as [Hx|Hx].
        -- subst x. destruct (py_getitem_inv _ _ _ _ E1) as (n & Hn & _).
           apply (nth_error_In _ _ Hn).
        -- apply Hin. exact Hx.
      * split; [|exact Hi'].
        rewrite Hl. unfold py_setitem in E2. cbv zeta in E2.
        destruct (_ && _)%bool in E2; [|discriminate].
        inversion E2. apply replace_at_length.
    + apply (IH _ _ _ _ _ _ H Hin).
Qed.

Lemma bernouli_zero : forall rng,
  src_draws rng (src_pos rng) < 1 -> fst (bernouli 0 rng) = false.
Proof.
  intros rng H. unfold bernouli, next_draw. cbn [fst].
  apply fle_false. lra.
Qed.

Lemma sample_replace_valid : forall (A : Type) (ssize : Z) (idxs : list Z)
  (arr data : list A) (token : option Source) (rng : Source),
  (0 <= ssize)%Z ->
  length data = Z.to_nat ssize ->
  (forall i, In i idxs -> (0 <= i < Z.of_nat (length arr))%Z) ->
  (forall j, 0 <= src_draws rng j < 1) ->
  (forall t, token = Some t -> forall j, 0 <= src_draws t j < 1) ->
  exists data' srcs,
    sample_replace ssize idxs arr data token rng = (Ok data', srcs).
Proof.
  intros A ssize idxs. induction idxs as [|i rest IH];
    intros arr data token rng Hs Hl Hi Hr Ht; cbn [sample_replace].
  - eexists. eexists. reflexivity.
  - assert (Hi0 : (0 <= i < Z.of_nat (length arr))%Z) by (apply Hi; left; reflexivity).
    assert (Eg : py_getitem arr i
                 = match nth_error arr (Z.to_nat i) with
                   | Some a => Ok a
                   | None => Raise IndexError
                   end).
    { rewrite <- (py_getitem_nonneg A arr (Z.to_nat i)).
      rewrite Z2Nat.id by lia. reflexivity. }
    rewrite Eg. clear Eg.
    destruct (nth_error arr (Z.to_nat i)) as [val|] eqn:E;
      [|apply nth_error_None in E; lia].
    replace (i + 1 =? 0)%Z with false by (symmetry; apply Z.eqb_neq; lia).
    pose proof (bernouli_zero rng) as Hz.
    destruct (bernouli (IZR ssize / IZR (i + 1)) rng) as [hit rng1] eqn:Eb.
    assert (Hr1 : forall j, 0 <= src_draws rng1 j < 1).
    { unfold bernouli, next_draw in Eb. inversion Eb; subst. exact Hr. }
    destruct hit.
    + assert (Hpos : (1 <= ssize)%Z).
      { destruct (Z.eq_dec ssize 0) as [E0|E0]; [|lia].
        subst ssize. assert (Hf : fst (bernouli 0 rng) = false)
          by (apply Hz; apply Hr).
        replace (IZR 0 / IZR (i + 1)) with 0 in Eb by (unfold Rdiv; lra).
        rewrite Eb in Hf. discriminate. }
      unfold draw_with.
      destruct token as [t|].
      * pose proof (equilikely_bounds 0 (ssize - 1) t) as Hb.
        pose proof (equilikely_source 0 (ssize - 1) t) as Hsrc.
        destruct (equilikely 0 (ssize - 1) t) as [j t'].
        cbn [fst snd] in Hb, Hsrc.
        assert (Hj : (0 <= j <= ssize - 1)%Z)
          by (apply Hb; [lia | apply (Ht t eq_refl)]).
        replace j with (Z.of_nat (Z.to_nat j)) by lia.
        rewrite py_setitem_nonneg by lia.
        cbn [fst snd].
        apply IH.
        -- exact Hs.
        -- rewrite replace_at_length. exact Hl.
        -- intros i' Hi'. apply Hi. right. exact Hi'.
        -- exact Hr1.
        -- intros t0 E0. inversion E0; subst t0. rewrite Hsrc. cbn [src_draws].
           apply (Ht t eq_refl).
      * pose proof (equilikely_bounds 0 (ssize - 1) rng1) as Hb.
        pose proof (equilikely_source 0 (ssize - 1) rng1) as Hsrc.
        destruct (equilikely 0 (ssize - 1) rng1) as [j rng2].
        cbn [fst snd] in Hb, Hsrc.
        assert (Hj : (0 <= j <= ssize - 1)%Z)
          by (apply Hb; [lia | apply Hr1]).
        replace j with (Z.of_nat (Z.to_nat j)) by lia.
        rewrite py_setitem_nonneg by lia.
        cbn [fst snd].
        apply IH.
        -- exact Hs.
        -- rewrite replace_at_length. exact Hl.
        -- intros i' Hi'. apply Hi. right. exact Hi'.
        -- rewrite Hsrc. cbn [src_draws]. exact Hr1.
        -- intros t0 E0. discriminate.
    + apply IH.
      * exact Hs.
      * exact Hl.
      * intros i' Hi'. apply Hi. right. exact Hi'.
      * exact Hr1.
      * exact Ht.
Qed.

(** X10: a sample at least as large as the population is the population
    itself, in its order, and no draw is read for it. *)
Theorem sample_whole_population :
  forall (A : Type) (arr : list A) (ssize : Z) (token : option Source)
         (rng : Source),
    (Z.of_nat (length arr) <= ssize)%Z ->
    sample arr ssize token rng = (Ok arr, (token, rng)).
Proof.
  intros A arr ssize token rng H. unfold sample.
  pose proof (sample_fill_spec A (Z.to_nat ssize) arr [] eq_refl) as Hf.
  cbn [length Nat.add] in Hf. rewrite Hf by lia. clear Hf.
  destruct (Z.to_nat ssize <=? length arr)%nat eqn:E; [|reflexivity].
  apply Nat.leb_le in E.
  assert (El : Z.to_nat ssize = length arr) by lia.
  rewrite El, firstn_all.
  rewrite py_range_empty by exact H. reflexivity.
Qed.

Lemma sample_whole_population_witness :
  sample [1%nat; 2%nat] 5 None (const_source (1 / 2))
  = (Ok [1%nat; 2%nat], (None, const_source (1 / 2))).
Proof.
  apply sample_whole_population. cbn. lia.
Defined.

(** X11: for a size from 0 to the size of the population, the sample that
    [sample] returns has that size and holds elements of the population
    only; and it does return when [random()] and the token give draws of
    [0, 1). *)
Theorem sample_size_and_members :
  forall (A : Type) (arr : list A) (ssize : Z) (token : option Source)
         (rng : Source),
    (0 <= ssize <= Z.of_nat (length arr))%Z ->
    (forall data srcs,
       sample arr ssize token rng = (Ok data, srcs) ->
       length data = Z.to_nat ssize /\ incl data arr) /\
    ((forall j, 0 <= src_draws rng j < 1) ->
     (forall t, token = Some t -> forall j, 0 <= src_draws t j < 1) ->
     exists data srcs, sample arr ssize token rng = (Ok data, srcs)).
Proof.
  intros A arr ssize token rng H. unfold sample.
  pose proof (sample_fill_spec A (Z.to_nat ssize) arr [] eq_refl) as Hf.
  cbn [length Nat.add] in Hf. rewrite Hf by lia. clear Hf.
  replace (Z.to_nat ssize <=? length arr)%nat with true
    by (symmetry; apply Nat.leb_le; lia).
  assert (Hlen : length (firstn (Z.to_nat ssize) arr) = Z.to_nat ssize)
    by (apply firstn_length_le; lia).
  assert (Hin : incl (firstn (Z.to_nat ssize) arr) arr).
  { intros x Hx. rewrite <- (firstn_skipn (Z.to_nat ssize) arr).
    apply in_or_app. left. exact Hx. }
  split.
  - intros data srcs Hd.
    destruct (sample_replace_keeps _ _ _ _ _ _ _ _ _ Hd Hin) as [Hl Hi].
    split; [congruence | exact Hi].
  - intros Hr Ht. apply sample_replace_valid; try assumption; try lia.
    intros i Hi. apply py_range_In in Hi. lia.
Qed.

Lemma sample_size_and_members_witness :
  exists data srcs,
    sample [1%nat; 2%nat; 3%nat] 2 None (const_source (1 / 2)) = (Ok data, srcs).
Proof.
  destruct (sample_size_and_members nat [1%nat; 2%nat; 3%nat] 2 None
              (const_source (1 / 2))) as (_ & H).
  - cbn. lia.
  - apply H.
    + intro j. unfold const_source. cbn. lra.
    + intros t E. discriminate.
Defined.


(* ====================================================================== *)
(** * The trace reader: whole files, iteration *)
(* ====================================================================== *)

Section TokenFiles.

Variable float_of_str : string -> option R.
Variable generator_stop : bool.

Local Abbreviation nexts := (Token_nexts float_of_str generator_stop).
Local Abbreviation tlist := (Token_list float_of_str generator_stop).

Lemma last_cons : forall (v : R) (vs : list R) (d : R),
  last (v :: vs) d = last vs v.
Proof.
  intros v vs. revert v. induction vs as [|w vs IH]; intros v d.
  - reflexivity.
  - change (last (v :: w :: vs) d) with (last (w :: vs) d).
    rewrite !IH. reflexivity.
Qed.

(** Reading the lines that hold numbers. *)
Lemma Token_nexts_good : forall (vs : list R) (lines rest : list string) (t : Token),
  tok_iter_done t = false ->
  tok_trace t = lines ++ rest ->
  map float_of_str lines = map Some vs ->
  nexts (length vs) t
  = (Ok vs, mkToken rest (last vs (tok_curval t)) (tok_count t + length vs) false
              (tok_stdout t)).
Proof.
  induction vs as [|v vs IH]; intros lines rest t Hd Ht Hp.
  - destruct lines; [|discriminate]. cbn [app] in Ht.
    cbn [length Token_nexts last]. rewrite Nat.add_0_r.
    destruct t as [tr cv ct dn out]. cbn in *. subst. reflexivity.
  - destruct lines as [|line lines]; [discriminate|].
    cbn [map] in Hp. inversion Hp as [[Hline Hrest]].
    cbn [length Token_nexts].
    unfold Token_next, next_iter, Token_iterate. rewrite Hd, Ht.
    cbn [app]. rewrite Hline.
    rewrite (IH lines rest); [| reflexivity | reflexivity | exact Hrest].
    cbn [tok_curval tok_count tok_stdout].
    do 2 f_equal.
    + symmetry. apply last_cons.
    + lia.
Qed.

(** Reading on once the generator has finished. *)
Lemma Token_nexts_dead : forall (m : nat) (t : Token),
  tok_iter_done t = true ->
  nexts m t
  = (Ok (repeat 0 m),
     mkToken (tok_trace t) (tok_curval t) (tok_count t) true
       (tok_stdout t ++ repeat (ReachedEnd (tok_count t)) m)).
Proof.
  induction m as [|m IH]; intros t Hd.
  - cbn [Token_nexts repeat]. rewrite app_nil_r.
    destruct t as [tr cv ct dn out]. cbn in *. subst. reflexivity.
  - cbn [Token_nexts]. unfold Token_next, next_iter. rewrite Hd.
    rewrite IH by (cbn [tok_iter_done]; exact Hd).
    cbn [tok_trace tok_curval tok_count tok_stdout repeat].
    rewrite <- app_assoc. reflexivity.
Qed.

Lemma Token_nexts_add : forall (a b : nat) (t : Token) vs t1,
  nexts a t = (Ok vs, t1) ->
  nexts (a + b) t
  = match nexts b t1 with
    | (Ok ws, t2) => (Ok (vs ++ ws), t2)
    | other => other
    end.
Proof.
  induction a as [|a IH]; intros b t vs t1 H.
  - cbn [Token_nexts] in H. inversion H; subst. cbn [Nat.add app].
    destruct (nexts b t1) as [[ws|e] t2]; reflexivity.
  - cbn [Nat.add Token_nexts] in *.
    destruct (Token_next float_of_str generator_stop t) as [[v|e] t0];
      [|discriminate].
    destruct (nexts a t0) as [[vs0|e] t0'] eqn:E; [|discriminate].
    inversion H; subst. rewrite (IH b t0 vs0 t1 E).
    destruct (nexts b t1) as [[ws|e] t2]; reflexivity.
Qed.

(** The first call past the last line. *)
Lemma Token_next_past_end : forall (t : Token),
  tok_trace t = [] ->
  Token_next float_of_str generator_stop t
  = (Ok 0, mkToken [] (tok_curval t) (tok_count t) true
             (tok_stdout t ++ [ReachedEnd (tok_count t)])).
Proof.
  intros t Ht. unfold Token_next, next_iter, Token_iterate. rewrite Ht.
  destruct (tok_iter_done t) eqn:Hd.
  - destruct t as [tr cv ct dn out]. cbn in *. subst. reflexivity.
  - reflexivity.
Qed.

Lemma Token_nexts_past_end : forall (m : nat) (t : Token),
  tok_trace t = [] ->
  fst (nexts m t) = Ok (repeat 0 m) /\
  tok_trace (snd (nexts m t)) = [] /\
  tok_curval (snd (nexts m t)) = tok_curval t /\
  tok_count (snd (nexts m t)) = tok_count t /\
  tok_stdout (snd (nexts m t))
  = tok_stdout t ++ repeat (ReachedEnd (tok_count t)) m.
Proof.
  intros [|m] t Ht.
  - cbn [Token_nexts fst snd repeat]. rewrite app_nil_r. repeat split. exact Ht.
  - cbn [Token_nexts]. rewrite (Token_next_past_end t Ht).
    rewrite Token_nexts_dead by reflexivity.
    cbn [fst snd tok_trace tok_curval tok_count tok_stdout repeat].
    rewrite <- app_assoc. repeat split.
Qed.

(** [list(token)] on the lines that hold numbers. *)
Lemma Token_list_good : forall (vs : list R) (lines : list string) (t : Token)
  (fuel : nat),
  tok_iter_done t = false ->
  tok_trace t = lines ->
  map float_of_str lines = map Some vs ->
  (length vs < fuel)%nat ->
  tlist fuel t
  = Some (Ok vs, mkToken [] (last vs (tok_curval t)) (tok_count t + length vs) true
                   (tok_stdout t)).
Proof.
  induction vs as [|v vs IH]; intros lines t fuel Hd Ht Hp Hf.
  - destruct lines; [|discriminate].
    destruct fuel as [|fuel]; [cbn in Hf; lia|].
    cbn [Token_list]. unfold TokenIter_next, next_iter, Token_iterate.
    rewrite Hd, Ht. cbn [last length]. rewrite Nat.add_0_r. reflexivity.
  - destruct lines as [|line lines]; [discriminate|].
    cbn [map] in Hp. inversion Hp as [[Hline Hrest]].
    destruct fuel as [|fuel]; [cbn in Hf; lia|].
    cbn [Token_list]. unfold TokenIter_next, next_iter, Token_iterate.
    rewrite Hd, Ht, Hline.
    rewrite (IH lines); [| reflexivity | reflexivity | exact Hrest | cbn in Hf; lia].
    cbn [tok_curval tok_count tok_stdout length].
    do 3 f_equal.
    + symmetry. apply last_cons.
    + lia.
Qed.

Lemma Token_list_dead : forall (t : Token) (fuel : nat),
  tok_iter_done t = true -> tlist (S fuel) t = Some (Ok [], t).
Proof.
  intros t fuel Hd. cbn [Token_list]. unfold TokenIter_next, next_iter.
  rewrite Hd. reflexivity.
Qed.

End TokenFiles.

(** X12: on a trace file all of whose lines hold numbers, the first calls
    of [Token.next] return the numbers in order and count them; every call
    after the last line returns 0.0, prints the diagnostic with the number
    of lines, and counts nothing; this with or without PEP 479. *)
Theorem Token_reads_file_then_zeros :
  forall (float_of_str : string -> option R) (gs : bool)
         (lines : list string) (vs : list R) (m : nat),
    map float_of_str lines = map Some vs ->
    let r := Token_nexts float_of_str gs (length vs + m) (Token_init lines) in
    fst r = Ok (vs ++ repeat 0 m) /\
    tok_count (snd r) = length vs /\
    tok_curval (snd r) = last vs (-1) /\
    tok_stdout (snd r) = repeat (ReachedEnd (length vs)) m.
Proof.
  intros float_of_str gs lines vs m Hp r. subst r.
  pose proof (Token_nexts_good float_of_str gs vs lines [] (Token_init lines)
                eq_refl (eq_sym (app_nil_r _)) Hp) as H1.
  rewrite (Token_nexts_add float_of_str gs _ m _ _ _ H1).
  match goal with
  | |- context [Token_nexts float_of_str gs m ?t] =>
      destruct (Token_nexts_past_end float_of_str gs m t eq_refl)
        as (E1 & _ & E3 & E4 & E5);
      destruct (Token_nexts float_of_str gs m t) as [[ws|e] t2]
  end; cbn [fst snd tok_trace tok_curval tok_count tok_stdout Token_init] in *;
    [|discriminate].
  inversion E1; subst ws. repeat split; assumption.
Qed.

Lemma Token_reads_file_then_zeros_witness :
  fst (Token_nexts decimal_of_str true (2 + 1) (Token_init ["12"; "7"]%string))
  = Ok ([INR 12; INR 7] ++ repeat 0 1).
Proof.
  apply (Token_reads_file_then_zeros decimal_of_str true ["12"; "7"]%string
           [INR 12; INR 7] 1).
  unfold decimal_of_str. cbn [map].
  replace (digits_value 0 "12") with (Some 12%nat) by (vm_compute; reflexivity).
  replace (digits_value 0 "7") with (Some 7%nat) by (vm_compute; reflexivity).
  reflexivity.
Defined.

(** X13: [Token.next] and iteration read the same generator: after [k]
    calls of [next] on a file all of whose lines hold numbers, [list(token)]
    gives the numbers that remain, in order, and the count is then the
    number of lines; a second [list(token)] is empty, the iterator is not
    reset. *)
Theorem Token_iteration_takes_the_rest :
  forall (float_of_str : string -> option R) (gs : bool)
         (lines : list string) (vs : list R) (k fuel : nat),
    map float_of_str lines = map Some vs ->
    (k <= length vs)%nat ->
    (length vs - k < fuel)%nat ->
    let t1 := snd (Token_nexts float_of_str gs k (Token_init lines)) in
    exists t2,
      Token_list float_of_str gs fuel t1 = Some (Ok (skipn k vs), t2) /\
      tok_count t2 = length vs /\
      Token_list float_of_str gs fuel t2 = Some (Ok [], t2).
Proof.
  intros float_of_str gs lines vs k fuel Hp Hk Hf t1. subst t1.
  assert (Hl : length lines = length vs).
  { apply (f_equal (@length _)) in Hp. rewrite !length_map in Hp. exact Hp. }
  assert (Hp1 : map float_of_str (firstn k lines) = map Some (firstn k vs))
    by (rewrite <- !firstn_map; rewrite Hp; reflexivity).
  assert (Hp2 : map float_of_str (skipn k lines) = map Some (skipn k vs))
    by (rewrite <- !skipn_map; rewrite Hp; reflexivity).
  assert (Hk1 : length (firstn k vs) = k) by (apply firstn_length_le; exact Hk).
  pose proof (Token_nexts_good float_of_str gs (firstn k vs) (firstn k lines)
                (skipn k lines) (Token_init lines) eq_refl
                (eq_sym (firstn_skipn k lines)) Hp1) as H1.
  rewrite Hk1 in H1. rewrite H1. cbn [snd].
  assert (Hs : length (skipn k vs) = (length vs - k)%nat) by apply length_skipn.
  eexists. split; [|split].
  - apply Token_list_good with (lines := skipn k lines);
      [reflexivity | reflexivity | exact Hp2 | lia].
  - cbn [tok_count Token_init]. lia.
  - destruct fuel as [|fuel]; [lia|]. apply Token_list_dead. reflexivity.
Qed.

Lemma Token_iteration_takes_the_rest_witness :
  exists t2,
    Token_list decimal_of_str true 3
      (snd (Token_nexts decimal_of_str true 1 (Token_init ["12"; "7"]%string)))
    = Some (Ok (skipn 1 [INR 12; INR 7]), t2).
Proof.
  destruct (Token_iteration_takes_the_rest decimal_of_str true ["12"; "7"]%string
              [INR 12; INR 7] 1 3) as (t2 & H & _).
  - unfold decimal_of_str. cbn [map].
    replace (digits_value 0 "12") with (Some 12%nat) by (vm_compute; reflexivity).
    replace (digits_value 0 "7") with (Some 7%nat) by (vm_compute; reflexivity).
    reflexivity.
  - cbn. lia.
  - cbn. lia.
  - exists t2. exact H.
Defined.

(** X14: a line that holds no number ends the stream for good: after the
    call that meets it (a [RuntimeError] under PEP 479, 0.0 with the
    diagnostic without), every later call of [Token.next] returns 0.0 and
    the lines after the malformed one are never read. *)
Theorem Token_stream_ends_at_malformed_line :
  forall (float_of_str : string -> option R) (gs : bool)
         (good : list string) (bad : string) (rest : list string)
         (vs : list R) (m : nat),
    map float_of_str good = map Some vs ->
    float_of_str bad = None ->
    let t1 := snd (Token_nexts float_of_str gs (length vs)
                     (Token_init (good ++ bad :: rest))) in
    let t2 := snd (Token_next float_of_str gs t1) in
    fst (Token_next float_of_str gs t1)
    = (if gs then Raise RuntimeError else Ok 0) /\
    fst (Token_nexts float_of_str gs m t2) = Ok (repeat 0 m) /\
    tok_trace (snd (Token_nexts float_of_str gs m t2)) = rest /\
    tok_count (snd (Token_nexts float_of_str gs m t2)) = length vs.
Proof.
  intros float_of_str gs good bad rest vs m Hp Hb t1 t2. subst t2 t1.
  rewrite (Token_nexts_good float_of_str gs vs good (bad :: rest)
             (Token_init (good ++ bad :: rest)) eq_refl eq_refl Hp).
  cbn [snd].
  unfold Token_next, next_iter, Token_iterate.
  cbn [tok_iter_done tok_trace]. rewrite Hb.
  destruct gs; cbn [exn_eqb andb fst snd];
    rewrite Token_nexts_dead by reflexivity;
    cbn [fst snd tok_trace tok_count Token_init]; repeat split.
Qed.

Lemma Token_stream_ends_at_malformed_line_witness :
  fst (Token_next decimal_of_str true
         (snd (Token_nexts decimal_of_str true 1
                 (Token_init (["12"%string] ++ "abc"%string :: ["7"%string])))))
  = Raise RuntimeError.
Proof.
  apply (Token_stream_ends_at_malformed_line decimal_of_str true ["12"%string]
           "abc"%string ["7"%string] [INR 12] 0).
  - unfold decimal_of_str. cbn [map].
    replace (digits_value 0 "12") with (Some 12%nat) by (vm_compute; reflexivity).
    reflexivity.
  - vm_compute. reflexivity.
Defined.


(* ====================================================================== *)
(** * Rules for methods that return *)
(* ====================================================================== *)

Section RunsRules.

Context {A B : Type}.
Variable I : Simulation -> Prop.

Lemma runs_ret : forall (a : A) (Q : A -> Prop), Q a -> runs I (ret a) Q.
Proof.
  intros a Q HQ s Hs. exists a. cbn. auto.
Qed.

Lemma runs_gets : forall (f : Simulation -> A) (Q : A -> Prop),
  (forall s, I s -> Q (f s)) -> runs I (gets f) Q.
Proof.
  intros f Q HQ s Hs. exists (f s). cbn. auto.
Qed.

Lemma runs_bind : forall (m : M A) (k : A -> M B) (Q1 : A -> Prop) (Q2 : B -> Prop),
  runs I m Q1 ->
  (forall a, Q1 a -> runs I (k a) Q2) ->
  runs I (bind m k) Q2.
Proof.
  intros m k Q1 Q2 Hm Hk s Hs. unfold bind.
  destruct (Hm s Hs) as (a & E & H1 & H2).
  destruct (m s) as [[a'|e] s1]; cbn in *; [|discriminate].
  inversion E; subst a'. apply (Hk a H2 s1 H1).
Qed.

Lemma runs_weaken : forall (m : M A) (Q Q' : A -> Prop),
  runs I m Q -> (forall a, Q a -> Q' a) -> runs I m Q'.
Proof.
  intros m Q Q' Hm HQ s Hs. destruct (Hm s Hs) as (a & E & H1 & H2).
  exists a. auto.
Qed.

Lemma runs_hoare : forall (m : M A) (Q : A -> Prop),
  runs I m Q -> hoare I m (fun a s => I s /\ Q a).
Proof.
  intros m Q Hm s Hs. destruct (Hm s Hs) as (a & E & H1 & H2).
  exists a. auto.
Qed.

Lemma hoare_bind : forall (P : Simulation -> Prop) (m : M A) (k : A -> M B)
  (Q : A -> Simulation -> Prop) (R : B -> Simulation -> Prop),
  hoare P m Q ->
  (forall a, hoare (Q a) (k a) R) ->
  hoare P (bind m k) R.
Proof.
  intros P m k Q R Hm Hk s Hs. unfold bind.
  destruct (Hm s Hs) as (a & E & H1).
  destruct (m s) as [[a'|e] s1]; cbn in *; [|discriminate].
  inversion E; subst a'. apply (Hk a s1 H1).
Qed.

End RunsRules.

Lemma runs_modify : forall (I : Simulation -> Prop) (f : Simulation -> Simulation),
  (forall s, I s -> I (f s)) -> runs I (modify f) anything.
Proof.
  intros I f Hf s Hs. exists tt. cbn. repeat split. apply Hf. exact Hs.
Qed.

Lemma runs_log_append : forall (I : Simulation -> Prop) (line : LogMsg),
  (forall s, I s -> exists l, sim_log s = Some l) ->
  (forall s l, I s -> I (set_log (Some l) s)) ->
  runs I (log_append line) anything.
Proof.
  intros I line Hl Hf s Hs. unfold log_append.
  destruct (Hl s Hs) as (l & E). rewrite E.
  exists tt. cbn. repeat split. apply Hf. exact Hs.
Qed.

Lemma hoare_weaken : forall (A : Type) (P P' : Simulation -> Prop) (m : M A)
  (Q Q' : A -> Simulation -> Prop),
  hoare P m Q -> (forall s, P' s -> P s) -> (forall a s, Q a s -> Q' a s) ->
  hoare P' m Q'.
Proof.
  intros A P P' m Q Q' Hm HP HQ s Hs.
  destruct (Hm s (HP s Hs)) as (a & E & H1). exists a. auto.
Qed.

(* ====================================================================== *)
(** * The events pending in the queue *)
(* ====================================================================== *)

Lemma timers_Permutation : forall q q', Permutation q q' -> timers q = timers q'.
Proof.
  intros q q' H. unfold timers. induction H; cbn [filter].
  - reflexivity.
  - destruct (is_timer x); cbn [length]; congruence.
  - destruct (is_timer x), (is_timer y); reflexivity.
  - congruence.
Qed.

Lemma arrivals_Permutation : forall q q',
  Permutation q q' -> Permutation (arrivals q) (arrivals q').
Proof.
  intros q q' H. unfold arrivals. induction H; cbn [flat_map].
  - apply Permutation_refl.
  - apply Permutation_app_head. exact IHPermutation.
  - rewrite !app_assoc. apply Permutation_app_tail. apply Permutation_app_comm.
  - eapply perm_trans; eassumption.
Qed.

Section QueueFacts.

Context {hq : Heapq}.
Variable is_heap : list Event -> Prop.
Hypothesis HS : HeapqSpec hq is_heap.

Lemma timers_push : forall q e,
  is_heap q ->
  timers (heappush q e) = ((if is_timer e then 1 else 0) + timers q)%nat.
Proof.
  intros q e Hq.
  rewrite (timers_Permutation _ _ (heap_push_perm hq is_heap HS q e Hq)).
  unfold timers. cbn [filter]. destruct (is_timer e); reflexivity.
Qed.

Lemma arrivals_push : forall q e,
  is_heap q -> Permutation (arrivals (heappush q e)) (arrival_of e ++ arrivals q).
Proof.
  intros q e Hq.
  apply (arrivals_Permutation _ _ (heap_push_perm hq is_heap HS q e Hq)).
Qed.

Lemma length_push : forall q e,
  is_heap q -> length (heappush q e) = S (length q).
Proof.
  intros q e Hq.
  rewrite (Permutation_length (heap_push_perm hq is_heap HS q e Hq)). reflexivity.
Qed.

End QueueFacts.


(* ====================================================================== *)
(** * The handlers return and keep the queue, the light and the
      pedestrians in step *)
(* ====================================================================== *)

Section RunsStrongest.

Context {A : Type}.
Variable I : Simulation -> Prop.

Lemma runs_ret_eq : forall (a : A), runs I (ret a) (eq a).
Proof. intro a. apply runs_ret. reflexivity. Qed.

Lemma runs_gets_from : forall (f : Simulation -> A),
  runs I (gets f) (fun a => exists s, I s /\ a = f s).
Proof.
  intro f. apply runs_gets. intros s Hs. exists s. split; [exact Hs|reflexivity].
Qed.

End RunsStrongest.

(** One step through the term of a method, for a goal [runs I m Q]. *)
Ltac runs_step side known :=
  first [ known |
  lazymatch goal with
  | |- runs _ (bind _ _) _ =>
      eapply runs_bind; [ | intros ? ? ]
  | |- runs _ (ret _) ?Q =>
      first [ is_evar Q; apply runs_ret_eq | apply runs_ret; side ]
  | |- runs _ (gets _) ?Q =>
      first [ is_evar Q; apply runs_gets_from
            | eapply runs_weaken; [apply runs_gets_from | intros ? ?; side] ]
  | |- runs _ (modify _) ?Q =>
      first [ is_evar Q; apply runs_modify; side
            | eapply runs_weaken;
              [apply runs_modify; side | intros ? ?; exact Logic.I] ]
  | |- runs _ (log_append _) ?Q =>
      first [ is_evar Q; apply runs_log_append; side
            | eapply runs_weaken;
              [apply runs_log_append; side | intros ? ?; exact Logic.I] ]
  | |- @runs ?T _ (if ?b then _ else _) ?P =>
      try (is_evar P; unify P (@anything T)); destruct b eqn:?
  | |- @runs ?T _ (match ?x with _ => _ end) ?P =>
      try (is_evar P; unify P (@anything T)); destruct x eqn:?
  end ].

Ltac run_unfold :=
  unfold Run_mid, Run_inv, Run_core, Spawning, Safe_draws, Counted, Bounded,
    Timed, Ped_places,
    Ped_fresh, state, walking, waiting in *.

(** The updates that touch nothing of what [Run_mid] reads. *)
Ltac run_side :=
  idtac;
  intros;
  first [ exact Logic.I
        | run_unfold; proj_simpl;
          first [ assumption | tauto | intuition eauto ] ].

Lemma Run_mid_intro : forall (is_heap : list Event -> Prop) n o s,
  is_heap (sim_queue s) -> Safe_draws s -> Counted s -> Bounded n s ->
  Timed (sim_queue s) s -> Ped_places (sim_queue s) s ->
  (exists l, sim_log s = Some l) -> Ped_fresh o s ->
  Spawning (sim_queue s) s ->
  Run_mid is_heap n o s.
Proof. intros. unfold Run_mid, Run_inv, Run_core. tauto. Qed.

Lemma spawn_pending_Permutation : forall t q q',
  Permutation q q' -> spawn_pending t q -> spawn_pending t q'.
Proof.
  intros t q q' HP (e & Hin & He). exists e. split; [|exact He].
  apply (Permutation_in _ HP). exact Hin.
Qed.

Section RunFacts.

Context {hq : Heapq}.
Variable is_heap : list Event -> Prop.
Hypothesis HS : HeapqSpec hq is_heap.
Variable n : Z.
Variable o : option Z.

Local Abbreviation J := (Run_mid is_heap n o).

Lemma spawn_pending_push : forall t q e,
  is_heap q -> spawn_pending t q -> spawn_pending t (heappush q e).
Proof.
  intros t q e Hq H.
  apply (spawn_pending_Permutation t (e :: q)).
  - apply Permutation_sym. apply (heap_push_perm hq is_heap HS). exact Hq.
  - destruct H as (x & Hin & Hx). exists x. split; [right; exact Hin|exact Hx].
Qed.

Lemma spawn_pending_pushed : forall q e,
  is_heap q -> spawn_pending (ev_type e) (heappush q e).
Proof.
  intros q e Hq.
  apply (spawn_pending_Permutation (ev_type e) (e :: q)).
  - apply Permutation_sym. apply (heap_push_perm hq is_heap HS). exact Hq.
  - exists e. split; [left; reflexivity|reflexivity].
Qed.

(** The spawns pending stay pending when an event is pushed. *)
Lemma Spawning_push : forall q e s s',
  is_heap q -> Spawning q s ->
  sim_npeds s' = sim_npeds s -> sim_ncars s' = sim_ncars s ->
  sim_maxn s' = sim_maxn s ->
  Spawning (heappush q e) s'.
Proof.
  intros q e s s' Hq [H1 H2] E1 E2 E3. unfold Spawning.
  rewrite E1, E2, E3. split; intro H; apply spawn_pending_push; auto.
Qed.

Lemma runs_J_on_buttonrandom : forall (A : Type) (f : Source -> A * Source),
  (forall tok, valid_draws tok -> valid_draws (snd (f tok))) ->
  runs J (on_buttonrandom f) anything.
Proof.
  intros A f Hf s Hs. unfold on_buttonrandom.
  pose proof (Hf (sim_buttonrandom s)) as Hv.
  destruct (f (sim_buttonrandom s)) as [a tok]. cbn [fst snd] in *.
  exists a. split; [reflexivity|]. split; [|exact Logic.I].
  destruct Hs as ((Hsp & Hq & Hd & Hc & Hb & Htm & Hp) & Hl & Hfr).
  apply Run_mid_intro; run_unfold; proj_simpl; try tauto.
Qed.

(** [insert] of an event that is neither a timer nor an arrival. *)
Lemma runs_J_insert : forall delta type id,
  type <> TimerExpire -> type <> PedArrive ->
  runs J (Simulation_insert delta type id) anything.
Proof.
  intros delta type id Ht Ha s Hs. unfold Simulation_insert.
  exists tt. cbn [fst snd]. split; [reflexivity|]. split; [|exact Logic.I].
  destruct Hs as ((Hsp & Hq & Hd & Hc & Hb & Htm & Hp) & Hl & Hf).
  assert (Et : is_timer (mkEvent (sim_time s + delta) type id) = false)
    by (unfold is_timer; cbn; destruct type; try reflexivity; contradiction).
  assert (Ea : arrival_of (mkEvent (sim_time s + delta) type id) = [])
    by (unfold arrival_of; cbn; destruct type; try reflexivity; contradiction).
  apply Run_mid_intro; run_unfold; proj_simpl; try tauto.
  - apply (heap_push hq is_heap HS). exact Hq.
  - rewrite (length_push is_heap HS) by exact Hq. lia.
  - rewrite (timers_push is_heap HS) by exact Hq. rewrite Et. exact Htm.
  - split; [tauto|]. split; [tauto|]. destruct Hp as (_ & _ & Hp).
    eapply perm_trans; [apply (arrivals_push is_heap HS); exact Hq|].
    rewrite Ea. exact Hp.
  - apply (Spawning_push _ _ s); [exact Hq | exact Hsp | | | ]; reflexivity.
Qed.

Lemma is_timer_timer_event : forall t d, is_timer (timer_event t d) = true.
Proof. reflexivity. Qed.

Lemma arrival_of_timer_event : forall t d, arrival_of (timer_event t d) = [].
Proof. reflexivity. Qed.

Lemma runs_J_Light_press : runs J Light_press anything.
Proof.
  intros s Hs.
  pose proof Hs as ((Hsp & Hq & Hd & Hc & Hb & Htm & Hp) & (l & Hl) & Hf).
  destruct (state s) eqn:E.
  - rewrite (Light_press_green s l E Hl). exists tt. cbn [fst snd].
    split; [reflexivity|]. split; [|exact Logic.I].
    unfold Timed in Htm. rewrite E in Htm. cbn in Htm.
    apply Run_mid_intro; run_unfold; proj_simpl; try tauto.
    + apply (heap_push hq is_heap HS). exact Hq.
    + rewrite (length_push is_heap HS) by exact Hq. lia.
    + rewrite (timers_push is_heap HS) by exact Hq.
      rewrite is_timer_timer_event, Htm. reflexivity.
    + split; [tauto|]. split; [tauto|]. destruct Hp as (_ & _ & Hp).
      eapply perm_trans; [apply (arrivals_push is_heap HS); exact Hq|].
      rewrite arrival_of_timer_event. exact Hp.
    + eexists. reflexivity.
    + apply (Spawning_push _ _ s); [exact Hq | exact Hsp | | | ]; reflexivity.
  - exists tt. unfold Light_press, bind, gets. rewrite E. cbn [fst snd ret].
    split; [reflexivity|]. split; [exact Hs|exact Logic.I].
  - exists tt. unfold Light_press, bind, gets. rewrite E. cbn [fst snd ret].
    split; [reflexivity|]. split; [exact Hs|exact Logic.I].
  - exists tt. unfold Light_press, bind, gets, modify. rewrite E. cbn [fst snd].
    split; [reflexivity|]. split; [|exact Logic.I].
    unfold Timed in Htm. rewrite E in Htm. cbn in Htm.
    apply Run_mid_intro; run_unfold; proj_simpl; tauto.
  - exists tt. unfold Light_press, bind, gets. rewrite E. cbn [fst snd ret].
    split; [reflexivity|]. split; [exact Hs|exact Logic.I].
Qed.

Lemma bernouli_valid : forall p tok,
  valid_draws tok -> valid_draws (snd (bernouli p tok)).
Proof. intros p tok H k. apply H. Qed.

Lemma runs_J_press : forall k id, runs J (PedManager_press k id) anything.
Proof.
  intros k id. unfold PedManager_press.
  eapply runs_bind with (Q1 := anything).
  - destruct (k =? 0)%nat; apply runs_J_on_buttonrandom; apply bernouli_valid.
  - intros hit _. destruct hit.
    + eapply runs_bind with (Q1 := anything).
      * apply runs_log_append; run_side.
      * intros _ _. apply runs_J_Light_press.
    + apply runs_ret. exact Logic.I.
Qed.

(** [cross] inside its [try]: either way the statement ends. *)
Lemma runs_J_cross_try : forall ped,
  runs J (try_except (PedManager_cross ped ;; ret true) StopIteration (ret false))
    anything.
Proof.
  intros ped s Hs.
  pose proof Hs as (Hr & (l & Hl) & Hf).
  unfold try_except, PedManager_cross, bind, gets.
  destruct (count s <? MAXPEDS)%nat.
  - unfold modify, log_append. proj_simpl. rewrite Hl.
    cbn [ret fst snd]. exists true. split; [reflexivity|].
    split; [|exact Logic.I].
    apply Run_mid_intro; run_unfold; proj_simpl; try tauto.
    eexists. reflexivity.
  - unfold raise. cbn [exn_eqb ret fst snd]. exists false.
    split; [reflexivity|]. split; [exact Hs|exact Logic.I].
Qed.

Lemma runs_J_getped_peek : forall id,
  runs J (PedManager_getped id false) anything.
Proof.
  intros id s Hs. unfold PedManager_getped.
  destruct (find_ped id (walking s)) as [[i p]|].
  - exists (Some p). cbn [fst snd]. split; [reflexivity|]. split; [exact Hs|exact Logic.I].
  - destruct (find_ped id (waiting s)) as [[i p]|].
    + exists (Some p). cbn [fst snd]. split; [reflexivity|]. split; [exact Hs|exact Logic.I].
    + exists None. cbn [fst snd]. split; [reflexivity|]. split; [exact Hs|exact Logic.I].
Qed.

Lemma runs_J_impatient : forall id, runs J (PedManager_impatient id) anything.
Proof.
  intro id. unfold PedManager_impatient.
  eapply runs_bind with (Q1 := anything); [apply runs_J_getped_peek|].
  intros found _. destruct found as [p|].
  - eapply runs_bind with (Q1 := anything); [apply runs_log_append; run_side|].
    intros _ _.
    eapply runs_bind with (Q1 := anything); [apply runs_J_press|].
    intros _ _. apply runs_J_insert; discriminate.
  - apply runs_ret. exact Logic.I.
Qed.

Lemma runs_J_car_arrive : forall id, runs J (CarManager_arrive id) anything.
Proof.
  intro id. unfold CarManager_arrive.
  repeat (runs_step run_side fail).
Qed.

Lemma runs_J_car_exit : forall id, runs J (CarManager_exit id) anything.
Proof.
  intro id. unfold CarManager_exit.
  repeat (runs_step run_side fail).
Qed.

End RunFacts.


(* ====================================================================== *)
(** * One event of a run *)
(* ====================================================================== *)

Lemma find_ped_some : forall id l i p,
  find_ped id l = Some (i, p) ->
  ped_id p = id /\ In p l /\ Permutation l (p :: remove_at i l).
Proof.
  intros id l. induction l as [|h t IH]; intros i p H; cbn [find_ped] in H.
  - discriminate.
  - destruct (ped_id h =? id)%Z eqn:E.
    + inversion H; subst. apply Z.eqb_eq in E.
      split; [exact E|]. split; [left; reflexivity|]. cbn. apply Permutation_refl.
    + destruct (find_ped id t) as [[j q]|] eqn:F; [|discriminate].
      inversion H; subst. destruct (IH j p eq_refl) as (H1 & H2 & H3).
      split; [exact H1|]. split; [right; exact H2|]. cbn [remove_at].
      eapply perm_trans; [apply perm_skip; exact H3|]. apply perm_swap.
Qed.

Lemma find_ped_In : forall id l,
  In id (map ped_id l) -> exists i p, find_ped id l = Some (i, p).
Proof.
  intros id l. induction l as [|h t IH]; intro H; cbn [find_ped map] in *.
  - contradiction.
  - destruct (ped_id h =? id)%Z eqn:E.
    + eexists. eexists. reflexivity.
    + destruct H as [H|H]; [apply Z.eqb_neq in E; contradiction|].
      destruct (IH H) as (i & p & F). rewrite F. eexists. eexists. reflexivity.
Qed.

Lemma find_ped_absent : forall id l,
  ~ In id (map ped_id l) -> find_ped id l = None.
Proof.
  intros id l H. destruct (find_ped id l) as [[i p]|] eqn:F; [|reflexivity].
  destruct (find_ped_some _ _ _ _ F) as (E & Hin & _).
  exfalso. apply H. rewrite <- E. apply in_map. exact Hin.
Qed.

Lemma NoDup_ids_apart : forall walking_ waiting_ : list Ped,
  NoDup (map ped_id (walking_ ++ waiting_)) -> ids_apart waiting_ walking_.
Proof.
  intros w1 w2 H p Hp. apply find_ped_absent. intro Hin.
  rewrite map_app in H.
  apply (NoDup_app_apart _ _ _ (ped_id p) H Hin). apply in_map. exact Hp.
Qed.

Section RunSteps.

Context {hq : Heapq}.
Variable is_heap : list Event -> Prop.
Hypothesis HS : HeapqSpec hq is_heap.
Variable n : Z.

Lemma hoare_runs_bind : forall (A B : Type) (I : Simulation -> Prop) (m : M A)
  (k : A -> M B) (Q : A -> Prop) (R : B -> Simulation -> Prop),
  runs I m Q -> (forall a, Q a -> hoare I (k a) R) -> hoare I (bind m k) R.
Proof.
  intros A B I m k Q R Hm Hk.
  apply hoare_bind with (Q := fun a s => I s /\ Q a).
  - apply runs_hoare. exact Hm.
  - intros a s [Hs Ha]. apply (Hk a Ha s Hs).
Qed.

Lemma hoare_of_runs : forall (A : Type) (I : Simulation -> Prop) (m : M A)
  (Q : A -> Prop),
  runs I m Q -> hoare I m (fun _ s => I s).
Proof.
  intros A I m Q Hm s Hs. destruct (Hm s Hs) as (a & E & H1 & _).
  exists a. auto.
Qed.

(** [arrive] once it holds the pedestrian: the pedestrian crosses or joins
    the waiting ones. *)
Lemma hoare_arrive_tail : forall id ped,
  ped_id ped = id ->
  hoare (Run_mid is_heap n (Some id))
    (st <- gets state ;;
     we <- gets walkexpire ;;
     time <- gets sim_time ;;
     crossed <-
       (if (LightState_eqb st RED && fle (ped_walktime ped) (we - time))%bool
        then try_except (PedManager_cross ped ;; ret true)
                        StopIteration (ret false)
        else if LightState_eqb st RED
             then log_append (LogPedTooLate id) ;; ret false
             else ret false) ;;
     if crossed : bool then ret tt
     else
       n <- gets (fun s => length (waiting s)) ;;
       PedManager_press n id ;;
       modify (fun s => set_waiting (waiting s ++ [ped]) s) ;;
       log_append (LogPedWaiting id) ;;
       Simulation_insert 60 PedImpatient id)
    (fun _ s => Run_mid is_heap n None s).
Proof.
  intros id ped Hid.
  assert (Hw : forall s, Run_mid is_heap n (Some id) s -> Run_mid is_heap n None s).
  { intros s (H1 & H2 & _). split; [exact H1|]. split; [exact H2|exact Logic.I]. }
  eapply hoare_runs_bind with (Q := anything);
    [apply runs_gets; intros; exact Logic.I|]. intros st _.
  eapply hoare_runs_bind with (Q := anything);
    [apply runs_gets; intros; exact Logic.I|]. intros we _.
  eapply hoare_runs_bind with (Q := anything);
    [apply runs_gets; intros; exact Logic.I|]. intros time _.
  eapply hoare_runs_bind with (Q := anything).
  { destruct (LightState_eqb st RED && fle (ped_walktime ped) (we - time))%bool.
    - apply (runs_J_cross_try is_heap n).
    - destruct (LightState_eqb st RED).
      + eapply runs_bind with (Q1 := anything);
          [apply runs_log_append; run_side|].
        intros _ _. apply runs_ret. exact Logic.I.
      + apply runs_ret. exact Logic.I. }
  intros crossed _. destruct crossed.
  - intros s Hs. exists tt. cbn. split; [reflexivity|]. apply Hw. exact Hs.
  - eapply hoare_runs_bind with (Q := anything);
      [apply runs_gets; intros; exact Logic.I|]. intros k _.
    eapply hoare_runs_bind with (Q := anything);
      [apply (runs_J_press is_heap HS n)|]. intros _ _.
    apply hoare_bind with (Q := fun _ s => Run_mid is_heap n None s).
    + intros s Hs. exists tt. unfold modify. cbn [fst snd].
      split; [reflexivity|].
      destruct Hs as ((Hsp & Hq & Hd & Hc & Hb & Htm & Hnd & Hbd & Hperm) & Hl & Hfr & Hrange).
      apply Run_mid_intro; run_unfold; proj_simpl; try tauto.
      split; [|split; [|exact Hperm]].
      * rewrite app_assoc, map_app. cbn [map]. rewrite Hid.
        apply NoDup_app.
        -- exact Hnd.
        -- repeat constructor. intros [].
        -- intros a Ha [E|[]]. subst a. contradiction.
      * rewrite app_assoc. apply Forall_app. split; [exact Hbd|].
        constructor; [|constructor]. rewrite Hid. exact Hrange.
    + intros _.
      eapply hoare_of_runs with (Q := anything).
      eapply runs_bind with (Q1 := anything);
        [apply runs_log_append; run_side|].
      intros _ _. apply (runs_J_insert is_heap HS n); discriminate.
Qed.

(** [arrive] for an arrival that is pending. *)
Lemma arrive_returns : forall id s,
  is_heap (sim_queue s) -> Safe_draws s -> Counted s -> Bounded n s ->
  Timed (sim_queue s) s ->
  (exists l, sim_log s = Some l) ->
  NoDup (map ped_id (walking s ++ waiting s)) ->
  Forall (fun p => (1 <= ped_id p <= sim_npeds s)%Z) (walking s ++ waiting s) ->
  Permutation (id :: arrivals (sim_queue s)) (map ped_id (walking s)) ->
  Spawning (sim_queue s) s ->
  exists s', PedManager_arrive id s = (Ok tt, s') /\ Run_mid is_heap n None s'.
Proof.
  intros id s Hq Hd Hc Hb Htm Hl Hnd Hbd Hperm Hsp.
  assert (Hin : In id (map ped_id (walking s)))
    by (apply (Permutation_in _ Hperm); left; reflexivity).
  destruct (find_ped_In _ _ Hin) as (i & ped & F).
  destruct (find_ped_some _ _ _ _ F) as (Hid & Hpin & Hpw).
  unfold PedManager_arrive. unfold bind at 1. unfold PedManager_getped at 1.
  rewrite F.
  assert (Hids : Permutation (map ped_id (walking s))
                   (id :: map ped_id (remove_at i (walking s)))).
  { rewrite <- Hid. change (ped_id ped :: map ped_id (remove_at i (walking s)))
      with (map ped_id (ped :: remove_at i (walking s))).
    apply Permutation_map. exact Hpw. }
  assert (Hall : Permutation (map ped_id (walking s ++ waiting s))
                   (id :: map ped_id (remove_at i (walking s) ++ waiting s))).
  { rewrite !map_app. change (id :: ?a ++ ?b) with ((id :: a) ++ b).
    apply Permutation_app_tail. exact Hids. }
  pose proof (Permutation_NoDup Hall Hnd) as Hnd'.
  apply NoDup_cons_iff in Hnd'. destruct Hnd' as [Hx Hl'].
  destruct (hoare_arrive_tail id ped Hid
              (set_walking (remove_at i (walking s)) s)) as (a & E & HR).
  - apply Run_mid_intro; run_unfold; proj_simpl; try tauto.
    + split; [exact Hl'|]. split.
      * rewrite Forall_forall in *. intros p Hp. apply Hbd.
        apply in_app_or in Hp. apply in_or_app. destruct Hp as [Hp|Hp]; [|right; exact Hp].
        left. apply (Permutation_in _ (Permutation_sym Hpw)). right. exact Hp.
      * apply Permutation_cons_inv with (a := id).
        eapply perm_trans; [exact Hperm|exact Hids].
    + split; [exact Hx|]. rewrite Forall_forall in Hbd. rewrite <- Hid.
      apply Hbd. apply in_or_app. left. exact Hpin.
  - match goal with
    | |- exists s', ?m ?s0 = _ /\ _ =>
        destruct (m s0) as [[u|e] s'] eqn:Em; cbn [fst snd] in E, HR;
          [|discriminate]
    end.
    destruct u. exists s'. split; [reflexivity|exact HR].
Qed.

Lemma dispatch_PedArrive : forall g e s,
  ev_type e = PedArrive -> dispatch g e s = PedManager_arrive (ev_id e) s.
Proof.
  intros g e s H. unfold dispatch, bind, gets. rewrite H. reflexivity.
Qed.

Lemma dispatch_PedImpatient : forall g e s,
  ev_type e = PedImpatient -> dispatch g e s = PedManager_impatient (ev_id e) s.
Proof.
  intros g e s H. unfold dispatch, bind, gets. rewrite H. reflexivity.
Qed.

Lemma dispatch_PedSpawn_full : forall g e s,
  ev_type e = PedSpawn -> (sim_npeds s <? sim_maxn s)%Z = false ->
  dispatch g e s = (Ok tt, s).
Proof.
  intros g e s H Hn. unfold dispatch, bind, gets. rewrite H, Hn. reflexivity.
Qed.

(** A pedestrian is spawned: it takes the next id and joins the walking
    ones, its arrival is scheduled, and so is the next spawn. *)
Lemma dispatch_PedSpawn_spawns : forall g e s l,
  ev_type e = PedSpawn -> (sim_npeds s <? sim_maxn s)%Z = true ->
  sim_log s = Some l ->
  valid_draws (sim_pedrandom s) -> 0 < sim_lambdap s ->
  let id := (sim_npeds s + 1)%Z in
  let speed := fst (uniform VKA VKB (sim_pedrandom s)) in
  let tok := snd (uniform VKA VKB (sim_pedrandom s)) in
  let ped := mkPed id (sim_time s) speed ((BLOCKWIDTH + STREETWIDTH) / speed)
               (STREETWIDTH / speed) in
  dispatch g e s
  = (Ok tt,
     set_totalevents (S (S (sim_totalevents s)))
       (set_queue
          (heappush
             (heappush (sim_queue s)
                (mkEvent (sim_time s + ped_atlight ped) PedArrive id))
             (mkEvent (sim_time s + - sim_lambdap s * ln (1 - peek tok)) PedSpawn (-1)))
          (set_pedrandom (snd (next_draw tok))
             (set_log (Some (l ++ [LogPedSpawned id]))
                (set_walking (walking s ++ [ped])
                   (set_npeds id s)))))).
Proof.
  intros g e s l He Hn Hl Hv Hlp id speed tok ped.
  unfold dispatch.
  unfold bind at 1. unfold gets at 1.
  unfold bind at 1. unfold gets at 1.
  unfold bind at 1. unfold gets at 1.
  rewrite He, Hn.
  unfold bind at 1. unfold modify at 1.
  unfold bind at 1. unfold gets at 1.
  unfold bind at 1. unfold Ped_init.
  unfold bind at 1. unfold on_pedrandom at 1. proj_simpl.
  subst ped. fold speed. fold tok.
  destruct (uniform VKA VKB (sim_pedrandom s)) as [sp tk] eqn:Eu.
  cbn [fst snd] in speed, tok. subst speed tok.
  unfold ret at 1.
  unfold bind at 1. unfold PedManager_spawn.
  unfold bind at 1. unfold modify at 1.
  unfold bind at 1. unfold Simulation_insert at 1.
  unfold log_append at 1. proj_simpl. rewrite Hl.
  unfold bind at 1. unfold gets at 1.
  unfold bind at 1. unfold bind at 1. unfold on_pedrandom at 1. proj_simpl.
  assert (Hvt : valid_draws tk).
  { replace tk with (snd (uniform VKA VKB (sim_pedrandom s)))
      by (rewrite Eu; reflexivity).
    apply uniform_draw; [unfold VKA, VKB; lra|exact Hv]. }
  rewrite (exponential_ok (sim_lambdap s) tk Hlp Hvt).
  unfold lift at 1. unfold Simulation_insert at 1.
  reflexivity.
Qed.

End RunSteps.


Lemma NoDup_app_drop_mid : forall (A : Type) (xs ys zs : list A),
  NoDup (xs ++ ys ++ zs) -> NoDup (xs ++ zs).
Proof.
  intros A xs ys. induction ys as [|y ys IH]; intros zs H.
  - exact H.
  - apply IH. cbn [app] in H. apply NoDup_remove_1 in H. exact H.
Qed.

Lemma NoDup_ids_skipn : forall (k : nat) (a b : list Ped),
  NoDup (map ped_id (a ++ b)) -> NoDup (map ped_id (a ++ skipn k b)).
Proof.
  intros k a b H. rewrite map_app in *.
  rewrite <- (firstn_skipn k b) in H. rewrite map_app in H.
  apply NoDup_app_drop_mid in H. exact H.
Qed.

Lemma Forall_app_skipn : forall (P : Ped -> Prop) (k : nat) (a b : list Ped),
  Forall P (a ++ b) -> Forall P (a ++ skipn k b).
Proof.
  intros P k a b H. apply Forall_app in H. destruct H as [Ha Hb].
  apply Forall_app. split; [exact Ha|].
  rewrite <- (firstn_skipn k b) in Hb. apply Forall_app in Hb. tauto.
Qed.

Section RunStep.

Context {hq : Heapq}.
Variable is_heap : list Event -> Prop.
Hypothesis HS : HeapqSpec hq is_heap.
Variable n : Z.

(** The state in which the handler of a popped event starts. *)
Lemma Run_inv_popped : forall s e q',
  Run_inv is_heap n s ->
  heappop (sim_queue s) = Ok (e, q') ->
  Spawning (e :: q') (popped_state e q' s) /\
  is_heap q' /\
  Safe_draws (popped_state e q' s) /\
  Counted (popped_state e q' s) /\
  Bounded n (popped_state e q' s) /\
  Timed (e :: q') (popped_state e q' s) /\
  Ped_places (e :: q') (popped_state e q' s).
Proof.
  intros s e q' (Hsp & Hq & Hd & Hc & Hb & Htm & Hp) Hpop.
  destruct (heap_pop_ok hq is_heap HS _ _ _ Hq Hpop) as (Hq' & Hperm & _).
  split.
  { destruct Hsp as [H1 H2].
    unfold Spawning, popped_state. proj_simpl.
    split; intro H; apply (spawn_pending_Permutation _ _ _ Hperm); auto. }
  split; [exact Hq'|].
  unfold popped_state. run_unfold. proj_simpl.
  split; [tauto|]. split.
  { rewrite (Permutation_length Hperm) in Hc. cbn [length] in Hc. lia. }
  split; [tauto|]. split.
  { rewrite <- (timers_Permutation _ _ Hperm). exact Htm. }
  split; [tauto|]. split; [tauto|].
  destruct Hp as (_ & _ & Hp).
  eapply perm_trans; [|exact Hp].
  apply Permutation_sym. apply arrivals_Permutation. exact Hperm.
Qed.

(** An event that is neither a timer nor an arrival. *)
Lemma popped_quiet_event : forall s e q',
  Run_inv is_heap n s ->
  heappop (sim_queue s) = Ok (e, q') ->
  ev_type e <> TimerExpire -> ev_type e <> PedArrive ->
  Run_core is_heap n (popped_state e q' s) /\
  Spawning (e :: q') (popped_state e q' s).
Proof.
  intros s e q' Hs Hpop Ht Ha.
  destruct (Run_inv_popped s e q' Hs Hpop) as (Hsp & Hq' & Hd & Hc & Hb & Htm & Hp).
  assert (Et : is_timer e = false)
    by (unfold is_timer; destruct (ev_type e); try reflexivity; contradiction).
  assert (Ea : arrival_of e = [])
    by (unfold arrival_of; destruct (ev_type e); try reflexivity; contradiction).
  split; [|exact Hsp].
  split; [exact Hq'|]. split; [exact Hd|]. split; [exact Hc|].
  split; [exact Hb|]. split.
  - unfold Timed, timers in *. cbn [filter] in Htm. rewrite Et in Htm. exact Htm.
  - unfold Ped_places, arrivals in *. cbn [flat_map] in Hp. rewrite Ea in Hp.
    exact Hp.
Qed.

Lemma spawn_pending_tail : forall t e q,
  ev_type e <> t -> spawn_pending t (e :: q) -> spawn_pending t q.
Proof.
  intros t e q Hne (x & [Hx|Hx] & Et).
  - subst x. contradiction.
  - exists x. split; assumption.
Qed.

Lemma Spawning_tail : forall e q s,
  ev_type e <> PedSpawn -> ev_type e <> CarSpawn ->
  Spawning (e :: q) s -> Spawning q s.
Proof.
  intros e q s Hp Hc [H1 H2].
  split; intro H; eapply spawn_pending_tail; eauto.
Qed.

(** An event that is neither a timer, nor an arrival, nor a spawn. *)
Lemma Run_mid_other_event : forall s e q',
  Run_inv is_heap n s ->
  heappop (sim_queue s) = Ok (e, q') ->
  ev_type e <> TimerExpire -> ev_type e <> PedArrive ->
  ev_type e <> PedSpawn -> ev_type e <> CarSpawn ->
  Run_mid is_heap n None (popped_state e q' s).
Proof.
  intros s e q' Hs Hpop Ht Ha Hps Hcs.
  destruct (popped_quiet_event s e q' Hs Hpop Ht Ha) as (Hcore & Hsp).
  split; [|split; [eexists; reflexivity|exact Logic.I]].
  split; [|exact Hcore].
  apply (Spawning_tail e); assumption.
Qed.

Lemma Run_mid_inv : forall o s, Run_mid is_heap n o s -> Run_inv is_heap n s.
Proof. intros o s (H & _). exact H. Qed.

Lemma runs_result : forall (I : Simulation -> Prop) (m : M unit) s,
  runs I m anything -> I s -> exists s', m s = (Ok tt, s') /\ I s'.
Proof.
  intros I m s Hm Hs. destruct (Hm s Hs) as (a & E & H1 & _).
  destruct (m s) as [[u|e] s'] eqn:Em; cbn [fst snd] in *; [|discriminate].
  destruct u. exists s'. split; [reflexivity|exact H1].
Qed.

(** The timer expires. *)
Lemma Run_step_timer : forall g s e q',
  Run_inv is_heap n s ->
  heappop (sim_queue s) = Ok (e, q') ->
  ev_type e = TimerExpire ->
  g <> SimUnbound ->
  exists s', Light_timer g (popped_state e q' s) = (Ok tt, s') /\
             Run_mid is_heap n None s'.
Proof.
  intros g s e q' Hs Hpop He Hg.
  destruct (Run_inv_popped s e q' Hs Hpop) as (Hsp & Hq' & Hd & Hc & Hb & Htm & Hp).
  apply Spawning_tail in Hsp; [| rewrite He; discriminate | rewrite He; discriminate].
  set (s1 := popped_state e q' s) in *.
  assert (Hl : sim_log s1 = Some []) by reflexivity.
  assert (Eq : sim_queue s1 = q') by reflexivity.
  assert (Et : is_timer e = true) by (unfold is_timer; rewrite He; reflexivity).
  assert (Ea : arrival_of e = []) by (unfold arrival_of; rewrite He; reflexivity).
  unfold Timed, timers in Htm. cbn [filter] in Htm. rewrite Et in Htm.
  cbn [length] in Htm. fold (timers q') in Htm.
  unfold Ped_places, arrivals in Hp. cbn [flat_map] in Hp. rewrite Ea in Hp.
  cbn [app] in Hp. fold (arrivals q') in Hp.
  destruct Hp as (Hnd & Hbd & Hperm).
  destruct (state s1) eqn:E; cbn [LightState_eqb] in Htm.
  - discriminate.
  - (* YELLOW *)
    assert (Hap : ids_apart (waiting s1) (walking s1))
      by (apply NoDup_ids_apart; exact Hnd).
    assert (G : forall t, exists s',
              s' = set_totalevents (S (sim_totalevents s1))
                     (set_queue (heappush (sim_queue s1)
                                   (timer_event (sim_time s1) REDTIMEOUT))
                        (set_log (Some (([] ++ [LogRed])
                           ++ map (cross_line (sim_time s1))
                                (firstn MAXPEDS (waiting s1))))
                           (set_peddelay
                              (Welford_inserts (sim_peddelay s1)
                                 (map (cross_delay (sim_time s1))
                                    (firstn MAXPEDS (waiting s1))))
                              (set_count (length (firstn MAXPEDS (waiting s1)))
                                 (set_waiting (skipn (S MAXPEDS) (waiting s1))
                                    (set_walkexpire (t + REDTIMEOUT)
                                       (set_state RED s1))))))) /\
              Run_mid is_heap n None s').
    { intro t. eexists. split; [reflexivity|].
      apply Run_mid_intro; run_unfold; proj_simpl; try tauto.
      - apply (heap_push hq is_heap HS). rewrite Eq. exact Hq'.
      - rewrite (length_push is_heap HS) by (rewrite Eq; exact Hq').
        unfold Counted in Hc. lia.
      - rewrite (timers_push is_heap HS) by (rewrite Eq; exact Hq').
        rewrite is_timer_timer_event, Eq. cbn [LightState_eqb Nat.add]. lia.
      - split; [apply NoDup_ids_skipn; exact Hnd|].
        split; [apply Forall_app_skipn; exact Hbd|].
        eapply perm_trans;
          [apply (arrivals_push is_heap HS); rewrite Eq; exact Hq'|].
        rewrite arrival_of_timer_event, Eq. exact Hperm.
      - eexists. reflexivity.
      - destruct Hsp as [Hsp1 Hsp2].
        split; intro Hlt; apply (spawn_pending_push is_heap HS);
          try (rewrite Eq; exact Hq'); auto. }
    destruct g as [| |t]; [contradiction| |].
    + destruct (G (sim_time s1)) as (s' & Es' & HR).
      exists s'. split; [|exact HR].
      rewrite Es'. apply (Light_timer_yellow_this s1 [] E Hl Hap).
    + destruct (G t) as (s' & Es' & HR).
      exists s'. split; [|exact HR].
      rewrite Es'. apply (Light_timer_yellow_other s1 [] t E Hl Hap).
  - (* RED *)
    rewrite (Light_timer_red g s1 [] E Hl). eexists. split; [reflexivity|].
    apply Run_mid_intro; run_unfold; proj_simpl; try tauto.
    + apply (heap_push hq is_heap HS). rewrite Eq. exact Hq'.
    + rewrite (length_push is_heap HS) by (rewrite Eq; exact Hq').
      unfold Counted in Hc. lia.
    + rewrite (timers_push is_heap HS) by (rewrite Eq; exact Hq').
      rewrite is_timer_timer_event, Eq. cbn [LightState_eqb Nat.add]. lia.
    + split; [exact Hnd|]. split; [exact Hbd|].
      eapply perm_trans;
        [apply (arrivals_push is_heap HS); rewrite Eq; exact Hq'|].
      rewrite arrival_of_timer_event, Eq. exact Hperm.
    + eexists. reflexivity.
    + destruct Hsp as [Hsp1 Hsp2].
      split; intro Hlt; apply (spawn_pending_push is_heap HS);
        try (rewrite Eq; exact Hq'); auto.
  - (* GREENWAIT *)
    rewrite (Light_timer_greenwait g s1 E). eexists. split; [reflexivity|].
    apply Run_mid_intro; run_unfold; proj_simpl; try tauto;
      try rewrite Eq;
      first [ exact Hq' | cbn [LightState_eqb]; lia | tauto
            | eexists; reflexivity ].
  - (* GREENWAITPRESSED *)
    rewrite (Light_timer_pressed g s1 [] E Hl). eexists. split; [reflexivity|].
    apply Run_mid_intro; run_unfold; proj_simpl; try tauto.
    + apply (heap_push hq is_heap HS). rewrite Eq. exact Hq'.
    + rewrite (length_push is_heap HS) by (rewrite Eq; exact Hq').
      unfold Counted in Hc. lia.
    + rewrite (timers_push is_heap HS) by (rewrite Eq; exact Hq').
      rewrite is_timer_timer_event, Eq. cbn [LightState_eqb Nat.add]. lia.
    + split; [exact Hnd|]. split; [exact Hbd|].
      eapply perm_trans;
        [apply (arrivals_push is_heap HS); rewrite Eq; exact Hq'|].
      rewrite arrival_of_timer_event, Eq. exact Hperm.
    + eexists. reflexivity.
    + destruct Hsp as [Hsp1 Hsp2].
      split; intro Hlt; apply (spawn_pending_push is_heap HS);
        try (rewrite Eq; exact Hq'); auto.
Qed.

End RunStep.


Section RunNext.

Context {hq : Heapq}.
Variable is_heap : list Event -> Prop.
Hypothesis HS : HeapqSpec hq is_heap.
Variable n : Z.

Lemma uniform_valid : forall a b tok,
  valid_draws tok -> valid_draws (snd (next_draw (snd (uniform a b tok)))).
Proof. intros a b tok H k. apply H. Qed.

(** A pedestrian is spawned, or the quota is reached. *)
Lemma Run_step_ped_spawn : forall g s e q',
  Run_inv is_heap n s ->
  heappop (sim_queue s) = Ok (e, q') ->
  ev_type e = PedSpawn ->
  exists s', dispatch g e (popped_state e q' s) = (Ok tt, s') /\
             Run_mid is_heap n None s'.
Proof.
  intros g s e q' Hs Hpop He.
  destruct (popped_quiet_event is_heap HS n s e q' Hs Hpop) as (Hcore & Hsp);
    try (rewrite He; discriminate).
  set (s1 := popped_state e q' s) in *.
  assert (Hl : sim_log s1 = Some []) by reflexivity.
  assert (Hspc : (sim_ncars s1 < sim_maxn s1)%Z ->
                 spawn_pending CarSpawn (sim_queue s1)).
  { intro Hlt. destruct Hsp as [_ H2].
    apply (spawn_pending_tail CarSpawn e); [rewrite He; discriminate|auto]. }
  pose proof Hcore as (Hq & Hd & Hc & Hb & Htm & Hnd & Hbd & Hperm).
  destruct (sim_npeds s1 <? sim_maxn s1)%Z eqn:Hn.
  - destruct Hd as (Hvp & Hva & Hvb & Hlp & Hla).
    destruct Hb as (Hmax & Hnp & Hnc).
    pose proof (dispatch_PedSpawn_spawns g e s1 [] He Hn Hl Hvp Hlp) as Hspec.
    cbv zeta in Hspec. rewrite Hspec. clear Hspec.
    eexists. split; [reflexivity|].
    apply Z.ltb_lt in Hn.
    match goal with
    | |- context [heappush (heappush _ ?a) ?b] =>
        set (ea := a); set (eb := b)
    end.
    assert (Hq1 : is_heap (heappush (sim_queue s1) ea))
      by (apply (heap_push hq is_heap HS); exact Hq).
    assert (Hfresh : ~ In (sim_npeds s1 + 1)%Z
                       (map ped_id (walking s1 ++ waiting s1))).
    { intro Hin. apply in_map_iff in Hin. destruct Hin as (p & Ep & Hp).
      rewrite Forall_forall in Hbd. specialize (Hbd p Hp). lia. }
    apply Run_mid_intro; run_unfold; proj_simpl.
    + apply (heap_push hq is_heap HS). exact Hq1.
    + split; [apply uniform_valid; exact Hvp|]. tauto.
    + rewrite !(length_push is_heap HS) by assumption. unfold Counted in Hc. lia.
    + split; [exact Hmax|]. split; [lia|exact Hnc].
    + rewrite !(timers_push is_heap HS) by assumption. exact Htm.
    + split; [|split].
      * rewrite <- app_assoc. cbn [app]. rewrite map_app. cbn [map ped_id].
        eapply Permutation_NoDup; [apply Permutation_middle|].
        rewrite <- map_app. constructor; [exact Hfresh|exact Hnd].
      * rewrite <- app_assoc. cbn [app]. apply Forall_app.
        apply Forall_app in Hbd. destruct Hbd as [H1 H2]. split.
        -- eapply Forall_impl; [|exact H1]. cbn beta. intros p Hp. lia.
        -- constructor; [cbn [ped_id]; lia|].
           eapply Forall_impl; [|exact H2]. cbn beta. intros p Hp. lia.
      * eapply perm_trans; [apply (arrivals_push is_heap HS); exact Hq1|].
        eapply perm_trans;
          [apply Permutation_app_head; apply (arrivals_push is_heap HS); exact Hq|].
        cbn [arrival_of eb ea ev_type ev_id EventType_eqb app].
        rewrite map_app. cbn [map ped_id].
        eapply perm_trans; [|apply Permutation_cons_append].
        apply perm_skip. exact Hperm.
    + eexists. reflexivity.
    + exact Logic.I.
    + split; intro Hlt.
      * apply (spawn_pending_pushed is_heap HS _ eb). exact Hq1.
      * apply (spawn_pending_push is_heap HS); [exact Hq1|].
        apply (spawn_pending_push is_heap HS); [exact Hq|].
        apply Hspc. exact Hlt.
  - rewrite (dispatch_PedSpawn_full g e s1 He Hn).
    exists s1. split; [reflexivity|].
    apply Run_mid_intro; try assumption.
    + split; [exact Hnd|]. split; [exact Hbd|exact Hperm].
    + eexists. reflexivity.
    + exact Logic.I.
    + split; [|exact Hspc].
      intro Hlt. apply Z.ltb_ge in Hn. lia.
Qed.

(** A car is spawned, or the quota is reached. *)
Lemma Run_step_car_spawn : forall g s e q',
  Run_inv is_heap n s ->
  heappop (sim_queue s) = Ok (e, q') ->
  ev_type e = CarSpawn ->
  exists s', dispatch g e (popped_state e q' s) = (Ok tt, s') /\
             Run_mid is_heap n None s'.
Proof.
  intros g s e q' Hs Hpop He.
  destruct (popped_quiet_event is_heap HS n s e q' Hs Hpop) as (Hcore & Hsp);
    try (rewrite He; discriminate).
  set (s1 := popped_state e q' s) in *.
  assert (Hl : sim_log s1 = Some []) by reflexivity.
  assert (Hspp : (sim_npeds s1 < sim_maxn s1)%Z ->
                 spawn_pending PedSpawn (sim_queue s1)).
  { intro Hlt. destruct Hsp as [H1 _].
    apply (spawn_pending_tail PedSpawn e); [rewrite He; discriminate|auto]. }
  pose proof Hcore as (Hq & Hd & Hc & Hb & Htm & Hnd & Hbd & Hperm).
  destruct (sim_ncars s1 <? sim_maxn s1)%Z eqn:Hn.
  - destruct Hd as (Hvp & Hva & Hvb & Hlp & Hla).
    destruct Hb as (Hmax & Hnp & Hnc).
    pose proof (dispatch_CarSpawn_spawns g e s1 [] He Hn Hl Hva Hla) as Hspec.
    cbv zeta in Hspec. rewrite Hspec. clear Hspec.
    eexists. split; [reflexivity|].
    apply Z.ltb_lt in Hn.
    match goal with
    | |- context [heappush (heappush (heappush _ ?a) ?b) ?c] =>
        set (ea := a); set (eb := b); set (ec := c)
    end.
    assert (Hq1 : is_heap (heappush (sim_queue s1) ea))
      by (apply (heap_push hq is_heap HS); exact Hq).
    assert (Hq2 : is_heap (heappush (heappush (sim_queue s1) ea) eb))
      by (apply (heap_push hq is_heap HS); exact Hq1).
    apply Run_mid_intro; run_unfold; proj_simpl.
    + apply (heap_push hq is_heap HS). exact Hq2.
    + split; [exact Hvp|]. split; [apply uniform_valid; exact Hva|]. tauto.
    + rewrite !(length_push is_heap HS) by assumption. unfold Counted in Hc. lia.
    + split; [exact Hmax|]. split; [exact Hnp|lia].
    + rewrite !(timers_push is_heap HS) by assumption. exact Htm.
    + split; [exact Hnd|]. split; [exact Hbd|].
      eapply perm_trans; [apply (arrivals_push is_heap HS); exact Hq2|].
      eapply perm_trans;
        [apply Permutation_app_head; apply (arrivals_push is_heap HS); exact Hq1|].
      eapply perm_trans;
        [apply Permutation_app_head; apply Permutation_app_head;
         apply (arrivals_push is_heap HS); exact Hq|].
      exact Hperm.
    + eexists. reflexivity.
    + exact Logic.I.
    + split; intro Hlt.
      * apply (spawn_pending_push is_heap HS); [exact Hq2|].
        apply (spawn_pending_push is_heap HS); [exact Hq1|].
        apply (spawn_pending_push is_heap HS); [exact Hq|].
        apply Hspp. exact Hlt.
      * apply (spawn_pending_pushed is_heap HS _ ec). exact Hq2.
  - rewrite (dispatch_CarSpawn_full g e s1 He Hn).
    exists s1. split; [reflexivity|].
    apply Run_mid_intro; try assumption.
    + split; [exact Hnd|]. split; [exact Hbd|exact Hperm].
    + eexists. reflexivity.
    + exact Logic.I.
    + split; [exact Hspp|].
      intro Hlt. apply Z.ltb_ge in Hn. lia.
Qed.

(** [next] on an empty queue. *)
Lemma Simulation_next_empty : forall g s,
  sim_queue s = [] -> Simulation_next g s = (Raise IndexError, s).
Proof.
  intros g s Eq. unfold Simulation_next. unfold bind at 1. unfold gets at 1.
  rewrite Eq. unfold bind at 1. unfold lift at 1.
  rewrite (heap_pop_empty hq is_heap HS). reflexivity.
Qed.

(** [next] on a queue that is not empty: the handler returns, whatever the
    event. *)
Lemma Run_inv_step : forall g s,
  Run_inv is_heap n s -> g <> SimUnbound -> sim_queue s <> [] ->
  exists s', Simulation_next g s = (Ok tt, s') /\
             Run_inv is_heap n s' /\
             (exists l, sim_log s' = Some l).
Proof.
  intros g s Hs Hg Hne.
  pose proof Hs as (_ & Hq & _).
  destruct (heap_pop_some hq is_heap HS _ Hq Hne) as (e & q' & Hpop).
  rewrite (Simulation_next_popped g s e q' Hpop).
  assert (G : exists s', dispatch g e (popped_state e q' s) = (Ok tt, s') /\
                         Run_mid is_heap n None s').
  { destruct (ev_type e) eqn:He.
    - rewrite (dispatch_TimerExpire g e _ He).
      apply (Run_step_timer is_heap HS n g s e q' Hs Hpop He Hg).
    - apply (Run_step_ped_spawn g s e q' Hs Hpop He).
    - rewrite (dispatch_PedArrive g e _ He).
      destruct (Run_inv_popped is_heap HS n s e q' Hs Hpop)
        as (Hsp & Hq' & Hd & Hc & Hb & Htm & Hnd & Hbd & Hperm).
      apply Spawning_tail in Hsp;
        [| rewrite He; discriminate | rewrite He; discriminate].
      assert (Et : is_timer e = false) by (unfold is_timer; rewrite He; reflexivity).
      assert (Ea : arrival_of e = [ev_id e])
        by (unfold arrival_of; rewrite He; reflexivity).
      apply (arrive_returns is_heap HS n); try assumption.
      + unfold Timed, timers in *. cbn [filter] in Htm. rewrite Et in Htm.
        exact Htm.
      + eexists. reflexivity.
      + unfold arrivals in Hperm. cbn [flat_map] in Hperm. rewrite Ea in Hperm.
        exact Hperm.
    - rewrite (dispatch_PedImpatient g e _ He).
      apply runs_result; [apply (runs_J_impatient is_heap HS)|].
      apply (Run_mid_other_event is_heap HS); try assumption;
        rewrite He; discriminate.
    - apply (Run_step_car_spawn g s e q' Hs Hpop He).
    - rewrite (dispatch_CarArrive g e _ He).
      apply runs_result; [apply (runs_J_car_arrive is_heap)|].
      apply (Run_mid_other_event is_heap HS); try assumption;
        rewrite He; discriminate.
    - rewrite (dispatch_CarExit g e _ He).
      apply runs_result; [apply (runs_J_car_exit is_heap)|].
      apply (Run_mid_other_event is_heap HS); try assumption;
        rewrite He; discriminate. }
  destruct G as (s' & E & (HR & Hl & _)).
  exists s'. split; [exact E|]. split; [exact HR|exact Hl].
Qed.

End RunNext.


(* ====================================================================== *)
(** * Runs from [__init__] *)
(* ====================================================================== *)

Section RunFromInit.

Context {hq : Heapq}.
Variable is_heap : list Event -> Prop.
Hypothesis HS : HeapqSpec hq is_heap.

(** The four calls of [insert] that end [__init__]. *)
Lemma Simulation_populate_events : forall s,
  0 < sim_lambdap s -> 0 < sim_lambdaa s ->
  valid_draws (sim_pedrandom s) -> valid_draws (sim_autorandom s) ->
  let p1 := sim_pedrandom s in
  let p2 := snd (next_draw p1) in
  let a1 := sim_autorandom s in
  let a2 := snd (next_draw a1) in
  Simulation_populate s
  = (Ok tt,
     set_totalevents (S (S (S (S (sim_totalevents s)))))
       (set_queue
          (heappush
             (heappush
                (heappush
                   (heappush (sim_queue s)
                      (mkEvent (sim_time s + - sim_lambdap s * ln (1 - peek p1))
                         PedSpawn (-1)))
                   (mkEvent (sim_time s + - sim_lambdap s * ln (1 - peek p2))
                      PedSpawn (-1)))
                (mkEvent (sim_time s + - sim_lambdaa s * ln (1 - peek a1))
                   CarSpawn (-1)))
             (mkEvent (sim_time s + - sim_lambdaa s * ln (1 - peek a2))
                CarSpawn (-1)))
          (set_autorandom (snd (next_draw a2))
             (set_pedrandom (snd (next_draw p2)) s)))).
Proof.
  intros s Hlp Hla Hp Ha p1 p2 a1 a2. subst p1 p2 a1 a2.
  unfold Simulation_populate.
  unfold bind at 1. unfold gets at 1.
  unfold bind at 1. unfold gets at 1.
  unfold bind at 1. unfold bind at 1. unfold on_pedrandom at 1.
  rewrite exponential_ok by assumption.
  unfold lift at 1. unfold bind at 1. unfold Simulation_insert at 1.
  unfold bind at 1. unfold bind at 1. unfold on_pedrandom at 1. proj_simpl.
  rewrite (exponential_ok (sim_lambdap s) (snd (next_draw (sim_pedrandom s))));
    [|assumption|apply valid_draws_next; assumption].
  unfold lift at 1. unfold bind at 1. unfold Simulation_insert at 1.
  unfold bind at 1. unfold bind at 1. unfold on_autorandom at 1. proj_simpl.
  rewrite exponential_ok by assumption.
  unfold lift at 1. unfold bind at 1. unfold Simulation_insert at 1.
  unfold bind at 1. unfold bind at 1. unfold on_autorandom at 1. proj_simpl.
  rewrite (exponential_ok (sim_lambdaa s) (snd (next_draw (sim_autorandom s))));
    [|assumption|apply valid_draws_next; assumption].
  unfold lift at 1. unfold Simulation_insert at 1. proj_simpl.
  reflexivity.
Qed.

Lemma Simulation_init_events : forall n a p b debug,
  valid_draws a -> valid_draws p ->
  let p2 := snd (next_draw p) in
  let a2 := snd (next_draw a) in
  Simulation_init n a p b debug
  = (Ok tt,
     set_totalevents 4
       (set_queue
          (heappush
             (heappush
                (heappush
                   (heappush []
                      (mkEvent (0 + - 20 * ln (1 - peek p)) PedSpawn (-1)))
                   (mkEvent (0 + - 20 * ln (1 - peek p2)) PedSpawn (-1)))
                (mkEvent (0 + - 15 * ln (1 - peek a)) CarSpawn (-1)))
             (mkEvent (0 + - 15 * ln (1 - peek a2)) CarSpawn (-1)))
          (set_autorandom (snd (next_draw a2))
             (set_pedrandom (snd (next_draw p2))
                (Simulation_blank n a p b debug))))).
Proof.
  intros n a p b debug Ha Hp p2 a2. unfold Simulation_init.
  rewrite Simulation_populate_events;
    try (unfold Simulation_blank; proj_simpl; first [lra | assumption]).
  reflexivity.
Qed.

Lemma Run_inv_init : forall n a p b debug,
  valid_draws a -> valid_draws p -> valid_draws b ->
  Run_inv is_heap n (snd (Simulation_init n a p b debug)).
Proof.
  intros n a p b debug Ha Hp Hb.
  rewrite (Simulation_init_events n a p b debug Ha Hp). cbn [snd].
  match goal with
  | |- context [heappush (heappush (heappush (heappush [] ?e1) ?e2) ?e3) ?e4] =>
      set (x1 := e1); set (x2 := e2); set (x3 := e3); set (x4 := e4)
  end.
  pose proof (heap_nil hq is_heap HS) as H0.
  assert (H1 : is_heap (heappush [] x1)) by (apply (heap_push hq is_heap HS), H0).
  assert (H2 : is_heap (heappush (heappush [] x1) x2))
    by (apply (heap_push hq is_heap HS), H1).
  assert (H3 : is_heap (heappush (heappush (heappush [] x1) x2) x3))
    by (apply (heap_push hq is_heap HS), H2).
  split.
  { unfold Spawning. split; intros _.
    - apply (spawn_pending_push is_heap HS); [exact H3|].
      apply (spawn_pending_push is_heap HS); [exact H2|].
      apply (spawn_pending_pushed is_heap HS _ x2). exact H1.
    - apply (spawn_pending_pushed is_heap HS _ x4). exact H3. }
  unfold Run_core, Safe_draws, Counted, Bounded, Timed, Ped_places, state,
    walking, waiting, Simulation_blank. proj_simpl.
  split; [apply (heap_push hq is_heap HS), H3|].
  split.
  { split; [intro k; apply Hp|]. split; [intro k; apply Ha|].
    split; [exact Hb|]. lra. }
  split; [rewrite !(length_push is_heap HS) by assumption; reflexivity|].
  split; [lia|].
  split; [rewrite !(timers_push is_heap HS) by assumption; reflexivity|].
  split; [constructor|]. split; [constructor|].
  eapply perm_trans; [apply (arrivals_push is_heap HS); exact H3|].
  eapply perm_trans;
    [apply Permutation_app_head; apply (arrivals_push is_heap HS); exact H2|].
  eapply perm_trans;
    [apply Permutation_app_head; apply Permutation_app_head;
     apply (arrivals_push is_heap HS); exact H1|].
  eapply perm_trans;
    [apply Permutation_app_head; apply Permutation_app_head;
     apply Permutation_app_head; apply (arrivals_push is_heap HS); exact H0|].
  apply Permutation_refl.
Qed.

Lemma reaches_Run_inv : forall n g s0 tr s,
  g <> SimUnbound ->
  Run_inv is_heap n s0 ->
  reaches g s0 tr s ->
  Run_inv is_heap n s.
Proof.
  intros n g s0 tr s Hg H0 Hr. induction Hr as [|tr s s' l Hr IH Hn Hl].
  - exact H0.
  - destruct (sim_queue s) as [|x q] eqn:Eq.
    + rewrite (Simulation_next_empty is_heap HS g s Eq) in Hn. discriminate.
    + destruct (Run_inv_step is_heap HS n g s IH Hg) as (s'' & E & HR & _).
      * rewrite Eq. discriminate.
      * rewrite E in Hn. inversion Hn; subst. exact HR.
Qed.

(** [start] from a state between two events: the loop ends by [break] only,
    on the empty queue, and the states it goes through are those of a run. *)
Lemma start_ends_on_empty_queue : forall n g fuel s0 tr s r s',
  g <> SimUnbound ->
  Run_inv is_heap n s ->
  reaches g s0 tr s ->
  Simulation_start fuel g s = Some (r, s') ->
  r = Ok tt /\ sim_queue s' = [] /\ exists tr', reaches g s0 tr' s'.
Proof.
  intros n g fuel. induction fuel as [|fuel IH]; intros s0 tr s r s' Hg Hs Hr H.
  - discriminate.
  - cbn [Simulation_start] in H.
    destruct (sim_queue s) as [|x q] eqn:Eq.
    + rewrite (Simulation_next_empty is_heap HS g s Eq) in H.
      inversion H; subst. split; [reflexivity|]. split; [exact Eq|].
      exists tr. exact Hr.
    + destruct (Run_inv_step is_heap HS n g s Hs Hg) as (s1 & E & HR & (l & Hl)).
      * rewrite Eq. discriminate.
      * rewrite E in H.
        apply (IH s0 (tr ++ l) s1 r s' Hg HR); [|exact H].
        apply (reaches_next g s0 tr s s1 l Hr E Hl).
Qed.

End RunFromInit.


Lemma ln_one_minus_nonpos : forall u, 0 < u < 1 -> ln (1 - u) <= 0.
Proof. intros u H. apply ln_nonpos. lra. Qed.

(** X15: [__init__] returns with the clock at 0, the light GREEN, the log
    not yet open and four events pending: the first two arrivals of
    pedestrians and the first two of cars, at delays that are not negative,
    drawn two from the source of the pedestrians and two from the source of
    the cars; the source of the button is not read. *)
Theorem init_schedules_four_arrivals :
  forall (hq : Heapq) (is_heap : list Event -> Prop) n a p b debug,
    HeapqSpec hq is_heap ->
    valid_draws a -> valid_draws p ->
    let s0 := snd (Simulation_init n a p b debug) in
    fst (Simulation_init n a p b debug) = Ok tt /\
    (exists d1 d2 d3 d4,
       0 <= d1 /\ 0 <= d2 /\ 0 <= d3 /\ 0 <= d4 /\
       Permutation (sim_queue s0)
         [mkEvent d1 PedSpawn (-1); mkEvent d2 PedSpawn (-1);
          mkEvent d3 CarSpawn (-1); mkEvent d4 CarSpawn (-1)]) /\
    sim_totalevents s0 = 4%nat /\
    sim_eventcount s0 = 0%nat /\
    sim_time s0 = 0 /\
    state s0 = GREEN /\
    sim_log s0 = None /\
    sim_pedrandom s0 = mkSource (src_draws p) (src_pos p + 2) /\
    sim_autorandom s0 = mkSource (src_draws a) (src_pos a + 2) /\
    sim_buttonrandom s0 = b /\
    sim_npeds s0 = 0%Z /\ sim_ncars s0 = 0%Z.
Proof.
  intros hq is_heap n a p b debug HS Ha Hp s0. subst s0.
  rewrite (Simulation_init_events n a p b debug Ha Hp). cbn [fst snd].
  split; [reflexivity|]. split.
  - match goal with
    | |- context [heappush (heappush (heappush (heappush [] ?e1) ?e2) ?e3) ?e4] =>
        set (x1 := e1); set (x2 := e2); set (x3 := e3); set (x4 := e4)
    end.
    exists (ev_at x1), (ev_at x2), (ev_at x3), (ev_at x4).
    pose proof (ln_one_minus_nonpos (peek p) (Hp _)) as L1.
    pose proof (ln_one_minus_nonpos (peek (snd (next_draw p)))
                  (valid_draws_next p Hp _)) as L2.
    pose proof (ln_one_minus_nonpos (peek a) (Ha _)) as L3.
    pose proof (ln_one_minus_nonpos (peek (snd (next_draw a)))
                  (valid_draws_next a Ha _)) as L4.
    split; [subst x1; cbn [ev_at]; lra|].
    split; [subst x2; cbn [ev_at]; lra|].
    split; [subst x3; cbn [ev_at]; lra|].
    split; [subst x4; cbn [ev_at]; lra|].
    proj_simpl.
    pose proof (heap_nil hq is_heap HS) as H0.
    assert (H1 : is_heap (heappush [] x1)) by (apply (heap_push hq is_heap HS), H0).
    assert (H2 : is_heap (heappush (heappush [] x1) x2))
      by (apply (heap_push hq is_heap HS), H1).
    assert (H3 : is_heap (heappush (heappush (heappush [] x1) x2) x3))
      by (apply (heap_push hq is_heap HS), H2).
    eapply perm_trans; [apply (heap_push_perm hq is_heap HS); exact H3|].
    eapply perm_trans;
      [apply perm_skip; apply (heap_push_perm hq is_heap HS); exact H2|].
    eapply perm_trans;
      [apply perm_skip; apply perm_skip;
       apply (heap_push_perm hq is_heap HS); exact H1|].
    eapply perm_trans;
      [apply perm_skip; apply perm_skip; apply perm_skip;
       apply (heap_push_perm hq is_heap HS); exact H0|].
    change [x4; x3; x2; x1] with (rev [x1; x2; x3; x4]).
    apply Permutation_sym. apply Permutation_rev.
  - unfold state, Simulation_blank. proj_simpl.
    repeat split; try reflexivity.
    + cbn [next_draw snd src_draws src_pos]. f_equal. lia.
    + cbn [next_draw snd src_draws src_pos]. f_equal. lia.
Qed.

Lemma init_schedules_four_arrivals_witness :
  sim_totalevents
    (snd (Simulation_init (hq := sorted_heapq) 3 (const_source (1 / 2))
            (const_source (1 / 2)) (const_source (1 / 2)) false)) = 4%nat.
Proof.
  destruct (init_schedules_four_arrivals sorted_heapq sorted_is_heap 3
              (const_source (1 / 2)) (const_source (1 / 2)) (const_source (1 / 2))
              false) as (_ & _ & H & _).
  - apply sorted_heapq_spec.
  - apply valid_draws_const. lra.
  - apply valid_draws_const. lra.
  - exact H.
Defined.

Section RunTheorems.

Context {hq : Heapq}.
Variable is_heap : list Event -> Prop.
Hypothesis HS : HeapqSpec hq is_heap.

Lemma reaches_init_Run_inv : forall n a p b debug g tr s,
  valid_draws a -> valid_draws p -> valid_draws b ->
  g <> SimUnbound ->
  reaches g (snd (Simulation_init n a p b debug)) tr s ->
  Run_inv is_heap n s.
Proof.
  intros n a p b debug g tr s Ha Hp Hb Hg Hr.
  apply (reaches_Run_inv is_heap HS n g
           (snd (Simulation_init n a p b debug)) tr s Hg); [|exact Hr].
  apply (Run_inv_init is_heap HS); assumption.
Qed.

Lemma popped_In : forall s e q',
  is_heap (sim_queue s) -> heappop (sim_queue s) = Ok (e, q') ->
  In e (sim_queue s).
Proof.
  intros s e q' Hq Hpop.
  destruct (heap_pop_ok hq is_heap HS _ _ _ Hq Hpop) as (_ & Hperm & _).
  apply (Permutation_in _ (Permutation_sym Hperm)). left. reflexivity.
Qed.

Lemma timers_In : forall q e, In e q -> is_timer e = true -> (0 < timers q)%nat.
Proof.
  intros q e Hin He. unfold timers.
  assert (H : In e (filter is_timer q)) by (apply filter_In; auto).
  destruct (filter is_timer q); [contradiction|cbn; lia].
Qed.

Lemma arrivals_In : forall q e,
  In e q -> ev_type e = PedArrive -> In (ev_id e) (arrivals q).
Proof.
  intros q e Hin He. unfold arrivals. apply in_flat_map. exists e.
  split; [exact Hin|]. unfold arrival_of. rewrite He. left. reflexivity.
Qed.

End RunTheorems.


(** X16: along every run from [__init__], every event ever inserted is
    either still pending or has been processed, the count of events
    inserted being the count of events processed plus the length of the
    queue; and no more pedestrians and no more cars are generated than the
    number [n] that [__init__] was given. *)
Theorem events_are_accounted_for :
  forall (hq : Heapq) (is_heap : list Event -> Prop) n a p b debug g,
    HeapqSpec hq is_heap ->
    valid_draws a -> valid_draws p -> valid_draws b ->
    g <> SimUnbound ->
    forall tr s,
      reaches g (snd (Simulation_init n a p b debug)) tr s ->
      sim_totalevents s = (sim_eventcount s + length (sim_queue s))%nat /\
      sim_maxn s = n /\
      (0 <= sim_npeds s <= Z.max 0 n)%Z /\
      (0 <= sim_ncars s <= Z.max 0 n)%Z.
Proof.
  intros hq is_heap n a p b debug g HS Ha Hp Hb Hg tr s Hr.
  pose proof (reaches_init_Run_inv is_heap HS n a p b debug g tr s Ha Hp Hb Hg Hr)
    as (_ & _ & _ & Hc & (Hm & Hnp & Hnc) & _).
  split; [exact Hc|]. split; [exact Hm|]. split; [exact Hnp|exact Hnc].
Qed.

Lemma events_are_accounted_for_witness :
  let s0 := snd (Simulation_init (hq := sorted_heapq) 3 (const_source (1 / 2))
                   (const_source (1 / 2)) (const_source (1 / 2)) false) in
  sim_totalevents s0 = (sim_eventcount s0 + length (sim_queue s0))%nat.
Proof.
  destruct (events_are_accounted_for sorted_heapq sorted_is_heap 3
              (const_source (1 / 2)) (const_source (1 / 2)) (const_source (1 / 2))
              false SimIsThis) with (tr := @nil LogMsg)
              (s := snd (Simulation_init (hq := sorted_heapq) 3
                           (const_source (1 / 2)) (const_source (1 / 2))
                           (const_source (1 / 2)) false))
    as (H & _).
  - apply sorted_heapq_spec.
  - apply valid_draws_const. lra.
  - apply valid_draws_const. lra.
  - apply valid_draws_const. lra.
  - discriminate.
  - apply reaches_start.
  - exact H.
Defined.

(** X17: along every run from [__init__], exactly one timer is pending
    while the light is not GREEN and none while it is GREEN; so the timer
    never expires on a GREEN light, and the branch of [Light.timer] that
    prints the warning is never taken. *)
Theorem one_timer_unless_green :
  forall (hq : Heapq) (is_heap : list Event -> Prop) n a p b debug g,
    HeapqSpec hq is_heap ->
    valid_draws a -> valid_draws p -> valid_draws b ->
    g <> SimUnbound ->
    forall tr s,
      reaches g (snd (Simulation_init n a p b debug)) tr s ->
      timers (sim_queue s) = (if LightState_eqb (state s) GREEN then 0 else 1)%nat /\
      (forall e q', heappop (sim_queue s) = Ok (e, q') ->
                    ev_type e = TimerExpire -> state s <> GREEN).
Proof.
  intros hq is_heap n a p b debug g HS Ha Hp Hb Hg tr s Hr.
  pose proof (reaches_init_Run_inv is_heap HS n a p b debug g tr s Ha Hp Hb Hg Hr)
    as (_ & Hq & _ & _ & _ & Htm & _).
  split; [exact Htm|].
  intros e q' Hpop He Hst.
  pose proof (popped_In is_heap HS s e q' Hq Hpop) as Hin.
  assert (Ht : is_timer e = true) by (unfold is_timer; rewrite He; reflexivity).
  pose proof (timers_In _ _ Hin Ht) as Hpos.
  unfold Timed in Htm. rewrite Hst in Htm. cbn [LightState_eqb] in Htm. lia.
Qed.

Lemma one_timer_unless_green_witness :
  timers (sim_queue
            (snd (Simulation_init (hq := sorted_heapq) 3 (const_source (1 / 2))
                    (const_source (1 / 2)) (const_source (1 / 2)) false))) = 0%nat.
Proof.
  destruct (one_timer_unless_green sorted_heapq sorted_is_heap 3
              (const_source (1 / 2)) (const_source (1 / 2)) (const_source (1 / 2))
              false SimIsThis) with (tr := @nil LogMsg)
              (s := snd (Simulation_init (hq := sorted_heapq) 3
                           (const_source (1 / 2)) (const_source (1 / 2))
                           (const_source (1 / 2)) false))
    as (H & _).
  - apply sorted_heapq_spec.
  - apply valid_draws_const. lra.
  - apply valid_draws_const. lra.
  - apply valid_draws_const. lra.
  - discriminate.
  - apply reaches_start.
  - rewrite H.
    rewrite (Simulation_init_events 3 _ _ _ false)
      by (apply valid_draws_const; lra).
    reflexivity.
Defined.

(** X18: along every run from [__init__], the pedestrians walking to the
    button are exactly those whose arrival is pending, and the pedestrians
    walking or waiting have distinct ids among [1 .. npeds]; so [arrive]
    always finds the pedestrian of the event among the walking ones. *)
Theorem pending_arrivals_are_the_walking_pedestrians :
  forall (hq : Heapq) (is_heap : list Event -> Prop) n a p b debug g,
    HeapqSpec hq is_heap ->
    valid_draws a -> valid_draws p -> valid_draws b ->
    g <> SimUnbound ->
    forall tr s,
      reaches g (snd (Simulation_init n a p b debug)) tr s ->
      Permutation (arrivals (sim_queue s)) (map ped_id (walking s)) /\
      NoDup (map ped_id (walking s ++ waiting s)) /\
      Forall (fun x => (1 <= ped_id x <= sim_npeds s)%Z) (walking s ++ waiting s) /\
      (forall e q', heappop (sim_queue s) = Ok (e, q') ->
                    ev_type e = PedArrive ->
                    exists i ped, find_ped (ev_id e) (walking s) = Some (i, ped) /\
                                  ped_id ped = ev_id e).
Proof.
  intros hq is_heap n a p b debug g HS Ha Hp Hb Hg tr s Hr.
  pose proof (reaches_init_Run_inv is_heap HS n a p b debug g tr s Ha Hp Hb Hg Hr)
    as (_ & Hq & _ & _ & _ & _ & Hnd & Hbd & Hperm).
  split; [exact Hperm|]. split; [exact Hnd|]. split; [exact Hbd|].
  intros e q' Hpop He.
  pose proof (popped_In is_heap HS s e q' Hq Hpop) as Hin.
  pose proof (arrivals_In _ _ Hin He) as Ha'.
  apply (Permutation_in _ Hperm) in Ha'.
  destruct (find_ped_In _ _ Ha') as (i & ped & F).
  exists i, ped. split; [exact F|].
  apply (find_ped_some _ _ _ _ F).
Qed.

Lemma pending_arrivals_are_the_walking_pedestrians_witness :
  let s0 := snd (Simulation_init (hq := sorted_heapq) 3 (const_source (1 / 2))
                   (const_source (1 / 2)) (const_source (1 / 2)) false) in
  Permutation (arrivals (sim_queue s0)) (map ped_id (walking s0)).
Proof.
  destruct (pending_arrivals_are_the_walking_pedestrians sorted_heapq
              sorted_is_heap 3
              (const_source (1 / 2)) (const_source (1 / 2)) (const_source (1 / 2))
              false SimIsThis) with (tr := @nil LogMsg)
              (s := snd (Simulation_init (hq := sorted_heapq) 3
                           (const_source (1 / 2)) (const_source (1 / 2))
                           (const_source (1 / 2)) false))
    as (H & _).
  - apply sorted_heapq_spec.
  - apply valid_draws_const. lra.
  - apply valid_draws_const. lra.
  - apply valid_draws_const. lra.
  - discriminate.
  - apply reaches_start.
  - exact H.
Defined.

(** X19: no handler fails in a run from [__init__] with draws of (0,1) and
    the name [sim] bound: from every state of the run, [next] returns when
    an event is pending, and otherwise raises the [IndexError] of the empty
    queue and leaves the state as it is; so [start] lets no exception
    escape, and when it returns the queue is empty. *)
Theorem run_never_fails :
  forall (hq : Heapq) (is_heap : list Event -> Prop) n a p b debug g,
    HeapqSpec hq is_heap ->
    valid_draws a -> valid_draws p -> valid_draws b ->
    g <> SimUnbound ->
    forall tr s,
      reaches g (snd (Simulation_init n a p b debug)) tr s ->
      (sim_queue s <> [] -> exists s', Simulation_next g s = (Ok tt, s')) /\
      (sim_queue s = [] -> Simulation_next g s = (Raise IndexError, s)) /\
      (forall fuel r s', Simulation_start fuel g s = Some (r, s') ->
                         r = Ok tt /\ sim_queue s' = []).
Proof.
  intros hq is_heap n a p b debug g HS Ha Hp Hb Hg tr s Hr.
  pose proof (reaches_init_Run_inv is_heap HS n a p b debug g tr s Ha Hp Hb Hg Hr)
    as Hs.
  split; [|split].
  - intro Hne. destruct (Run_inv_step is_heap HS n g s Hs Hg Hne) as (s' & E & _).
    exists s'. exact E.
  - intro Eq. apply (Simulation_next_empty is_heap HS g s Eq).
  - intros fuel r s' H.
    destruct (start_ends_on_empty_queue is_heap HS n g fuel _ tr s r s' Hg Hs Hr H)
      as (E1 & E2 & _).
    split; assumption.
Qed.

Lemma sorted_push_nonempty : forall q e, sorted_push q e <> [].
Proof.
  intros [|x q] e; cbn [sorted_push]; [discriminate|].
  destruct (flt (ev_at e) (ev_at x)); discriminate.
Qed.

Lemma run_never_fails_witness :
  exists s',
    Simulation_next (hq := sorted_heapq) SimIsThis
      (snd (Simulation_init (hq := sorted_heapq) 3 (const_source (1 / 2))
              (const_source (1 / 2)) (const_source (1 / 2)) false))
    = (Ok tt, s').
Proof.
  destruct (run_never_fails sorted_heapq sorted_is_heap 3
              (const_source (1 / 2)) (const_source (1 / 2)) (const_source (1 / 2))
              false SimIsThis) with (tr := @nil LogMsg)
              (s := snd (Simulation_init (hq := sorted_heapq) 3
                           (const_source (1 / 2)) (const_source (1 / 2))
                           (const_source (1 / 2)) false))
    as (H & _).
  - apply sorted_heapq_spec.
  - apply valid_draws_const. lra.
  - apply valid_draws_const. lra.
  - apply valid_draws_const. lra.
  - discriminate.
  - apply reaches_start.
  - apply H.
    rewrite (Simulation_init_events 3 _ _ _ false)
      by (apply valid_draws_const; lra).
    cbn [snd]. proj_simpl. cbn [heappush sorted_heapq].
    apply sorted_push_nonempty.
Defined.



Section RunEnds.

Context {hq : Heapq}.
Variable is_heap : list Event -> Prop.
Hypothesis HS : HeapqSpec hq is_heap.



End RunEnds.




(* ====================================================================== *)
(** * The handlers one by one *)
(* ====================================================================== *)

Lemma getped_absent : forall id popped s,
  ~ In id (map ped_id (walking s ++ waiting s)) ->
  PedManager_getped id popped s = (Ok None, s).
Proof.
  intros id popped s Hn. unfold PedManager_getped.
  rewrite map_app in Hn.
  rewrite (find_ped_absent id (walking s))
    by (intro H; apply Hn; apply in_or_app; left; exact H).
  rewrite (find_ped_absent id (waiting s))
    by (intro H; apply Hn; apply in_or_app; right; exact H).
  reflexivity.
Qed.

(** X21: [getped] never fails.  With [popped] it takes the first pedestrian
    of that id out of the walking ones, or else out of the waiting ones, and
    changes nothing else; without [popped] it changes nothing; it returns
    [None], and changes nothing, exactly when no pedestrian has the id. *)
Theorem getped_contract :
  forall (id : Z) (popped : bool) (s : Simulation),
    (exists found, fst (PedManager_getped id popped s) = Ok found) /\
    snd (PedManager_getped id false s) = s /\
    (~ In id (map ped_id (walking s ++ waiting s)) ->
     PedManager_getped id popped s = (Ok None, s)) /\
    (In id (map ped_id (walking s ++ waiting s)) ->
     exists ped, fst (PedManager_getped id popped s) = Ok (Some ped) /\
                 ped_id ped = id /\ In ped (walking s ++ waiting s)) /\
    (forall ped s', PedManager_getped id true s = (Ok (Some ped), s') ->
       Permutation (walking s ++ waiting s) (ped :: walking s' ++ waiting s') /\
       (s' = set_walking (walking s') s /\ waiting s' = waiting s \/
        s' = set_waiting (waiting s') s /\ walking s' = walking s /\
        ~ In id (map ped_id (walking s)))).
Proof.
  intros id popped s. unfold PedManager_getped.
  destruct (find_ped id (walking s)) as [[i p]|] eqn:F1.
  - destruct (find_ped_some _ _ _ _ F1) as (Hid & Hin & Hperm).
    split; [destruct popped; eexists; reflexivity|].
    split; [reflexivity|]. split.
    { intro Hn. exfalso. apply Hn. rewrite map_app. apply in_or_app. left.
      rewrite <- Hid. apply in_map. exact Hin. }
    split.
    { intros _. exists p. split; [destruct popped; reflexivity|].
      split; [exact Hid|]. apply in_or_app. left. exact Hin. }
    intros ped s' H. inversion H; subst ped s'. split.
    + unfold walking, waiting. proj_simpl.
      change (p :: ?a ++ ?b) with ((p :: a) ++ b).
      apply Permutation_app_tail. exact Hperm.
    + left. split; reflexivity.
  - assert (Hnw : ~ In id (map ped_id (walking s))).
    { intro Hin. destruct (find_ped_In _ _ Hin) as (i & p & F).
      rewrite F in F1. discriminate. }
    destruct (find_ped id (waiting s)) as [[i p]|] eqn:F2.
    + destruct (find_ped_some _ _ _ _ F2) as (Hid & Hin & Hperm).
      split; [destruct popped; eexists; reflexivity|].
      split; [reflexivity|]. split.
      { intro Hn. exfalso. apply Hn. rewrite map_app. apply in_or_app. right.
        rewrite <- Hid. apply in_map. exact Hin. }
      split.
      { intros _. exists p. split; [destruct popped; reflexivity|].
        split; [exact Hid|]. apply in_or_app. right. exact Hin. }
      intros ped s' H. inversion H; subst ped s'. split.
      * unfold walking, waiting. proj_simpl.
        eapply perm_trans; [apply Permutation_app_head; exact Hperm|].
        apply Permutation_sym. apply Permutation_middle.
      * right. split; [reflexivity|]. split; [reflexivity|exact Hnw].
    + split; [destruct popped; eexists; reflexivity|].
      split; [reflexivity|]. split; [intros _; destruct popped; reflexivity|].
      split.
      { intro Hin. exfalso. rewrite map_app in Hin. apply in_app_or in Hin.
        destruct Hin as [Hin|Hin]; [exact (Hnw Hin)|].
        destruct (find_ped_In _ _ Hin) as (i & p & F). rewrite F in F2.
        discriminate. }
      intros ped s' H. discriminate.
Qed.

Lemma getped_contract_witness :
  exists ped,
    fst (PedManager_getped 3 true sim_queue22) = Ok (Some ped) /\ ped_id ped = 3%Z.
Proof.
  destruct (getped_contract 3 true sim_queue22) as (_ & _ & _ & H & _).
  destruct H as (ped & H1 & H2 & _).
  - cbn. right. right. left. reflexivity.
  - exists ped. split; assumption.
Defined.

(** X22: [deploy] with no more than MAXPEDS pedestrians waiting sends all
    of them across, first come first: it returns, the waiting queue is
    empty, the counter is their number, and each has one delay recorded and
    one line logged, in that order; the walking ones and the event queue are
    untouched. *)
Theorem deploy_within_capacity :
  forall (s : Simulation) (l : list LogMsg),
    sim_log s = Some l ->
    ids_apart (waiting s) (walking s) ->
    (length (waiting s) <= MAXPEDS)%nat ->
    exists s',
      PedManager_deploy s = (Ok tt, s') /\
      waiting s' = [] /\
      walking s' = walking s /\
      count s' = length (waiting s) /\
      sim_peddelay s'
      = Welford_inserts (sim_peddelay s)
          (map (cross_delay (sim_time s)) (waiting s)) /\
      sim_log s' = Some (l ++ map (cross_line (sim_time s)) (waiting s)) /\
      sim_queue s' = sim_queue s.
Proof.
  intros s l Hl Hap Hlen.
  rewrite (deploy_spec s l Hl Hap).
  rewrite firstn_all2 by exact Hlen.
  rewrite skipn_all2 by lia.
  eexists. split; [reflexivity|].
  unfold waiting, walking, count. proj_simpl. repeat split.
Qed.

Lemma deploy_within_capacity_witness :
  exists s',
    PedManager_deploy (set_waiting (peds_from 0 2) sim_queue22) = (Ok tt, s') /\
    waiting s' = [].
Proof.
  destruct (deploy_within_capacity (set_waiting (peds_from 0 2) sim_queue22) [])
    as (s' & H1 & H2 & _).
  - reflexivity.
  - intros p Hp. reflexivity.
  - cbn. unfold MAXPEDS. lia.
  - exists s'. split; assumption.
Defined.

(** X23: an event for an id that is not there is ignored: [arrive] and
    [exit] of the cars do nothing for an id that no driving car has, so the
    exit event of a car that is stopped records no sample; [impatient] does
    nothing for a pedestrian that is neither walking nor waiting. *)
Theorem handlers_ignore_unknown_ids :
  forall (hq : Heapq) (id : Z) (s : Simulation),
    (~ In id (map car_id (driving s)) ->
     CarManager_arrive id s = (Ok tt, s) /\
     CarManager_exit id s = (Ok tt, s)) /\
    (~ In id (map ped_id (walking s ++ waiting s)) ->
     PedManager_impatient id s = (Ok tt, s)).
Proof.
  intros hq id s. split.
  - intro Hn.
    assert (F : find_car id (driving s) = None).
    { destruct (find_car id (driving s)) as [[i c]|] eqn:F; [|reflexivity].
      destruct (find_car_some _ _ _ _ F) as (Hid & _ & Hin & _).
      exfalso. apply Hn. rewrite <- Hid. apply in_map. exact Hin. }
    split; [apply CarManager_arrive_none | apply CarManager_exit_none]; exact F.
  - intro Hn. unfold PedManager_impatient. unfold bind at 1.
    rewrite (getped_absent id false s Hn). reflexivity.
Qed.

Lemma handlers_ignore_unknown_ids_witness :
  CarManager_exit 7 sim_car40 = (Ok tt, sim_car40).
Proof.
  destruct (handlers_ignore_unknown_ids sorted_heapq 7 sim_car40) as (H & _).
  apply H. cbn. intros [H1|[]]. discriminate.
Defined.

(** X24: the button is idempotent: a second [press()] right after the
    first changes nothing more, whatever the state of the light; also when
    the first fails on a log that is not open. *)
Theorem Light_press_idempotent :
  forall (hq : Heapq) (s : Simulation),
    (Light_press ;; Light_press) s = Light_press s.
Proof.
  intros hq s. unfold bind at 1.
  destruct (Light_press s) as [[u|e] s1] eqn:E; [|reflexivity].
  destruct u.
  assert (Hst : state s1 <> GREEN /\ state s1 <> GREENWAIT).
  { destruct (state s) eqn:Es.
    - destruct (sim_log s) as [l|] eqn:El.
      + rewrite (Light_press_green s l Es El) in E. inversion E; subst s1.
        unfold state. proj_simpl. split; discriminate.
      + unfold Light_press, bind, gets, modify, log_append in E.
        rewrite Es in E. proj_simpl_in E. rewrite El in E. discriminate.
    - unfold Light_press, bind, gets in E. rewrite Es in E.
      inversion E; subst s1. rewrite Es. split; discriminate.
    - unfold Light_press, bind, gets in E. rewrite Es in E.
      inversion E; subst s1. rewrite Es. split; discriminate.
    - unfold Light_press, bind, gets, modify in E. rewrite Es in E.
      inversion E; subst s1. unfold state. proj_simpl. split; discriminate.
    - unfold Light_press, bind, gets in E. rewrite Es in E.
      inversion E; subst s1. rewrite Es. split; discriminate. }
  unfold Light_press, bind, gets.
  destruct (state s1); try reflexivity; destruct Hst; contradiction.
Qed.

(** X25: a press during the fresh green is not lost: pressed and then timed
    out, or timed out and then pressed, the light ends YELLOW in the same
    state, with the cars warned and one timer of YELLOWTIMEOUT pushed. *)
Theorem press_and_timer_commute_on_fresh_green :
  forall (hq : Heapq) (g : GlobalSim) (s : Simulation) (l : list LogMsg),
    state s = GREENWAIT ->
    sim_log s = Some l ->
    (Light_press ;; Light_timer g) s = (Light_timer g ;; Light_press) s /\
    fst ((Light_press ;; Light_timer g) s) = Ok tt /\
    state (snd ((Light_press ;; Light_timer g) s)) = YELLOW /\
    sim_queue (snd ((Light_press ;; Light_timer g) s))
    = heappush (sim_queue s) (timer_event (sim_time s) YELLOWTIMEOUT).
Proof.
  intros hq g s l Es El.
  assert (E1 : (Light_press ;; Light_timer g) s
               = Light_timer g (set_state GREENWAITPRESSED s)).
  { unfold bind at 1. unfold Light_press, bind, gets, modify. rewrite Es.
    reflexivity. }
  assert (E2 : (Light_timer g ;; Light_press) s = Light_press (set_state GREEN s)).
  { unfold bind at 1. rewrite (Light_timer_greenwait g s Es). reflexivity. }
  rewrite E1, E2.
  rewrite (Light_timer_pressed g (set_state GREENWAITPRESSED s) l eq_refl El).
  rewrite (Light_press_green (set_state GREEN s) l eq_refl El).
  repeat split.
Qed.

Lemma press_and_timer_commute_on_fresh_green_witness :
  state (snd ((Light_press (hq := sorted_heapq) ;;
               Light_timer (hq := sorted_heapq) SimIsThis)
                (set_state GREENWAIT sim_green5))) = YELLOW.
Proof.
  apply (press_and_timer_commute_on_fresh_green sorted_heapq SimIsThis
           (set_state GREENWAIT sim_green5) []); reflexivity.
Defined.

(** X26: a car as [Car.__init__] builds it from a draw of [0, 1] has a
    speed from VJA to VJB, needs less than the road before the crosswalk to
    brake, and, on the road of [CarManager.__init__], is scheduled to look
    at the light after its spawn and before its exit. *)
Theorem car_looks_at_light_before_exit :
  forall (id : Z) (at0 : R) (s : Simulation),
    0 <= peek (sim_autorandom s) <= 1 ->
    total s = 7 * BLOCKWIDTH + 6 * STREETWIDTH ->
    before s = (total s - CROSSWIDTH) / 2 ->
    exists car,
      Car_init id at0 s = (Ok car, set_autorandom (snd (next_draw (sim_autorandom s))) s) /\
      car_id car = id /\ car_atime car = at0 /\
      car_shouldstop car = false /\
      VJA <= car_speed car <= VJB /\
      Car_built car /\
      car_brakedist car < before s /\
      0 < (before s - car_brakedist car) / car_speed car < total s / car_speed car.
Proof.
  intros id at0 s [H0 H1] Et Eb.
  unfold Car_init, bind, on_autorandom, uniform, next_draw, ret.
  fold (peek (sim_autorandom s)). cbn [fst snd].
  set (speed := VJA + (VJB - VJA) * peek (sim_autorandom s)).
  assert (Hs : VJA <= speed <= VJB) by (unfold speed, VJA, VJB; nra).
  eexists. split; [reflexivity|].
  cbn [car_id car_atime car_shouldstop car_speed car_brakedist].
  unfold Car_built. cbn [car_speed car_brakedist car_braketime].
  rewrite Eb, Et.
  unfold VJA, VJB, CARACC, BLOCKWIDTH, STREETWIDTH, CROSSWIDTH in *.
  assert (Hpos : 0 < speed) by lra.
  assert (Hinv : 0 < / speed) by (apply Rinv_0_lt_compat; exact Hpos).
  assert (Hbd : speed ^ 2 / (2 * 10) < (7 * 330 + 6 * 46 - 24) / 2) by nra.
  repeat split; try reflexivity; try lra.
  - unfold Rdiv. apply Rmult_lt_0_compat; lra.
  - unfold Rdiv. apply Rmult_lt_compat_r; [exact Hinv|].
    assert (0 <= speed ^ 2) by (apply pow2_ge_0). lra.
Qed.

Lemma car_looks_at_light_before_exit_witness :
  exists car,
    fst (Car_init 1 0 sim_car40) = Ok car /\ VJA <= car_speed car <= VJB.
Proof.
  destruct (car_looks_at_light_before_exit 1 0 sim_car40)
    as (car & H1 & _ & _ & _ & H2 & _).
  - unfold peek, sim_car40, Simulation_blank, const_source. cbn. lra.
  - reflexivity.
  - reflexivity.
  - exists car. rewrite H1. split; [reflexivity|exact H2].
Defined.

(** X27: a pedestrian as [Ped.__init__] builds it from a draw of [0, 1]
    has a speed from VKA to VKB, reaches the button after its spawn, and
    needs less than REDTIMEOUT to cross the street: a pedestrian who starts
    when the light turns red always has the time to cross. *)
Theorem pedestrian_crosses_within_a_red_phase :
  forall (id : Z) (at0 : R) (s : Simulation),
    0 <= peek (sim_pedrandom s) <= 1 ->
    exists ped,
      Ped_init id at0 s = (Ok ped, set_pedrandom (snd (next_draw (sim_pedrandom s))) s) /\
      ped_id ped = id /\ ped_at ped = at0 /\
      VKA <= ped_speed ped <= VKB /\
      0 < ped_walktime ped < REDTIMEOUT /\
      ped_walktime ped < ped_atlight ped.
Proof.
  intros id at0 s [H0 H1].
  unfold Ped_init, bind, on_pedrandom, uniform, next_draw, ret.
  fold (peek (sim_pedrandom s)). cbn [fst snd].
  set (speed := VKA + (VKB - VKA) * peek (sim_pedrandom s)).
  assert (Hs : VKA <= speed <= VKB) by (unfold speed, VKA, VKB; nra).
  eexists. split; [reflexivity|].
  cbn [ped_id ped_at ped_speed ped_walktime ped_atlight].
  unfold VKA, VKB, REDTIMEOUT, BLOCKWIDTH, STREETWIDTH in *.
  assert (Hpos : 0 < speed) by lra.
  assert (Hinv : 0 < / speed) by (apply Rinv_0_lt_compat; exact Hpos).
  split; [reflexivity|]. split; [reflexivity|]. split; [exact Hs|].
  split; [split|].
  - unfold Rdiv. apply Rmult_lt_0_compat; lra.
  - apply (Rmult_lt_reg_r speed); [exact Hpos|].
    unfold Rdiv. rewrite Rmult_assoc, Rinv_l by lra. lra.
  - unfold Rdiv. apply Rmult_lt_compat_r; [exact Hinv|]. lra.
Qed.

Lemma pedestrian_crosses_within_a_red_phase_witness :
  exists ped,
    fst (Ped_init 1 0 sim_queue22) = Ok ped /\ ped_walktime ped < REDTIMEOUT.
Proof.
  destruct (pedestrian_crosses_within_a_red_phase 1 0 sim_queue22)
    as (ped & H1 & _ & _ & _ & H2 & _).
  - unfold peek, sim_queue22, Simulation_blank, const_source. cbn. lra.
  - exists ped. rewrite H1. split; [reflexivity|apply H2].
Defined.

(** X28: [insert] and [next] round trip: an event inserted before every
    pending event is the one that the next call of [next] processes; the
    clock is then at its time, one more event is counted as inserted and
    one more as processed, and the events that were pending still are. *)
Theorem insert_then_next_round_trip :
  forall (hq : Heapq) (is_heap : list Event -> Prop) (g : GlobalSim)
         (s : Simulation) (delta : R) (type : EventType) (id : Z),
    HeapqSpec hq is_heap ->
    is_heap (sim_queue s) ->
    Forall (fun x => sim_time s + delta < ev_at x) (sim_queue s) ->
    let e := mkEvent (sim_time s + delta) type id in
    let s1 := snd (Simulation_insert delta type id s) in
    exists q',
      Permutation q' (sim_queue s) /\
      Simulation_next g s1 = dispatch g e (popped_state e q' s1) /\
      sim_time (popped_state e q' s1) = sim_time s + delta /\
      sim_totalevents (popped_state e q' s1) = S (sim_totalevents s) /\
      sim_eventcount (popped_state e q' s1) = S (sim_eventcount s).
Proof.
  intros hq is_heap g s delta type id HS Hq Hall e s1.
  assert (Hq1 : is_heap (sim_queue s1))
    by (apply (heap_push hq is_heap HS); exact Hq).
  assert (HP : Permutation (sim_queue s1) (e :: sim_queue s))
    by (apply (heap_push_perm hq is_heap HS); exact Hq).
  assert (Hne : sim_queue s1 <> []).
  { intro E0. rewrite E0 in HP. apply Permutation_nil in HP. discriminate. }
  destruct (heap_pop_some hq is_heap HS _ Hq1 Hne) as (e' & q' & Hpop).
  destruct (heap_pop_ok hq is_heap HS _ _ _ Hq1 Hpop) as (_ & HP' & Hmin).
  assert (HP2 : Permutation (e :: sim_queue s) (e' :: q'))
    by (eapply perm_trans; [apply Permutation_sym; exact HP|exact HP']).
  assert (Ee : e' = e).
  { assert (Hin' : In e' (e :: sim_queue s))
      by (apply (Permutation_in _ (Permutation_sym HP2)); left; reflexivity).
    destruct Hin' as [E|Hin']; [symmetry; exact E|].
    assert (Hin : In e (e' :: q'))
      by (apply (Permutation_in _ HP2); left; reflexivity).
    destruct Hin as [E|Hin]; [exact E|].
    rewrite Forall_forall in Hmin, Hall.
    exfalso. apply (Hmin e Hin). unfold Event_lt.
    apply (Hall e' Hin'). }
  subst e'. exists q'. split.
  - apply Permutation_sym. apply (Permutation_cons_inv HP2).
  - split; [apply (Simulation_next_popped g s1 e q' Hpop)|].
    unfold popped_state. proj_simpl. repeat split.
Qed.

Lemma insert_then_next_round_trip_witness :
  exists q',
    Simulation_next (hq := sorted_heapq) SimIsThis
      (snd (Simulation_insert (hq := sorted_heapq) 1 CarExit 7 sim_green5))
    = dispatch (hq := sorted_heapq) SimIsThis
        (mkEvent (sim_time sim_green5 + 1) CarExit 7)
        (popped_state (mkEvent (sim_time sim_green5 + 1) CarExit 7) q'
           (snd (Simulation_insert (hq := sorted_heapq) 1 CarExit 7 sim_green5))).
Proof.
  destruct (insert_then_next_round_trip sorted_heapq sorted_is_heap SimIsThis
              sim_green5 1 CarExit 7) as (q' & _ & H & _).
  - apply sorted_heapq_spec.
  - constructor.
  - constructor.
  - exists q'. exact H.
Defined.

(* ====================================================================== *)
(** * A run in which no press succeeds *)
(* ====================================================================== *)

Lemma no_press_valid : forall tok, no_press tok -> valid_draws tok.
Proof. intros tok H k. specialize (H k). lra. Qed.

Lemma no_press_next : forall tok, no_press tok -> no_press (snd (next_draw tok)).
Proof. intros tok H k. unfold next_draw. cbn [snd src_draws]. apply H. Qed.

(** [bernouli(p)] fails on a draw below 1/16 whenever [p <= 15/16]. *)
Lemma bernouli_fails : forall p tok,
  no_press tok -> p <= 15 / 16 ->
  bernouli p tok = (false, snd (next_draw tok)).
Proof.
  intros p tok H Hp. unfold bernouli, next_draw. cbn [snd].
  f_equal. apply fle_false. specialize (H (src_pos tok)). lra.
Qed.

Section NoPress.

Context {hq : Heapq}.
Variable is_heap : list Event -> Prop.
Hypothesis HS : HeapqSpec hq is_heap.
Variable n : Z.

(** [press] without a press: one draw is read and nothing else changes. *)
Lemma press_fails : forall k id s,
  no_press (sim_buttonrandom s) ->
  PedManager_press k id s
  = (Ok tt, set_buttonrandom (snd (next_draw (sim_buttonrandom s))) s).
Proof.
  intros k id s H. unfold PedManager_press.
  destruct (k =? 0)%nat eqn:Ek.
  - unfold bind, on_buttonrandom. rewrite (bernouli_fails _ _ H) by lra.
    reflexivity.
  - unfold bind, on_buttonrandom. rewrite (bernouli_fails _ _ H).
    + reflexivity.
    + apply Nat.eqb_neq in Ek.
      assert (Hk : 1 <= INR k).
      { replace 1 with (INR 1) by reflexivity. apply le_INR. lia. }
      assert (Hd : 0 < INR k + 1) by lra.
      apply Rmult_le_reg_r with (r := INR k + 1); [exact Hd|].
      unfold Rdiv. rewrite Rmult_assoc, Rinv_l by lra. lra.
Qed.

(** A pedestrian arrives at the button while the light is GREEN and does
    not press it: it waits, and its impatience is scheduled. *)
Lemma arrive_unpressed : forall id s i ped l,
  find_ped id (walking s) = Some (i, ped) ->
  state s = GREEN ->
  sim_log s = Some l ->
  no_press (sim_buttonrandom s) ->
  PedManager_arrive id s
  = (Ok tt,
     set_totalevents (S (sim_totalevents s))
       (set_queue
          (heappush (sim_queue s) (mkEvent (sim_time s + 60) PedImpatient id))
          (set_log (Some (l ++ [LogPedWaiting id]))
             (set_waiting (waiting s ++ [ped])
                (set_buttonrandom (snd (next_draw (sim_buttonrandom s)))
                   (set_walking (remove_at i (walking s)) s)))))).
Proof.
  intros id s i ped l Hf Hg Hl Hb. unfold PedManager_arrive.
  unfold bind at 1. unfold PedManager_getped. rewrite Hf.
  unfold bind at 1. unfold gets at 1.
  replace (state (set_walking (remove_at i (walking s)) s)) with GREEN
    by (symmetry; exact Hg).
  unfold bind at 1. unfold gets at 1.
  unfold bind at 1. unfold gets at 1.
  cbn [LightState_eqb andb].
  unfold bind at 1. unfold ret at 1.
  unfold bind at 1. unfold gets at 1.
  unfold bind at 1. rewrite press_fails by exact Hb.
  unfold bind at 1. unfold modify at 1.
  unfold bind at 1. unfold log_append at 1. proj_simpl. rewrite Hl.
  unfold Simulation_insert. reflexivity.
Qed.

(** The impatience of a pedestrian on its way, without a press: it is
    scheduled again. *)
Lemma impatient_unpressed : forall id s l,
  In id (map ped_id (walking s ++ waiting s)) ->
  sim_log s = Some l ->
  no_press (sim_buttonrandom s) ->
  PedManager_impatient id s
  = (Ok tt,
     set_totalevents (S (sim_totalevents s))
       (set_queue
          (heappush (sim_queue s) (mkEvent (sim_time s + 60) PedImpatient id))
          (set_buttonrandom (snd (next_draw (sim_buttonrandom s)))
             (set_log (Some (l ++ [LogPedImpatient id])) s)))).
Proof.
  intros id s l Hin Hl Hb. unfold PedManager_impatient.
  assert (G : exists ped, PedManager_getped id false s = (Ok (Some ped), s)).
  { unfold PedManager_getped. rewrite map_app in Hin.
    apply in_app_or in Hin.
    destruct (find_ped id (walking s)) as [[i ped]|] eqn:E1.
    - exists ped. reflexivity.
    - destruct Hin as [Hin|Hin].
      + destruct (find_ped_In _ _ Hin) as (i & ped & E). congruence.
      + destruct (find_ped_In _ _ Hin) as (i & ped & E). rewrite E.
        exists ped. reflexivity. }
  destruct G as (ped & G).
  unfold bind at 1. rewrite G.
  unfold bind at 1. unfold log_append at 1. rewrite Hl.
  unfold bind at 1. rewrite press_fails by (proj_simpl; exact Hb).
  unfold Simulation_insert. reflexivity.
Qed.

(** The impatience of a pedestrian who has left: nothing happens. *)
Lemma impatient_gone : forall id s,
  ~ In id (map ped_id (walking s ++ waiting s)) ->
  PedManager_impatient id s = (Ok tt, s).
Proof.
  intros id s Hn. unfold PedManager_impatient.
  unfold bind at 1. rewrite (getped_absent id false s Hn). reflexivity.
Qed.

Lemma In_push : forall q x e,
  is_heap q -> In e (x :: q) -> In e (heappush q x).
Proof.
  intros q x e Hq Hin.
  apply (Permutation_in _ (Permutation_sym (heap_push_perm hq is_heap HS q x Hq))).
  exact Hin.
Qed.

(** [Busy] reads the queue, the counters of the pedestrians and their two
    lists, and a queue that grows keeps it. *)
Lemma Busy_frame : forall q q' s s',
  (forall e, In e q -> In e q') ->
  sim_npeds s' = sim_npeds s -> sim_maxn s' = sim_maxn s ->
  sim_peds s' = sim_peds s ->
  Busy q s -> Busy q' s'.
Proof.
  intros q q' s s' Hq Hn Hm Hp [H|[H|(e & Hin & He & Hid)]].
  - left. rewrite Hn, Hm. exact H.
  - right. left. unfold walking in *. rewrite Hp. exact H.
  - right. right. exists e. split; [apply Hq; exact Hin|]. split; [exact He|].
    unfold walking, waiting in *. rewrite Hp. exact Hid.
Qed.

Lemma Stuck_same : forall s s',
  sim_queue s' = sim_queue s ->
  sim_light s' = sim_light s ->
  sim_peds s' = sim_peds s ->
  sim_buttonrandom s' = sim_buttonrandom s ->
  sim_npeds s' = sim_npeds s ->
  sim_maxn s' = sim_maxn s ->
  Stuck is_heap s -> Stuck is_heap s'.
Proof.
  intros s s' Hq Hl Hp Hb Hn Hm ((Hh & Hg & Hd) & HB).
  split; [split; [|split]|].
  - rewrite Hq. exact Hh.
  - unfold state in *. rewrite Hl. exact Hg.
  - rewrite Hb. exact Hd.
  - rewrite Hq. apply (Busy_frame (sim_queue s) (sim_queue s) s s'); auto.
Qed.

Local Abbreviation K := (Stuck is_heap).

Lemma keeps_K_insert : forall delta type id,
  keeps K (Simulation_insert delta type id) anything.
Proof.
  intros delta type id s ((Hh & Hg & Hd) & HB).
  split; [|intros; exact Logic.I].
  unfold Simulation_insert. cbn [snd].
  split; [split; [|split]|]; proj_simpl.
  - apply (heap_push hq is_heap HS), Hh.
  - exact Hg.
  - exact Hd.
  - apply (Busy_frame (sim_queue s) _ s); try reflexivity; [|exact HB].
    intros e He. apply In_push; [exact Hh|]. right. exact He.
Qed.

Ltac stuck_side :=
  idtac;
  first
    [ exact Logic.I
    | solve [ intros; eapply Stuck_same; [ .. | eassumption ]; reflexivity ]
    | idtac ].

Lemma keeps_K_car_arrive : forall id, keeps K (CarManager_arrive id) anything.
Proof.
  intro id. unfold CarManager_arrive.
  repeat (keeps_step stuck_side fail).
Qed.

Lemma keeps_K_car_exit : forall id, keeps K (CarManager_exit id) anything.
Proof.
  intro id. unfold CarManager_exit.
  repeat (keeps_step stuck_side fail).
Qed.

Lemma Unpressed_popped : forall s e q',
  Unpressed is_heap s ->
  heappop (sim_queue s) = Ok (e, q') ->
  Unpressed is_heap (popped_state e q' s).
Proof.
  intros s e q' (Hh & Hg & Hd) Hpop.
  destruct (heap_pop_ok hq is_heap HS _ _ _ Hh Hpop) as (Hq' & _ & _).
  unfold Unpressed, popped_state, state in *. proj_simpl. auto.
Qed.

(** The events still to come for the pedestrians, once an event is popped
    that is not the impatience of a pedestrian on its way. *)
Lemma Busy_popped : forall s e q',
  is_heap (sim_queue s) ->
  heappop (sim_queue s) = Ok (e, q') ->
  (ev_type e = PedImpatient ->
   ~ In (ev_id e) (map ped_id (walking s ++ waiting s))) ->
  Busy (sim_queue s) s ->
  Busy q' (popped_state e q' s).
Proof.
  intros s e q' Hh Hpop Hne HB.
  destruct (heap_pop_ok hq is_heap HS _ _ _ Hh Hpop) as (_ & Hperm & _).
  destruct HB as [H|[H|(e0 & Hin & He & Hid)]].
  - left. exact H.
  - right. left. exact H.
  - right. right. exists e0. split; [|split; [exact He|exact Hid]].
    apply (Permutation_in _ Hperm) in Hin. destruct Hin as [Heq|Hin].
    + subst e0. exfalso. apply (Hne He). exact Hid.
    + exact Hin.
Qed.

(** No timer is pending while the light is GREEN. *)
Lemma Stuck_no_timer : forall s e q',
  Run_inv is_heap n s -> state s = GREEN ->
  heappop (sim_queue s) = Ok (e, q') ->
  ev_type e <> TimerExpire.
Proof.
  intros s e q' (_ & Hh & _ & _ & _ & Ht & _) Hg Hpop He.
  unfold Timed in Ht. rewrite Hg in Ht. cbn [LightState_eqb] in Ht.
  assert (Hin : In e (sim_queue s)) by (apply (popped_In is_heap HS s e q' Hh Hpop)).
  assert (H : (0 < timers (sim_queue s))%nat).
  { apply (timers_In _ e Hin). unfold is_timer. rewrite He. reflexivity. }
  lia.
Qed.

(** What [next] does to a run in which no press succeeds: the handler of
    the event leaves the light GREEN and an event for the pedestrians still
    to come. *)
Lemma Stuck_dispatch : forall g s e q',
  Run_inv is_heap n s ->
  Stuck is_heap s ->
  heappop (sim_queue s) = Ok (e, q') ->
  Stuck is_heap (snd (dispatch g e (popped_state e q' s))).
Proof.
  intros g s e q' HR (HU & HB) Hpop.
  pose proof (Unpressed_popped s e q' HU Hpop) as HU1.
  pose proof HU as (Hh & Hg & Hd).
  pose proof HR as (_ & _ & (Hvp & Hva & _ & Hlp & Hla) & _ & _ & _ & Hpl).
  pose proof (Stuck_no_timer s e q' HR Hg Hpop) as Hnt.
  set (s1 := popped_state e q' s) in *.
  assert (Hl1 : sim_log s1 = Some []) by reflexivity.
  destruct (ev_type e) eqn:He.
  - exfalso. apply Hnt. reflexivity.
  - (* PedSpawn *)
    assert (HB1 : Busy q' s1)
      by (apply Busy_popped; [exact Hh|exact Hpop|rewrite He; discriminate|exact HB]).
    destruct (sim_npeds s1 <? sim_maxn s1)%Z eqn:En.
    + rewrite (dispatch_PedSpawn_spawns g e s1 [] He En Hl1) by assumption.
      cbn [snd]. destruct HU1 as (Hh1 & Hg1 & Hd1).
      split; [split; [|split]|]; proj_simpl.
      * apply (heap_push hq is_heap HS), (heap_push hq is_heap HS), Hh1.
      * exact Hg1.
      * exact Hd1.
      * right. left. unfold walking. proj_simpl. intro E.
        apply app_eq_nil in E. destruct E as [_ E]. discriminate.
    + rewrite (dispatch_PedSpawn_full g e s1 He En). cbn [snd].
      split; [exact HU1|exact HB1].
  - (* PedArrive *)
    rewrite (dispatch_PedArrive g e s1 He).
    assert (Hin : In (ev_id e) (map ped_id (walking s))).
    { destruct Hpl as (_ & _ & Hperm).
      apply (Permutation_in _ Hperm). apply arrivals_In; [|exact He].
      apply (popped_In is_heap HS s e q' Hh Hpop). }
    destruct (find_ped_In _ _ Hin) as (i & ped & Ef).
    destruct (find_ped_some _ _ _ _ Ef) as (Eid & _ & _).
    destruct HU1 as (Hh1 & Hg1 & Hd1).
    rewrite (arrive_unpressed (ev_id e) s1 i ped [] Ef Hg1 Hl1 Hd1). cbn [snd].
    split; [split; [|split]|]; proj_simpl.
    + apply (heap_push hq is_heap HS), Hh1.
    + exact Hg1.
    + apply no_press_next. exact Hd1.
    + right. right. eexists. split; [apply In_push; [exact Hh1|left; reflexivity]|].
      split; [reflexivity|]. cbn [ev_id]. unfold walking, waiting. proj_simpl.
      rewrite map_app. apply in_or_app. right.
      rewrite map_app. apply in_or_app. right. cbn [map]. left. exact Eid.
  - (* PedImpatient *)
    rewrite (dispatch_PedImpatient g e s1 He).
    destruct (in_dec Z.eq_dec (ev_id e) (map ped_id (walking s1 ++ waiting s1)))
      as [Hin|Hout].
    + destruct HU1 as (Hh1 & Hg1 & Hd1).
      rewrite (impatient_unpressed (ev_id e) s1 [] Hin Hl1 Hd1). cbn [snd].
      split; [split; [|split]|]; proj_simpl.
      * apply (heap_push hq is_heap HS), Hh1.
      * exact Hg1.
      * apply no_press_next. exact Hd1.
      * right. right. eexists.
        split; [apply In_push; [exact Hh1|left; reflexivity]|].
        split; [reflexivity|]. exact Hin.
    + rewrite (impatient_gone (ev_id e) s1 Hout). cbn [snd].
      split; [exact HU1|].
      apply Busy_popped; [exact Hh|exact Hpop| |exact HB].
      intros _. exact Hout.
  - (* CarSpawn *)
    assert (HB1 : Busy q' s1)
      by (apply Busy_popped; [exact Hh|exact Hpop|rewrite He; discriminate|exact HB]).
    destruct (sim_ncars s1 <? sim_maxn s1)%Z eqn:En.
    + rewrite (dispatch_CarSpawn_spawns g e s1 [] He En Hl1) by assumption.
      cbn [snd]. destruct HU1 as (Hh1 & Hg1 & Hd1).
      split; [split; [|split]|]; proj_simpl.
      * repeat apply (heap_push hq is_heap HS). exact Hh1.
      * exact Hg1.
      * exact Hd1.
      * apply (Busy_frame q' _ s1); try reflexivity; [|exact HB1].
        intros e0 H0.
        assert (P1 := heap_push hq is_heap HS).
        repeat (apply In_push; [auto|right]). exact H0.
    + rewrite (dispatch_CarSpawn_full g e s1 He En). cbn [snd].
      split; [exact HU1|exact HB1].
  - (* CarArrive *)
    rewrite (dispatch_CarArrive g e s1 He).
    apply keeps_K_car_arrive. split; [exact HU1|].
    apply Busy_popped; [exact Hh|exact Hpop|rewrite He; discriminate|exact HB].
  - (* CarExit *)
    rewrite (dispatch_CarExit g e s1 He).
    apply keeps_K_car_exit. split; [exact HU1|].
    apply Busy_popped; [exact Hh|exact Hpop|rewrite He; discriminate|exact HB].
Qed.

(** While an event for the pedestrians is still to come, the queue is not
    empty. *)
Lemma Busy_queue : forall s,
  Run_inv is_heap n s -> Busy (sim_queue s) s -> sim_queue s <> [].
Proof.
  intros s ((Hsp & _) & _ & _ & _ & _ & _ & (_ & _ & Hperm)) HB Eq.
  rewrite Eq in *. destruct HB as [H|[H|(e & Hin & _)]].
  - destruct (Hsp H) as (e & Hin & _). exact Hin.
  - cbn in Hperm. apply Permutation_nil in Hperm.
    apply map_eq_nil in Hperm. exact (H Hperm).
  - exact Hin.
Qed.

Lemma Stuck_step : forall g s,
  Run_inv is_heap n s -> Stuck is_heap s -> g <> SimUnbound ->
  exists s', Simulation_next g s = (Ok tt, s') /\
             Run_inv is_heap n s' /\ Stuck is_heap s'.
Proof.
  intros g s HR HK Hg.
  pose proof (Busy_queue s HR (proj2 HK)) as Hne.
  destruct (Run_inv_step is_heap HS n g s HR Hg Hne) as (s' & En & HR' & _).
  exists s'. split; [exact En|]. split; [exact HR'|].
  pose proof HR as (_ & Hh & _).
  destruct (heap_pop_some hq is_heap HS _ Hh Hne) as (e & q' & Hpop).
  pose proof (Stuck_dispatch g s e q' HR HK Hpop) as H.
  rewrite <- (Simulation_next_popped g s e q' Hpop), En in H. exact H.
Qed.

(** The loop of [start] is still running after any number of turns. *)
Lemma start_stuck : forall g fuel s,
  Run_inv is_heap n s -> Stuck is_heap s -> g <> SimUnbound ->
  Simulation_start fuel g s = None.
Proof.
  intros g fuel. induction fuel as [|fuel IH]; intros s HR HK Hg.
  - reflexivity.
  - destruct (Stuck_step g s HR HK Hg) as (s' & En & HR' & HK').
    cbn [Simulation_start]. rewrite En. apply IH; assumption.
Qed.

Lemma Stuck_init : forall a p b debug,
  valid_draws a -> valid_draws p -> no_press b -> (1 <= n)%Z ->
  Stuck is_heap (snd (Simulation_init n a p b debug)).
Proof.
  intros a p b debug Ha Hp Hb Hn.
  pose proof (Run_inv_init is_heap HS n a p b debug Ha Hp (no_press_valid b Hb))
    as (_ & Hh & _).
  split; [split; [exact Hh|]|].
  - rewrite (Simulation_init_events n a p b debug Ha Hp). cbn [snd].
    unfold state. proj_simpl. split; [reflexivity|exact Hb].
  - left. rewrite (Simulation_init_events n a p b debug Ha Hp). cbn [snd].
    proj_simpl. unfold Simulation_blank. proj_simpl. lia.
Qed.

End NoPress.

(** X29: [start] does not return when no press of the button succeeds: with
    at least one pedestrian to generate ([n >= 1]) and a source of the
    button all of whose draws are below 1/16, so that [bernouli] fails at
    every press, the light stays GREEN, a pedestrian waits at the button and
    its [PedImpatient] event is scheduled again every 60 seconds: whatever
    the number of turns, every call of [next] has returned and the loop
    [while True] is still running. *)
Theorem start_never_returns_without_a_press :
  forall (hq : Heapq) (is_heap : list Event -> Prop) n a p b debug g fuel,
    HeapqSpec hq is_heap ->
    valid_draws a -> valid_draws p -> no_press b ->
    g <> SimUnbound ->
    (1 <= n)%Z ->
    Simulation_start fuel g (snd (Simulation_init n a p b debug)) = None.
Proof.
  intros hq is_heap n a p b debug g fuel HS Ha Hp Hb Hg Hn.
  apply (start_stuck is_heap HS n).
  - apply (Run_inv_init is_heap HS); [exact Ha|exact Hp|].
    apply no_press_valid. exact Hb.
  - apply (Stuck_init is_heap HS); assumption.
  - exact Hg.
Qed.

Lemma start_never_returns_without_a_press_witness :
  Simulation_start (hq := sorted_heapq) 12 SimIsThis
    (snd (Simulation_init (hq := sorted_heapq) 1 (const_source (1 / 2))
            (const_source (1 / 2)) (const_source (1 / 32)) false))
  = None.
Proof.
  apply (start_never_returns_without_a_press sorted_heapq sorted_is_heap).
  - apply sorted_heapq_spec.
  - intro k. cbn. lra.
  - intro k. cbn. lra.
  - intro k. cbn. lra.
  - discriminate.
  - lia.
Defined.
